(** * ijson/common.py: backend independent higher level interfaces

    A shallow embedding of [ijson/common.py] and the properties of its four
    components: [parse] (path annotation), [ObjectBuilder] (tree building),
    [items] (prefix extraction) and [ijsondict] (the dictionary with a
    generator in place of one of its entries).

    Python objects live in a store: a dict or a list is a reference to a
    cell, so that a container linked into its parent and filled afterwards
    is the same object in both places.  Generators are functions over the
    list of events still to be pulled, returning what they yield together
    with the way they end (exhaustion or a raised exception). *)

From stdpp Require Import base list strings.
From Stdlib Require Import ZArith Ascii.

Local Open Scope string_scope.
Local Open Scope list_scope.

(** ** Exceptions and fallible computations *)

Inductive exn : Type :=
  | IndexError
  | KeyError
  | TypeError
  | AttributeError
  | ValueError
  | IncompleteJSONError.

Inductive result (A : Type) : Type :=
  | Ok (a : A)
  | Raise (e : exn).
Arguments Ok {A} a.
Arguments Raise {A} e.

Global Instance result_ret : MRet result := fun A a => Ok a.
Global Instance result_bind : MBind result := fun A B k r =>
  match r with
  | Ok a => k a
  | Raise e => Raise e
  end.

(** ** Python lists used as stacks

    The source keeps its stacks in Python lists whose top is the last
    element: [l[-1]], [l.pop()], [l[-1] = x], [l[:-1]], [l.append(x)]. *)

Section PyList.
Context {A : Type}.

(** [l[-1]] *)
Definition py_last (l : list A) : result A :=
  match last l with
  | Some x => Ok x
  | None => Raise IndexError
  end.

(** [l[:-1]] (the empty list for an empty list) *)
Definition py_init (l : list A) : list A := removelast l.

(** [l.pop()]: the remaining list and the element removed *)
Definition py_pop (l : list A) : result (list A * A) :=
  match last l with
  | Some x => Ok (removelast l, x)
  | None => Raise IndexError
  end.

(** [l[-1] = x] *)
Definition py_set_last (l : list A) (x : A) : result (list A) :=
  match last l with
  | Some _ => Ok (removelast l ++ [x])
  | None => Raise IndexError
  end.

(** [l.append(x)] *)
Definition py_append (l : list A) (x : A) : list A := l ++ [x].
End PyList.

(** ** Events

    The basic events of the docstring of [parse], each with the value it
    carries: [('null', None)], [('boolean', b)], [('number', n)],
    [('string', s)], [('map_key', k)], [('start_map', None)],
    [('end_map', None)], [('start_array', None)], [('end_array', None)].
    Numbers are integers here. *)

Inductive event : Type :=
  | null
  | boolean (b : bool)
  | number (n : Z)
  | string_ (s : string)
  | map_key (k : string)
  | start_map
  | end_map
  | start_array
  | end_array.

Global Instance event_eq_dec : EqDecision event.
Proof. solve_decision. Defined.

(** [event in ('start_map', 'start_array')], [token.startswith('start_')] *)
Definition is_start (ev : event) : bool :=
  match ev with
  | start_map | start_array => true
  | _ => false
  end.

(** [token.startswith('end_')] *)
Definition is_end (ev : event) : bool :=
  match ev with
  | end_map | end_array => true
  | _ => false
  end.

(** [event.replace('start', 'end')] *)
Definition end_event (ev : event) : event :=
  match ev with
  | start_map => end_map
  | start_array => end_array
  | _ => ev
  end.

(** ** Path annotation: [parse] *)

(** A path segment is a string, or [None] for a map whose first key has not
    been read yet ([path.append(None)]). *)
Abbreviation segment := (option string).

(** ['.'.join(l)] on strings *)
Fixpoint join (l : list string) : string :=
  match l with
  | [] => ""
  | [s] => s
  | s :: l' => s +:+ "." +:+ join l'
  end.

(** ['.'.join(path)]: a [None] among the segments is a [TypeError]. *)
Fixpoint segments (path : list segment) : result (list string) :=
  match path with
  | [] => Ok []
  | Some s :: path' => l ← segments path'; Ok (s :: l)
  | None :: _ => Raise TypeError
  end.

Definition join_path (path : list segment) : result string :=
  l ← segments path; Ok (join l).

(** A prefixed event [(prefix, event, value)]. *)
Abbreviation prefixed := (string * event)%type.

(** One iteration of the loop of [parse]: the new path and the event
    yielded. *)
Definition parse_step (path : list segment) (ev : event)
  : result (list segment * prefixed) :=
  match ev with
  | map_key value =>
      prefix ← join_path (py_init path);
      path' ← py_set_last path (Some value);
      Ok (path', (prefix, ev))
  | start_map =>
      prefix ← join_path path;
      Ok (py_append path None, (prefix, ev))
  | end_map =>
      '(path', _) ← py_pop path;
      prefix ← join_path path';
      Ok (path', (prefix, ev))
  | start_array =>
      prefix ← join_path path;
      Ok (py_append path (Some "item"), (prefix, ev))
  | end_array =>
      '(path', _) ← py_pop path;
      prefix ← join_path path';
      Ok (path', (prefix, ev))
  | _ =>
      prefix ← join_path path;
      Ok (path, (prefix, ev))
  end.

(** The generator run to its end from a given path: the events it yields,
    the path it ends with, and the exception that ended it, if any. *)
Fixpoint parse_from (path : list segment) (basic_events : list event)
  : list prefixed * list segment * option exn :=
  match basic_events with
  | [] => ([], path, None)
  | ev :: rest =>
      match parse_step path ev with
      | Ok (path', pe) =>
          let '(out, final, ended) := parse_from path' rest in
          (pe :: out, final, ended)
      | Raise e => ([], path, Some e)
      end
  end.

Definition parse (basic_events : list event) : list prefixed * option exn :=
  let '(out, _, ended) := parse_from [] basic_events in (out, ended).

(** ** Python values and the object store *)

Abbreviation loc := nat.

(** A value is a scalar or a reference to an object of the store. *)
Inductive pyval : Type :=
  | PNone
  | PBool (b : bool)
  | PNum (n : Z)
  | PStr (s : string)
  | PRef (l : loc).

Global Instance pyval_eq_dec : EqDecision pyval.
Proof. solve_decision. Defined.

(** The value an event carries. *)
Definition event_value (ev : event) : pyval :=
  match ev with
  | boolean b => PBool b
  | number n => PNum n
  | string_ s => PStr s
  | map_key k => PStr k
  | _ => PNone
  end.

(** A dict keeps its keys in insertion order (as Python dicts do since
    version 3.7; earlier versions promise no order at all): [d[k] = v]
    replaces the value of a key already there, in place, and appends a new
    key at the end. *)
Section Dict.
Context {V : Type}.

Fixpoint dict_set (d : list (string * V)) (k : string) (v : V)
  : list (string * V) :=
  match d with
  | [] => [(k, v)]
  | (k', v') :: d' =>
      if String.eqb k' k then (k, v) :: d' else (k', v') :: dict_set d' k v
  end.

Fixpoint dict_get (d : list (string * V)) (k : string) : option V :=
  match d with
  | [] => None
  | (k', v') :: d' => if String.eqb k' k then Some v' else dict_get d' k
  end.

(** The dict obtained by assigning the pairs of [kvs] in order. *)
Definition dict_of (kvs : list (string * V)) : list (string * V) :=
  fold_left (fun d kv => dict_set d kv.1 kv.2) kvs [].
End Dict.

(** The objects of the store: dicts, lists, and generator objects (of which
    only the identity matters). *)
Inductive obj : Type :=
  | ODict (d : list (string * pyval))
  | OList (xs : list pyval)
  | OGen.

Abbreviation heap := (list obj).

(** A new object gets the next free location. *)
Definition alloc (h : heap) (o : obj) : heap * loc := (h ++ [o], length h).

(** [container[key] = value] on a dict *)
Definition store_setitem (h : heap) (l : loc) (k : string) (v : pyval)
  : result heap :=
  match h !! l with
  | Some (ODict d) => Ok (<[l := ODict (dict_set d k v)]> h)
  | Some (OList _) => Raise TypeError
  | Some OGen => Raise TypeError
  | None => Raise AttributeError
  end.

(** [container.append(value)] on a list *)
Definition store_append (h : heap) (l : loc) (v : pyval) : result heap :=
  match h !! l with
  | Some (OList xs) => Ok (<[l := OList (xs ++ [v])]> h)
  | Some (ODict _) => Raise AttributeError
  | Some OGen => Raise AttributeError
  | None => Raise AttributeError
  end.

(** ** Tree building: [ObjectBuilder] *)

(** The closures kept in [self.containers]: [initial_set], the [setter] of a
    map (which reads [self.key] when it is called), and the bound method
    [array.append]. *)
Inductive container : Type :=
  | initial_set
  | setter (map : loc)
  | array_append (array : loc).

(** The attributes of a builder; [value] and [key] do not exist until they
    are first assigned. *)
Record ObjectBuilder : Type := mkObjectBuilder {
  value : option pyval;
  key : option string;
  containers : list container;
}.

(** [ObjectBuilder()] *)
Definition ObjectBuilder_init : ObjectBuilder :=
  {| value := None; key := None; containers := [initial_set] |}.

(** Calling one of the closures with a value. *)
Definition call (c : container) (self : ObjectBuilder) (h : heap) (v : pyval)
  : result (ObjectBuilder * heap) :=
  match c with
  | initial_set =>
      Ok ({| value := Some v; key := key self;
             containers := containers self |}, h)
  | setter map =>
      match key self with
      | Some k => h' ← store_setitem h map k v; Ok (self, h')
      | None => Raise AttributeError
      end
  | array_append array =>
      h' ← store_append h array v; Ok (self, h')
  end.

Definition push_container (self : ObjectBuilder) (c : container)
  : ObjectBuilder :=
  {| value := value self; key := key self;
     containers := py_append (containers self) c |}.

(** [ObjectBuilder.event] *)
Definition ObjectBuilder_event (self : ObjectBuilder) (h : heap) (ev : event)
  : result (ObjectBuilder * heap) :=
  match ev with
  | map_key k =>
      Ok ({| value := value self; key := Some k;
             containers := containers self |}, h)
  | start_map =>
      let '(h1, map) := alloc h (ODict []) in
      top ← py_last (containers self);
      '(self1, h2) ← call top self h1 (PRef map);
      Ok (push_container self1 (setter map), h2)
  | start_array =>
      let '(h1, array) := alloc h (OList []) in
      top ← py_last (containers self);
      '(self1, h2) ← call top self h1 (PRef array);
      Ok (push_container self1 (array_append array), h2)
  | end_array | end_map =>
      '(cs, _) ← py_pop (containers self);
      Ok ({| value := value self; key := key self; containers := cs |}, h)
  | _ =>
      top ← py_last (containers self);
      call top self h (event_value ev)
  end.

(** Feeding a list of events in order. *)
Fixpoint ObjectBuilder_events (self : ObjectBuilder) (h : heap)
    (evs : list event) : result (ObjectBuilder * heap) :=
  match evs with
  | [] => Ok (self, h)
  | ev :: rest =>
      '(self', h') ← ObjectBuilder_event self h ev;
      ObjectBuilder_events self' h' rest
  end.

(** ** Documents

    The value a well-formed event sequence encodes, and the sequence that
    encodes it (every start matched by its end, a [map_key] directly inside
    a map and immediately followed by the events of its value). *)

#[local] Unset Elimination Schemes.
Inductive json : Type :=
  | JNull
  | JBool (b : bool)
  | JNum (n : Z)
  | JStr (s : string)
  | JArr (xs : list json)
  | JObj (kvs : list (string * json)).
#[local] Set Elimination Schemes.

Fixpoint events_of (j : json) : list event :=
  match j with
  | JNull => [null]
  | JBool b => [boolean b]
  | JNum n => [number n]
  | JStr s => [string_ s]
  | JArr xs => start_array :: concat (map events_of xs) ++ [end_array]
  | JObj kvs =>
      start_map
        :: concat (map (fun kv => map_key kv.1 :: events_of kv.2) kvs)
        ++ [end_map]
  end.

(** Reading a value of the store back as a document.  The store may hold
    cycles, hence the bound on the depth explored. *)
Fixpoint reify (fuel : nat) (h : heap) (v : pyval) : option json :=
  match v with
  | PNone => Some JNull
  | PBool b => Some (JBool b)
  | PNum n => Some (JNum n)
  | PStr s => Some (JStr s)
  | PRef l =>
      match fuel with
      | O => None
      | S fuel' =>
          match h !! l with
          | Some (OList xs) => JArr <$> mapM (reify fuel' h) xs
          | Some (ODict d) =>
              JObj <$> mapM (fun kv => pair kv.1 <$> reify fuel' h kv.2) d
          | _ => None
          end
      end
  end.

Fixpoint depth (j : json) : nat :=
  match j with
  | JArr xs => S (foldr (fun x n => max (depth x) n) 0 xs)
  | JObj kvs => S (foldr (fun kv n => max (depth kv.2) n) 0 kvs)
  | _ => 0
  end.

(** No key occurs twice in one object, at any depth. *)
Fixpoint unique_keys (j : json) : bool :=
  match j with
  | JArr xs => forallb unique_keys xs
  | JObj kvs =>
      bool_decide (NoDup (map fst kvs))
      && forallb (fun kv => unique_keys kv.2) kvs
  | _ => true
  end.

(** The document a builder ends with when keys repeat: the value of a key is
    that of its last occurrence, at the place of its first. *)
Fixpoint last_wins (j : json) : json :=
  match j with
  | JArr xs => JArr (map last_wins xs)
  | JObj kvs => JObj (dict_of (map (fun kv => (kv.1, last_wins kv.2)) kvs))
  | _ => j
  end.

Definition example_events : list event :=
  [start_map; map_key "a"; start_array; number 1; number 2; end_array;
   end_map].

(** ** Prefix extraction: [items]

    [prefixed_events] is the list of the events the source iterator yields,
    and [ended] the way it ends: [None] when it is exhausted
    ([StopIteration], which [items] catches), [Some e] when it raises [e].
    The result is the list of the values yielded, the store, and the
    exception raised, if any. *)

Section Items.
Variable prefix : string.
Variable ended : option exn.

(** [items_from] is the outer [while True] loop; [items_build] is the inner
    [while] loop from its second test on (the first test compares the
    start event itself with its end event and always enters the body). *)
Fixpoint items_from (h : heap) (prefixed_events : list prefixed)
  : list pyval * heap * option exn :=
  match prefixed_events with
  | [] => ([], h, ended)
  | (current, ev) :: rest =>
      if String.eqb current prefix then
        if is_start ev then
          match ObjectBuilder_event ObjectBuilder_init h ev with
          | Ok (builder, h1) => items_build builder (end_event ev) h1 rest
          | Raise e => ([], h, Some e)
          end
        else
          let '(ys, h', r) := items_from h rest in
          (event_value ev :: ys, h', r)
      else items_from h rest
  end
with items_build (builder : ObjectBuilder) (end_ev : event) (h : heap)
    (prefixed_events : list prefixed) : list pyval * heap * option exn :=
  match prefixed_events with
  | [] => ([], h, ended)
  | (current, ev) :: rest =>
      if bool_decide ((current, ev) = (prefix, end_ev)) then
        match value builder with
        | Some v =>
            let '(ys, h', r) := items_from h rest in (v :: ys, h', r)
        | None => ([], h, Some AttributeError)
        end
      else
        match ObjectBuilder_event builder h ev with
        | Ok (builder', h') => items_build builder' end_ev h' rest
        | Raise e => ([], h, Some e)
        end
  end.
End Items.

Definition items (prefixed_events : list prefixed * option exn)
    (prefix : string) : list pyval * heap * option exn :=
  items_from prefix prefixed_events.2 [] prefixed_events.1.

(** ** The dictionary with a generator inside: [ijsondict] *)

(** [prefix.split('.')] *)
Fixpoint split_dots (s : string) : list string :=
  match s with
  | "" => [""]
  | String c s' =>
      if Ascii.eqb c "."%char then "" :: split_dots s'
      else match split_dots s' with
           | x :: r => String c x :: r
           | [] => [String c ""]
           end
  end.

(** [classmap = {'start_map': dict, 'start_array': list}], applied *)
Definition classmap (token : event) : result obj :=
  match token with
  | start_map => Ok (ODict [])
  | start_array => Ok (OList [])
  | _ => Raise KeyError
  end.

(** The two stacks of an [ijsondict] and the store they point into. *)
Record stacks : Type := mkStacks {
  keys_stack : list string;
  data_stack : list loc;
  store : heap;
}.

(** What one iteration of a loop does next: go on with the next event,
    leave the loop, hand a value to the caller, or raise. *)
Inductive outcome : Type :=
  | Next
  | Break
  | Yield (v : pyval)
  | Fault (e : exn).

(** [if isinstance(data, dict): data[key] = value else: data.append(value)] *)
Definition assign (h : heap) (data : loc) (key : string) (v : pyval)
  : result heap :=
  match h !! data with
  | Some (ODict _) => store_setitem h data key v
  | _ => store_append h data v
  end.

(** [if len(keys_stack): ...]: linking [this] into the container on top. *)
Definition link (h : heap) (keys : list string) (data : list loc)
    (this : loc) : result heap :=
  match keys with
  | [] => Ok h
  | _ =>
      thiskey ← py_last keys;
      thisdata ← py_last data;
      assign h thisdata thiskey (PRef this)
  end.

Section Ijsondict.
(** [self] is the dict itself, [self_prefix] is [self.prefix]. *)
Variable self : loc.
Variable self_prefix : list string.

(** The branches shared by the two loops. *)
Definition pop_both (st : stacks) : stacks * option loc * outcome :=
  match py_pop (keys_stack st) with
  | Raise e => (st, None, Fault e)
  | Ok (ks, _) =>
      match py_pop (data_stack st) with
      | Raise e => (mkStacks ks (data_stack st) (store st), None, Fault e)
      | Ok (ds, top) => (mkStacks ks ds (store st), Some top, Next)
      end
  end.

Definition set_key (st : stacks) (k : string) : stacks * outcome :=
  match py_set_last (keys_stack st) k with
  | Raise e => (st, Fault e)
  | Ok ks => (mkStacks ks (data_stack st) (store st), Next)
  end.

Definition assign_top (st : stacks) (v : pyval) : stacks * outcome :=
  match py_last (keys_stack st) with
  | Raise e => (st, Fault e)
  | Ok key =>
      match py_last (data_stack st) with
      | Raise e => (st, Fault e)
      | Ok data =>
          match assign (store st) data key v with
          | Raise e => (st, Fault e)
          | Ok h => (mkStacks (keys_stack st) (data_stack st) h, Next)
          end
      end
  end.

Definition link_push (st : stacks) (h : heap) (this : loc)
  : stacks * outcome :=
  match link h (keys_stack st) (data_stack st) this with
  | Raise e => (mkStacks (keys_stack st) (data_stack st) h, Fault e)
  | Ok h' =>
      (mkStacks (py_append (keys_stack st) "item")
                (py_append (data_stack st) this) h', Next)
  end.

(** One iteration of the loop of [_start_parse]; [first] is its local
    flag, and [this] is [self] until the flag is cleared. *)
Definition start_parse_step (first : bool) (st : stacks) (token : event)
  : stacks * bool * outcome :=
  if is_start token then
    if bool_decide (keys_stack st = py_init self_prefix) then
      let '(h, this) := alloc (store st) OGen in
      match link_push st h this with
      | (st', Next) => (st', first, Break)
      | (st', o) => (st', first, o)
      end
    else if first then
      let '(st', o) := link_push st (store st) self in (st', false, o)
    else
      match classmap token with
      | Raise e => (st, first, Fault e)
      | Ok o =>
          let '(h, this) := alloc (store st) o in
          let '(st', o') := link_push st h this in (st', first, o')
      end
  else if is_end token then
    let '(st', _, o) := pop_both st in (st', first, o)
  else
    match token with
    | map_key k => let '(st', o) := set_key st k in (st', first, o)
    | _ =>
        let '(st', o) := assign_top st (event_value token) in
        (st', first, o)
    end.

(** [_start_parse]: the stacks it stops with, the events it has not
    pulled, and how it stopped ([Next] when the parser is exhausted). *)
Fixpoint start_parse_from (first : bool) (st : stacks) (parser : list event)
  : stacks * list event * outcome :=
  match parser with
  | [] => (st, [], Next)
  | token :: rest =>
      match start_parse_step first st token with
      | (st', first', Next) => start_parse_from first' st' rest
      | (st', _, o) => (st', rest, o)
      end
  end.

(** The first statement of [_json_generator], run when the generator is
    first resumed: [data_stack[-1] = []]. *)
Definition json_generator_enter (st : stacks) : stacks * outcome :=
  let '(h, placeholder) := alloc (store st) (OList []) in
  match py_set_last (data_stack st) placeholder with
  | Raise e => (mkStacks (keys_stack st) (data_stack st) h, Fault e)
  | Ok ds => (mkStacks (keys_stack st) ds h, Next)
  end.

(** The branches of the loop of [_json_generator] on the kind of the event:
    the stacks, the local variables [value] and [yield_flag], and whether
    the iteration goes on to the test that follows the branches. *)
Definition json_generator_branch (yield_flag : bool) (st : stacks)
    (token : event) : stacks * pyval * bool * outcome :=
  if is_start token then
    match classmap token with
    | Raise e => (st, event_value token, yield_flag, Fault e)
    | Ok ob =>
        let '(h, this) := alloc (store st) ob in
        let '(st', o) := link_push st h this in
        (st', event_value token, yield_flag, o)
    end
  else if is_end token then
    match pop_both st with
    | (st', Some top, Next) => (st', PRef top, true, Next)
    | (st', _, o) => (st', event_value token, yield_flag, o)
    end
  else
    match token with
    | map_key k =>
        let '(st', o) := set_key st k in
        (st', event_value token, yield_flag, o)
    | _ =>
        match assign_top st (event_value token) with
        | (st', Next) => (st', event_value token, true, Next)
        | (st', o) => (st', event_value token, yield_flag, o)
        end
    end.

(** One iteration of the loop of [_json_generator]: a branch, then
    [if yield_flag and keys_stack == self.prefix: yield value]. *)
Definition json_generator_step (yield_flag : bool) (st : stacks)
    (token : event) : stacks * bool * outcome :=
  let '(st', v, yield_flag', o) := json_generator_branch yield_flag st token in
  match o with
  | Next =>
      if yield_flag' && bool_decide (keys_stack st' = self_prefix)
      then (st', false, Yield v)
      else (st', yield_flag', Next)
  | _ => (st', yield_flag', o)
  end.

(** The loop of [_json_generator] drained by its caller: the values
    yielded, the stacks at the end, and the exception raised, if any. *)
Fixpoint json_generator_from (yield_flag : bool) (st : stacks)
    (parser : list event) : list pyval * stacks * option exn :=
  match parser with
  | [] => ([], st, None)
  | token :: rest =>
      match json_generator_step yield_flag st token with
      | (st', yield_flag', Next) => json_generator_from yield_flag' st' rest
      | (st', yield_flag', Yield v) =>
          let '(ys, final, r) := json_generator_from yield_flag' st' rest in
          (v :: ys, final, r)
      | (st', _, Fault e) => ([], st', Some e)
      | (st', _, Break) => ([], st', None)
      end
  end.

Definition json_generator (st : stacks) (parser : list event)
  : list pyval * stacks * option exn :=
  match json_generator_enter st with
  | (st', Next) => json_generator_from false st' parser
  | (st', Fault e) => ([], st', Some e)
  | (st', _) => ([], st', None)
  end.
End Ijsondict.

(** [ijsondict(parser, prefix)] with a list of segments for [prefix]
    ([self.prefix = prefix]); the dict itself is the first object of the
    store. *)
Definition ijsondict_init : stacks := mkStacks [] [] [ODict []].

Definition ijsondict_list (parser : list event) (prefix : list string)
  : stacks * list event * outcome :=
  start_parse_from 0 prefix true ijsondict_init parser.

(** The same, followed by the caller draining the generator when
    [_start_parse] created one. *)
Definition ijsondict_list_drained (parser : list event)
    (prefix : list string) : list pyval * stacks * option exn :=
  match ijsondict_list parser prefix with
  | (st, rest, Break) => json_generator prefix st rest
  | (st, _, Fault e) => ([], st, Some e)
  | (st, _, _) => ([], st, None)
  end.

(** [ijsondict(parser, prefix)] with a dotted string for [prefix]
    ([self.prefix = prefix.split('.')]). *)
Definition ijsondict (parser : list event) (prefix : string)
  : stacks * list event * outcome :=
  ijsondict_list parser (split_dots prefix).

Definition ijsondict_drained (parser : list event) (prefix : string)
  : list pyval * stacks * option exn :=
  ijsondict_list_drained parser (split_dots prefix).

(** [__init__] on any argument: a string, a list, or something else, for
    which it raises [ValueError] before it pulls any event. *)
Inductive prefix_argument : Type :=
  | prefix_string (s : string)
  | prefix_list (l : list string)
  | prefix_other.

Definition ijsondict_new (parser : list event) (prefix : prefix_argument)
  : result (stacks * list event * outcome) :=
  match prefix with
  | prefix_string s => Ok (ijsondict parser s)
  | prefix_list l => Ok (ijsondict_list parser l)
  | prefix_other => Raise ValueError
  end.

(** ** Vocabulary of the properties *)

(** The exceptions the annotator and the builder can raise. *)
Definition is_lookup_error (e : exn) : Prop :=
  e = IndexError \/ e = TypeError \/ e = AttributeError.

(** *** One pass of an [ijsondict]

    The points of a pass: [_start_parse] running with its flag [first], the
    generator created and not yet resumed, the generator running with its
    flag [yield_flag], and the pass ended by an exception. *)
Inductive phase : Type :=
  | Descending (first : bool)
  | Created
  | Streaming (yield_flag : bool)
  | Raised.

(** The stacks that a pass over some event stream can go through, for a
    dict at [self] and a target [self_prefix]: from empty stacks, by
    iterations of the two loops and by the entry into the generator. *)
Inductive reachable (self : loc) (self_prefix : list string)
  : phase -> stacks -> Prop :=
  | reach_init h :
      reachable self self_prefix (Descending true) (mkStacks [] [] h)
  | reach_start_parse first st token st' first' o :
      reachable self self_prefix (Descending first) st ->
      start_parse_step self self_prefix first st token = (st', first', o) ->
      reachable self self_prefix
        (match o with
         | Next | Yield _ => Descending first'
         | Break => Created
         | Fault _ => Raised
         end) st'
  | reach_enter st st' o :
      reachable self self_prefix Created st ->
      json_generator_enter st = (st', o) ->
      reachable self self_prefix
        (match o with Fault _ => Raised | _ => Streaming false end) st'
  | reach_generator yield_flag st token st' yield_flag' o :
      reachable self self_prefix (Streaming yield_flag) st ->
      json_generator_step self_prefix yield_flag st token
        = (st', yield_flag', o) ->
      reachable self self_prefix
        (match o with Fault _ => Raised | _ => Streaming yield_flag' end) st'.


Definition is_fault (o : outcome) : bool :=
  match o with
  | Fault _ => true
  | _ => false
  end.



(** *** Documents used as examples *)

(** [{"r": [{"d": [1]}, {"d": [2]}]}] *)
Definition rows_document : json :=
  JObj [("r", JArr [JObj [("d", JArr [JNum 1])];
                    JObj [("d", JArr [JNum 2])]])].

(** [{"c": ["x"], "data": [1, 2, 3], "z": 9}] *)
Definition columns_document : json :=
  JObj [("c", JArr [JStr "x"]); ("data", JArr [JNum 1; JNum 2; JNum 3]);
        ("z", JNum 9)].

(** *** Values of the store and documents *)

(** [v] is, in the store [h], the document [j], built from objects at the
    locations [lo] and above only. *)
#[local] Unset Elimination Schemes.
Inductive repr (lo : nat) (h : heap) : pyval -> json -> Prop :=
  | repr_null : repr lo h PNone JNull
  | repr_bool b : repr lo h (PBool b) (JBool b)
  | repr_num n : repr lo h (PNum n) (JNum n)
  | repr_str s : repr lo h (PStr s) (JStr s)
  | repr_arr l vs js :
      lo <= l ->
      h !! l = Some (OList vs) ->
      Forall2 (repr lo h) vs js ->
      repr lo h (PRef l) (JArr js)
  | repr_obj l d kvs :
      lo <= l ->
      h !! l = Some (ODict d) ->
      Forall2 (fun kv kj => kv.1 = kj.1 /\ repr lo h kv.2 kj.2) d kvs ->
      repr lo h (PRef l) (JObj kvs).
#[local] Set Elimination Schemes.

(** The entries of a dict of the store are those of a dict of documents. *)
Definition dict_repr (lo : nat) (h : heap) (d : list (string * pyval))
    (dj : list (string * json)) : Prop :=
  Forall2 (fun kv kj => kv.1 = kj.1 /\ repr lo h kv.2 kj.2) d dj.

(** The objects of [h] at [lo] and above are still there in [h']. *)
Definition kept_above (lo : nat) (h h' : heap) : Prop :=
  forall l o, lo <= l -> h !! l = Some o -> h' !! l = Some o.

(** The closure [c] can be called: its container is where it should be, and
    [self.key] exists when it is needed. *)
Definition callable (c : container) (self : ObjectBuilder) (h : heap)
  : Prop :=
  match c with
  | initial_set => True
  | setter map => is_Some (key self) /\ exists d, h !! map = Some (ODict d)
  | array_append array => exists xs, h !! array = Some (OList xs)
  end.

(** Feeding the events of [j] to a builder whose top closure is [top] calls
    [top] once, with a value that is [j] (with the last occurrence of a
    repeated key winning) in objects allocated meanwhile, and leaves the
    stack of closures as it was. *)
Definition builds (j : json) : Prop :=
  forall (b : ObjectBuilder) (h : heap) (cs : list container)
         (top : container),
    containers b = cs ++ [top] ->
    callable top b h ->
    exists v b1 h1 b2 news,
      call top b h v = Ok (b1, h1)
      /\ ObjectBuilder_events b h (events_of j) = Ok (b2, h1 ++ news)
      /\ containers b2 = containers b
      /\ value b2 = value b1
      /\ repr (length h) (h1 ++ news) v (last_wins j).

(** The value of the last occurrence of a key among the members of an
    object. *)
Definition last_occurrence (kvs : list (string * json)) (k : string)
  : option json :=
  dict_get (rev kvs) k.

(** *** Occurrences at a prefix *)

(** The prefixed events of a document that sits at the path [p]. *)
Fixpoint annotate (p : list string) (j : json) : list prefixed :=
  match j with
  | JNull => [(join p, null)]
  | JBool b => [(join p, boolean b)]
  | JNum n => [(join p, number n)]
  | JStr s => [(join p, string_ s)]
  | JArr xs =>
      (join p, start_array)
        :: concat (map (annotate (p ++ ["item"])) xs)
        ++ [(join p, end_array)]
  | JObj kvs =>
      (join p, start_map)
        :: concat (map (fun kv => (join p, map_key kv.1)
                                    :: annotate (p ++ [kv.1]) kv.2) kvs)
        ++ [(join p, end_map)]
  end.

(** Walking a document that sits at the path [p] and listing, in document
    order, the values whose dotted path is [target]; a value listed is not
    searched further. *)
Fixpoint occurrences (target : string) (p : list string) (j : json)
  : list json :=
  if String.eqb (join p) target then [j]
  else
    match j with
    | JArr xs => concat (map (occurrences target (p ++ ["item"])) xs)
    | JObj kvs =>
        concat (map (fun kv => occurrences target (p ++ [kv.1]) kv.2) kvs)
    | _ => []
    end.

Definition is_object (j : json) : bool :=
  match j with
  | JObj _ => true
  | _ => false
  end.

(** An object with a member whose key is the empty string and whose value
    is an object: the dotted path of that member is the empty prefix, like
    that of the root. *)
Definition empty_key_object (j : json) : bool :=
  match j with
  | JObj kvs => existsb (fun kv => String.eqb kv.1 "" && is_object kv.2) kvs
  | _ => false
  end.

(** The values [vs], then what the rest of the run of a generator gives. *)
Definition yield_first {S : Type} (vs : list pyval)
    (r : list pyval * S * option exn) : list pyval * S * option exn :=
  (vs ++ r.1.1, r.1.2, r.2).

(** [c] is the dotted path of a place strictly inside the one at [p]. *)
Definition strictly_below (p : list string) (c : string) : Prop :=
  exists q, q <> [] /\ c = join (p ++ q).

(** [{"": {"x": 1}}] *)
Definition empty_key_document : json := JObj [("", JObj [("x", JNum 1)])].

(** What [items] does with the events of a document at [p], before going on
    with the events after them: it yields the occurrences of the target in
    the document, built in objects allocated meanwhile. *)
Definition extracts (target : string) (ended : option exn) (j : json)
  : Prop :=
  forall (p : list string) (h : heap) (rest : list prefixed),
    (p = [] -> target = "" -> empty_key_object j = false) ->
    exists vs news,
      items_from target ended h (annotate p j ++ rest)
      = yield_first vs (items_from target ended (h ++ news) rest)
      /\ Forall2 (repr (length h) (h ++ news)) vs
           (map last_wins (occurrences target p j)).

(** *** Documents streamed by the generator of an [ijsondict] *)

(** The container at [d] takes assignments: it is a dict or a list. *)
Definition assignable (h : heap) (d : loc) : Prop :=
  exists o, h !! d = Some o /\ o <> OGen.

(** No place strictly inside the one with the keys stack [keys] has the keys
    stack [target]. *)
Definition target_not_below (keys target : list string) : Prop :=
  forall q, q <> [] -> keys ++ q <> target.

(** Neither the place with the keys stack [keys] nor a place inside it is
    the one at which [_start_parse] hands over to the generator. *)
Definition no_handoff_from (keys self_prefix : list string) : Prop :=
  forall q, keys ++ q <> py_init self_prefix.

(** The dict [d] after the assignments of the pairs of [kvs], in order. *)
Definition dict_update {V : Type} (d : list (string * V))
    (kvs : list (string * V)) : list (string * V) :=
  fold_left (fun d kv => dict_set d kv.1 kv.2) kvs d.

(** Feeding the events of [j] to either loop of an [ijsondict] assigns once
    to the container on top of the data stack, under the key on top of the
    keys stack, a value that is [j] in objects allocated meanwhile, and
    leaves the stacks as they were.  In the generator, when the target is
    not strictly inside the place of [j], the value is yielded, once, if the
    keys stack is the target, and nothing is yielded otherwise.  In
    [_start_parse] (after its first start event), this holds when the
    handover to the generator happens neither at [j] nor inside it. *)
Definition streams (self : loc) (self_prefix : list string) (j : json)
  : Prop :=
  forall (st : stacks) (ks : list string) (k : string) (ds : list loc)
         (d : loc),
    keys_stack st = ks ++ [k] ->
    data_stack st = ds ++ [d] ->
    assignable (store st) d ->
    exists v h1 news,
      assign (store st) d k v = Ok h1
      /\ repr (length (store st)) (h1 ++ news) v (last_wins j)
      /\ (target_not_below (keys_stack st) self_prefix ->
          forall yield_flag rest,
            json_generator_from self_prefix yield_flag st
              (events_of j ++ rest)
            = yield_first
                (if bool_decide (keys_stack st = self_prefix)
                 then [v] else [])
                (json_generator_from self_prefix
                   (negb (bool_decide (keys_stack st = self_prefix)))
                   (mkStacks (keys_stack st) (data_stack st) (h1 ++ news))
                   rest))
      /\ (no_handoff_from (keys_stack st) self_prefix ->
          forall rest,
            start_parse_from self self_prefix false st (events_of j ++ rest)
            = start_parse_from self self_prefix false
                (mkStacks (keys_stack st) (data_stack st) (h1 ++ news))
                rest).

Definition is_scalar (ev : event) : bool :=
  match ev with
  | null | boolean _ | number _ | string_ _ => true
  | _ => false
  end.

(** *** The entry of the parent container at the target *)

(** The value under the key [k] of the dict at [d], or at the index [i] of
    the list at [d]. *)
Definition entry (h : heap) (d : loc) (k : string) (i : nat)
  : option pyval :=
  match h !! d with
  | Some (ODict dd) => dict_get dd k
  | Some (OList xs) => xs !! i
  | _ => None
  end.

(** The index at which [append] puts a value in the list at [d]. *)
Definition next_index (h : heap) (d : loc) : nat :=
  match h !! d with
  | Some (OList xs) => length xs
  | _ => 0
  end.

Definition is_dict_at (h : heap) (d : loc) : bool :=
  match h !! d with
  | Some (ODict _) => true
  | _ => false
  end.

(** The event [token] makes the loop assign under the key [k] of the dict
    at [d]: a start or scalar event arriving with [d] on top of the data
    stack and [k] on top of the keys stack. *)
Definition reassigns (d : loc) (k : string) (st : stacks) (token : event)
  : bool :=
  (is_start token || is_scalar token)
  && bool_decide (last (data_stack st) = Some d)
  && bool_decide (last (keys_stack st) = Some k)
  && is_dict_at (store st) d.

(** No event of [parser] makes the generator assign under the key [k] of
    the dict at [d]. *)
Fixpoint never_reassigned (self_prefix : list string) (d : loc) (k : string)
    (yield_flag : bool) (st : stacks) (parser : list event) : bool :=
  match parser with
  | [] => true
  | token :: rest =>
      negb (reassigns d k st token)
      && match json_generator_step self_prefix yield_flag st token with
         | (st', yield_flag', Next) | (st', yield_flag', Yield _) =>
             never_reassigned self_prefix d k yield_flag' st' rest
         | _ => true
         end
  end.

(** What an iteration does to the store: nothing, or the allocation of an
    object, or that followed by an assignment into the container on top of
    the data stack under the key on top of the keys stack. *)
Definition store_step (st : stacks) (token : event) (h' : heap) : Prop :=
  h' = store st
  \/ (exists ob, h' = store st ++ [ob])
  \/ (exists ext d' k' v,
        (is_start token || is_scalar token) = true
        /\ last (data_stack st) = Some d'
        /\ last (keys_stack st) = Some k'
        /\ assign (store st ++ ext) d' k' v = Ok h').

(** [[[1, 2], [3]]] *)
Definition nested_arrays_document : json :=
  JArr [JArr [JNum 1; JNum 2]; JArr [JNum 3]].

(** The events of the members of an object. *)
Definition members_events (kvs : list (string * json)) : list event :=
  concat (map (fun kv => map_key kv.1 :: events_of kv.2) kvs).

(** The key [k] is not among the keys of [kvs]. *)
Definition key_absent (k : string) (kvs : list (string * json)) : bool :=
  forallb (fun kv => negb (String.eqb kv.1 k)) kvs.

(** The value [v] of the store [h] reads back as the document [j], with the
    last occurrence of a repeated key winning. *)
Definition reads_as (h : heap) (v : pyval) (j : json) : Prop :=
  reify (depth (last_wins j)) h v = Some (last_wins j).

(** *** Counting events, closures, dotted strings, generator objects *)

(** The number of the events of [evs] that satisfy [f]. *)
Definition count_events (f : event -> bool) (evs : list event) : nat :=
  length (List.filter f evs).

(** An event that completes a value in the generator of an [ijsondict]: a
    scalar, or the end of a container. *)
Definition completes (ev : event) : bool := is_scalar ev || is_end ev.

(** The container of the closure [c], if it has one, is at [lo] or above. *)
Definition closure_above (lo : nat) (c : container) : Prop :=
  match c with
  | initial_set => True
  | setter l | array_append l => lo <= l
  end.

(** The string holds no dot. *)
Fixpoint dot_free (s : string) : bool :=
  match s with
  | "" => true
  | String c s' => negb (Ascii.eqb c "."%char) && dot_free s'
  end.

Definition is_generator (o : obj) : bool :=
  match o with
  | OGen => true
  | _ => false
  end.

(** The number of the generator objects of a store. *)
Definition generators (h : heap) : nat :=
  length (List.filter is_generator h).

(** The prefixed events that carry the prefix [prefix]. *)
Definition at_prefix (prefix : string) (pes : list prefixed)
  : list prefixed :=
  filter (fun pe => pe.1 = prefix) pes.

(** The document is an array or an object. *)
Definition is_container (j : json) : bool :=
  match j with
  | JArr _ | JObj _ => true
  | _ => false
  end.

(** * Properties *)

(** ** The examples of the documentation *)

Example parse_docstring :
  parse [start_map; map_key "array"; start_array; number 1; number 2;
         end_array; map_key "map"; start_map; map_key "key";
         string_ "value"; end_map; end_map]
  = ([("", start_map); ("", map_key "array"); ("array", start_array);
      ("array.item", number 1); ("array.item", number 2);
      ("array", end_array); ("", map_key "map"); ("map", start_map);
      ("map", map_key "key"); ("map.key", string_ "value");
      ("map", end_map); ("", end_map)], None).
Proof. reflexivity. Qed.

Example example_events_encode :
  events_of (JObj [("a", JArr [JNum 1; JNum 2])]) = example_events.
Proof. reflexivity. Qed.

Example build_example :
  ('(b, h) ← ObjectBuilder_events ObjectBuilder_init [] example_events;
   Ok (v ← value b; reify 2 h v))
  = Ok (Some (JObj [("a", JArr [JNum 1; JNum 2])])).
Proof. reflexivity. Qed.

Example items_example :
  items (parse example_events) "a.item" = ([PNum 1; PNum 2], [], None).
Proof. reflexivity. Qed.

(** ** Stacks *)

Section PyListFacts.
Context {A : Type}.
Implicit Types (l : list A) (x y : A).

Lemma py_last_snoc l x : py_last (l ++ [x]) = Ok x.
Proof. unfold py_last. by rewrite last_snoc. Qed.

Lemma py_last_nil : py_last (@nil A) = Raise IndexError.
Proof. reflexivity. Qed.

Lemma py_init_snoc l x : py_init (l ++ [x]) = l.
Proof. apply removelast_last. Qed.

Lemma py_pop_snoc l x : py_pop (l ++ [x]) = Ok (l, x).
Proof. unfold py_pop. by rewrite last_snoc, removelast_last. Qed.


Lemma py_set_last_snoc l x y : py_set_last (l ++ [x]) y = Ok (l ++ [y]).
Proof. unfold py_set_last. by rewrite last_snoc, removelast_last. Qed.

Lemma py_set_last_nil y : py_set_last (@nil A) y = Raise IndexError.
Proof. reflexivity. Qed.

(** A list is empty or ends with an element. *)
Lemma snoc_cases l : l = [] \/ exists l' x, l = l' ++ [x].
Proof.
  destruct l as [|a l] using rev_ind; [by left | right; eauto].
Qed.

Lemma py_pop_Ok l l' x : py_pop l = Ok (l', x) -> l = l' ++ [x].
Proof.
  destruct (snoc_cases l) as [-> | (l0 & x0 & ->)]; [done |].
  rewrite py_pop_snoc. by intros [= -> ->].
Qed.

Lemma py_set_last_Ok l l' y :
  py_set_last l y = Ok l' -> exists l0 x, l = l0 ++ [x] /\ l' = l0 ++ [y].
Proof.
  destruct (snoc_cases l) as [-> | (l0 & x0 & ->)]; [done |].
  rewrite py_set_last_snoc. intros [= <-]. eauto.
Qed.
End PyListFacts.

(** ** The path annotator *)

Lemma segments_app p q :
  segments (p ++ q) = (a ← segments p; b ← segments q; Ok (a ++ b)).
Proof.
  induction p as [|[s|] p IH]; simpl.
  - by destruct (segments q).
  - rewrite IH. destruct (segments p); simpl; [|done].
    by destruct (segments q).
  - done.
Qed.

Lemma segments_Some (l : list string) : segments (map Some l) = Ok l.
Proof. induction l as [|s l IH]; simpl; [done | by rewrite IH]. Qed.

(** Running the annotator over a sequence cut in two. *)
Lemma parse_from_app path evs1 evs2 :
  parse_from path (evs1 ++ evs2) =
  match parse_from path evs1 with
  | (out1, path1, None) =>
      let '(out2, path2, ended) := parse_from path1 evs2 in
      (out1 ++ out2, path2, ended)
  | r => r
  end.
Proof.
  revert path. induction evs1 as [|ev evs1 IH]; intros path; simpl.
  - by destruct (parse_from path evs2) as [[? ?] ?].
  - destruct (parse_step path ev) as [[path' pe]|e]; [|done].
    rewrite IH. destruct (parse_from path' evs1) as [[out1 path1] [e|]]; [done|].
    by destruct (parse_from path1 evs2) as [[? ?] ?].
Qed.

(** C3. On the sequence StartMap, MapKey "a", StartArray, Number 1,
    Number 2, EndArray, EndMap the annotator yields exactly seven events,
    with the prefixes "", "", "a", "a.item", "a.item", "a", "" and the kinds
    and values of the input, and ends normally.  For a MapKey event on any
    stack [path ++ [top]], the prefix is the join of the stack without its
    last segment and that segment is replaced by the key (the join raising
    when a segment below the top is still pending). *)
Theorem parse_example_and_map_key :
  parse example_events
  = ([("", start_map); ("", map_key "a"); ("a", start_array);
      ("a.item", number 1); ("a.item", number 2); ("a", end_array);
      ("", end_map)], None)
  /\ forall (path : list segment) (top : segment) (k : string),
       parse_step (path ++ [top]) (map_key k)
       = (prefix ← join_path path;
          Ok (path ++ [Some k], (prefix, map_key k))).
Proof.
  split; [reflexivity |].
  intros path top k. unfold parse_step.
  rewrite py_init_snoc, py_set_last_snoc. reflexivity.
Qed.

(** C8. When an EndMap or EndArray event arrives while the path stack is
    empty, the annotator raises at that event (the [IndexError] of
    [path.pop()]): it has yielded the events before it and yields nothing
    for it or after it. *)
Theorem parse_end_on_empty_stack_raises :
  forall (before after : list event) (ev : event) (out : list prefixed),
    is_end ev = true ->
    parse_from [] before = (out, [], None) ->
    parse (before ++ ev :: after) = (out, Some IndexError).
Proof.
  intros before after ev out Hend Hbefore.
  unfold parse. rewrite parse_from_app, Hbefore.
  destruct ev; try discriminate Hend; simpl; by rewrite app_nil_r.
Qed.

Lemma parse_end_on_empty_stack_raises_witness :
  parse ([start_map; end_map] ++ end_array :: [null])
  = ([("", start_map); ("", end_map)], Some IndexError).
Proof.
  apply (parse_end_on_empty_stack_raises [start_map; end_map] [null]
           end_array); reflexivity.
Defined.

(** ** No truncation check in this module *)

Lemma ObjectBuilder_events_app b h evs1 evs2 :
  ObjectBuilder_events b h (evs1 ++ evs2) =
  ('(b1, h1) ← ObjectBuilder_events b h evs1; ObjectBuilder_events b1 h1 evs2).
Proof.
  revert b h. induction evs1 as [|ev evs1 IH]; intros b h; simpl; [done|].
  destruct (ObjectBuilder_event b h ev) as [[b' h']|e]; simpl; [|done].
  apply IH.
Qed.

Lemma join_path_raises path e : join_path path = Raise e -> e = TypeError.
Proof.
  unfold join_path. induction path as [|[s|] path IH]; simpl; try congruence.
  destruct (segments path); simpl in *; [congruence | auto].
Qed.

Lemma parse_step_raises path ev e :
  parse_step path ev = Raise e -> is_lookup_error e.
Proof.
  unfold is_lookup_error, parse_step, py_pop, py_set_last.
  destruct ev; simpl;
    repeat match goal with
    | |- context [join_path ?p] =>
        let H := fresh in
        destruct (join_path p) eqn:H; simpl;
        [| apply join_path_raises in H]
    | |- context [last ?p] => destruct (last p); simpl
    end; intros; simplify_eq; auto.
Qed.

Lemma parse_from_raises path evs out final e :
  parse_from path evs = (out, final, Some e) -> is_lookup_error e.
Proof.
  revert path out. induction evs as [|ev evs IH]; intros path out; simpl.
  - congruence.
  - destruct (parse_step path ev) as [[path' pe]|e'] eqn:Hstep.
    + destruct (parse_from path' evs) as [[out' final'] ended] eqn:Hrest.
      intros [= <- <- ->]. eauto.
    + intros [= <- <- <-]. eapply parse_step_raises, Hstep.
Qed.

Lemma call_raises c b h v e : call c b h v = Raise e -> is_lookup_error e.
Proof.
  unfold is_lookup_error, call, store_setitem, store_append.
  destruct c; simpl; [done | |].
  - destruct (key b); [|intros [= <-]; auto].
    destruct (h !! map) as [[]|]; simpl; intros [= <-]; auto.
  - destruct (h !! array) as [[]|]; simpl; intros [= <-]; auto.
Qed.

Lemma ObjectBuilder_event_raises b h ev e :
  ObjectBuilder_event b h ev = Raise e -> is_lookup_error e.
Proof.
  unfold ObjectBuilder_event, py_last, py_pop.
  destruct ev; simpl; try done;
    (destruct (last (containers b)) as [top|]; simpl;
     [| intros [= <-]; red; auto]); try done;
    match goal with
    | |- context [call ?c ?b ?h ?v] =>
        let H := fresh in
        destruct (call c b h v) as [[? ?]|?] eqn:H; simpl;
        [done | apply call_raises in H; congruence]
    end.
Qed.

Lemma ObjectBuilder_events_raises b h evs e :
  ObjectBuilder_events b h evs = Raise e -> is_lookup_error e.
Proof.
  revert b h. induction evs as [|ev evs IH]; intros b h; simpl; [done|].
  destruct (ObjectBuilder_event b h ev) as [[b' h']|e'] eqn:Hev; simpl.
  - apply IH.
  - intros [= <-]. eapply ObjectBuilder_event_raises, Hev.
Qed.

(** C7, as the code has it.  StartMap alone, or an empty source, is consumed
    without any exception: the annotator yields what it received and ends,
    the builder holds an empty dict (no value at all for an empty source),
    and [items] yields nothing.  Cutting a sequence short never turns a run
    without exception into one with an exception, for the annotator and for
    the builder, and neither of them ever raises [IncompleteJSONError]. *)
Theorem truncated_source_is_consumed_silently :
  (parse [start_map] = ([("", start_map)], None)
   /\ ObjectBuilder_events ObjectBuilder_init [] [start_map]
      = Ok ({| value := Some (PRef 0); key := None;
               containers := [initial_set; setter 0] |}, [ODict []])
   /\ items (parse [start_map]) "" = ([], [ODict []], None)
   /\ parse [] = ([], None)
   /\ value ObjectBuilder_init = None
   /\ items (parse []) "" = ([], [], None))
  /\ (forall evs rest : list event,
        (parse (evs ++ rest)).2 = None -> (parse evs).2 = None)
  /\ (forall b h (evs rest : list event) r,
        ObjectBuilder_events b h (evs ++ rest) = Ok r ->
        exists r', ObjectBuilder_events b h evs = Ok r')
  /\ (forall evs : list event, (parse evs).2 <> Some IncompleteJSONError)
  /\ (forall b h (evs : list event),
        ObjectBuilder_events b h evs <> Raise IncompleteJSONError).
Proof.
  split; [repeat split; reflexivity |].
  split; [| split; [| split]].
  - intros evs rest. unfold parse. rewrite parse_from_app.
    destruct (parse_from [] evs) as [[out1 path1] [e|]]; simpl; [done|].
    done.
  - intros b h evs rest r. rewrite ObjectBuilder_events_app.
    destruct (ObjectBuilder_events b h evs) as [r'|e]; simpl; [eauto | done].
  - intros evs. unfold parse.
    destruct (parse_from [] evs) as [[out final] [e|]] eqn:Hrun; simpl;
      [| done].
    apply parse_from_raises in Hrun.
    intros [= ->]. destruct Hrun as [|[|]]; discriminate.
  - intros b h evs Hrun. apply ObjectBuilder_events_raises in Hrun.
    destruct Hrun as [|[|]]; discriminate.
Qed.

Lemma truncated_source_is_consumed_silently_witness :
  (parse ([start_map; map_key "a"] ++ [start_array])).2 = None
  /\ (parse [start_map; map_key "a"]).2 = None.
Proof.
  split; [reflexivity |].
  apply (proj1 (proj2 truncated_source_is_consumed_silently)
           [start_map; map_key "a"] [start_array]).
  reflexivity.
Defined.

(** C7, as stated, fails: StartMap alone raises nothing, neither in the
    annotator, nor in the builder (whose value is an empty dict), nor in
    [items]. *)
Lemma start_map_alone_raises_nothing :
  (parse [start_map]).2 = None
  /\ (exists b,
        ObjectBuilder_events ObjectBuilder_init [] [start_map]
        = Ok (b, [ODict []])
        /\ value b = Some (PRef 0))
  /\ (items (parse [start_map]) "").2 = None
  /\ (parse []).2 = None.
Proof.
  repeat split. eexists. split; reflexivity.
Qed.

(** ** The two stacks of an [ijsondict] *)

Section StackDiscipline.
Variable self : loc.
Variable self_prefix : list string.
Implicit Types (st : stacks) (o : outcome).


Lemma set_key_spec st k st' o :
  set_key st k = (st', o) ->
  length (keys_stack st') = length (keys_stack st)
  /\ data_stack st' = data_stack st /\ store st' = store st.
Proof.
  unfold set_key.
  destruct (py_set_last (keys_stack st) k) as [ks|e] eqn:Hset.
  - apply py_set_last_Ok in Hset as (l0 & x & -> & ->).
    intros [= <- <-]; simpl. by rewrite !length_app.
  - by intros [= <- <-].
Qed.







End StackDiscipline.



(** ** The generator of an [ijsondict] *)

(** One more iteration from a point already reached. *)
Ltac start_parse_on H token :=
  let H' := fresh in
  pose proof (reach_start_parse _ _ _ _ token _ _ _ H eq_refl) as H';
  simpl in H'; clear H; rename H' into H.

Ltac generator_enter H :=
  let H' := fresh in
  pose proof (reach_enter _ _ _ _ _ H eq_refl) as H';
  simpl in H'; clear H; rename H' into H.

Ltac generator_on H token :=
  let H' := fresh in
  pose proof (reach_generator _ _ _ _ token _ _ _ H eq_refl) as H';
  simpl in H'; clear H; rename H' into H.

(** The branches end with [Next] or with an exception. *)
Lemma link_push_outcome st h this st' o :
  link_push st h this = (st', o) -> o = Next \/ is_fault o = true.
Proof.
  unfold link_push. destruct (link _ _ _ _); intros [= <- <-]; auto.
Qed.

Lemma pop_both_outcome st st' top o :
  pop_both st = (st', top, o) ->
  (o = Next /\ is_Some top) \/ (is_fault o = true /\ top = None).
Proof.
  unfold pop_both. destruct (py_pop (keys_stack st)) as [[ks k]|e].
  - destruct (py_pop (data_stack st)) as [[ds d]|e];
      intros [= <- <- <-]; eauto.
  - intros [= <- <- <-]; eauto.
Qed.

Lemma set_key_outcome st k st' o :
  set_key st k = (st', o) -> o = Next \/ is_fault o = true.
Proof.
  unfold set_key. destruct (py_set_last _ _); intros [= <- <-]; auto.
Qed.

Lemma assign_top_outcome st v st' o :
  assign_top st v = (st', o) -> o = Next \/ is_fault o = true.
Proof.
  unfold assign_top.
  destruct (py_last (keys_stack st)); [| intros [= <- <-]; auto].
  destruct (py_last (data_stack st)); [| intros [= <- <-]; auto].
  destruct (assign _ _ _ _); intros [= <- <-]; auto.
Qed.

Lemma json_generator_branch_outcome yield_flag st token st' v yf' o :
  json_generator_branch yield_flag st token = (st', v, yf', o) ->
  o = Next \/ is_fault o = true.
Proof.
  unfold json_generator_branch. destruct (is_start token).
  - destruct (classmap token); [| intros [= <- <- <- <-]; auto].
    simpl. destruct (link_push st _ _) as [st1 o1] eqn:Hlp.
    apply link_push_outcome in Hlp. by intros [= <- <- <- <-].
  - destruct (is_end token).
    + destruct (pop_both st) as [[st1 top] o1] eqn:Hpop.
      apply pop_both_outcome in Hpop as [[-> [d ->]] | [Hf ->]].
      * intros [= <- <- <- <-]; auto.
      * intros [= <- <- <- <-]; auto.
    + destruct token;
        repeat match goal with
        | |- context [set_key ?s ?k] =>
            let H := fresh in
            destruct (set_key s k) as [? ?] eqn:H; apply set_key_outcome in H
        | |- context [assign_top ?s ?v] =>
            let H := fresh in
            destruct (assign_top s v) as [? ?] eqn:H;
            apply assign_top_outcome in H as [-> | ?]
        end; try (intros [= <- <- <- <-]; auto; fail);
        destruct o0; try discriminate; intros [= <- <- <- <-]; auto.
Qed.

(** A yield happens only with the keys stack equal to the target. *)
Lemma json_generator_step_yield self_prefix yield_flag st token st' yf' v :
  json_generator_step self_prefix yield_flag st token = (st', yf', Yield v) ->
  keys_stack st' = self_prefix /\ yf' = false.
Proof.
  unfold json_generator_step.
  destruct (json_generator_branch yield_flag st token)
    as [[[st1 v1] yf1] o1] eqn:Hbranch.
  apply json_generator_branch_outcome in Hbranch as [-> | Hf].
  - destruct yf1; simpl; [| intros [=]].
    case_bool_decide; intros Heq; simplify_eq. done.
  - destruct o1; try discriminate.
Qed.

(** C4, on [{"r": [{"d": [1]}, {"d": [2]}]}] with the target
    [r.item.d.item].  The values completed at the target are 1 and 2, and
    the drained generator yields three times: 1, [None], 2.  The [None] is
    yielded on the StartArray event of the second array, which completes no
    value: [yield_flag], set by the EndArray and EndMap events before it at
    other paths, is still set when the keys stack comes back to the target. *)
Theorem generator_yields_on_start_event :
  (ijsondict_drained (events_of rows_document) "r.item.d.item").1.1
  = [PNum 1; PNone; PNum 2]
  /\ exists st st',
       reachable 0 ["r"; "item"; "d"; "item"] (Streaming true) st
       /\ keys_stack st = ["r"; "item"; "d"]
       /\ json_generator_step ["r"; "item"; "d"; "item"] true st start_array
          = (st', false, Yield PNone).
Proof.
  split; [reflexivity |].
  pose proof (reach_init 0 ["r"; "item"; "d"; "item"] [ODict []]) as H.
  start_parse_on H start_map. start_parse_on H (map_key "r").
  start_parse_on H start_array. start_parse_on H start_map.
  start_parse_on H (map_key "d"). start_parse_on H start_array.
  generator_enter H.
  generator_on H (number 1). generator_on H end_array.
  generator_on H end_map. generator_on H start_map.
  generator_on H (map_key "d").
  eexists _, _. split; [exact H |]. split; reflexivity.
Qed.

(** ** Documents and the store *)

(** Induction on documents, through the lists they nest. *)
Lemma json_ind (P : json -> Prop) :
  P JNull ->
  (forall b, P (JBool b)) ->
  (forall n, P (JNum n)) ->
  (forall s, P (JStr s)) ->
  (forall xs, Forall P xs -> P (JArr xs)) ->
  (forall kvs, Forall (fun kv => P kv.2) kvs -> P (JObj kvs)) ->
  forall j, P j.
Proof.
  intros Hnull Hbool Hnum Hstr Harr Hobj. fix IH 1.
  intros [| b | n | s | xs | kvs].
  - exact Hnull.
  - apply Hbool.
  - apply Hnum.
  - apply Hstr.
  - apply Harr. induction xs as [|x xs IHxs]; constructor;
      [apply IH | exact IHxs].
  - apply Hobj. induction kvs as [|[k x] kvs IHkvs]; constructor;
      [apply IH | exact IHkvs].
Qed.

Lemma repr_arr_inv lo h v js :
  repr lo h v (JArr js) ->
  exists l vs,
    v = PRef l /\ lo <= l /\ h !! l = Some (OList vs)
    /\ Forall2 (repr lo h) vs js.
Proof. inversion 1; subst; eauto 10. Qed.

Lemma repr_obj_inv lo h v kvs :
  repr lo h v (JObj kvs) ->
  exists l d,
    v = PRef l /\ lo <= l /\ h !! l = Some (ODict d) /\ dict_repr lo h d kvs.
Proof. inversion 1; subst; unfold dict_repr; eauto 10. Qed.

(** Changing a relation between two lists under a property of the elements
    of the second. *)
Lemma Forall2_change {A B} (P : B -> Prop) (R R' : A -> B -> Prop) l k :
  Forall P k ->
  Forall2 R l k ->
  (forall x y, P y -> R x y -> R' x y) ->
  Forall2 R' l k.
Proof.
  intros HP HR Himpl. revert HP.
  induction HR as [|x y l k Hxy _ IH]; intros HP; constructor;
    inversion HP; subst; auto.
Qed.

Lemma repr_weaken lo lo' h v j : lo' <= lo -> repr lo h v j -> repr lo' h v j.
Proof.
  intros Hlo. revert v.
  induction j as [| | | | xs IH | kvs IH] using json_ind; intros v Hr.
  1-4: inversion Hr; subst; constructor.
  - apply repr_arr_inv in Hr as (l & vs & -> & Hl & Hh & Hvs).
    apply repr_arr with vs; [lia | done |].
    eapply Forall2_change; [exact IH | exact Hvs | auto].
  - apply repr_obj_inv in Hr as (l & d & -> & Hl & Hh & Hd).
    apply repr_obj with d; [lia | done |].
    eapply Forall2_change; [exact IH | exact Hd |].
    intros kv kj HP [Hk Hv]. auto.
Qed.

Lemma repr_kept lo h h' v j :
  kept_above lo h h' -> repr lo h v j -> repr lo h' v j.
Proof.
  intros Hkept. revert v.
  induction j as [| | | | xs IH | kvs IH] using json_ind; intros v Hr.
  1-4: inversion Hr; subst; constructor.
  - apply repr_arr_inv in Hr as (l & vs & -> & Hl & Hh & Hvs).
    apply repr_arr with vs; [done | by apply Hkept |].
    eapply Forall2_change; [exact IH | exact Hvs | auto].
  - apply repr_obj_inv in Hr as (l & d & -> & Hl & Hh & Hd).
    apply repr_obj with d; [done | by apply Hkept |].
    eapply Forall2_change; [exact IH | exact Hd |].
    intros kv kj HP [Hk Hv]. auto.
Qed.

Lemma dict_repr_weaken lo lo' h d dj :
  lo' <= lo -> dict_repr lo h d dj -> dict_repr lo' h d dj.
Proof.
  intros Hlo Hd. eapply Forall2_impl; [exact Hd |].
  intros kv kj [Hk Hv]. eauto using repr_weaken.
Qed.

Lemma dict_repr_kept lo h h' d dj :
  kept_above lo h h' -> dict_repr lo h d dj -> dict_repr lo h' d dj.
Proof.
  intros Hkept Hd. eapply Forall2_impl; [exact Hd |].
  intros kv kj [Hk Hv]. eauto using repr_kept.
Qed.

Lemma kept_above_refl lo h : kept_above lo h h.
Proof. by intros l o. Qed.

Lemma kept_above_trans lo h1 h2 h3 :
  kept_above lo h1 h2 -> kept_above lo h2 h3 -> kept_above lo h1 h3.
Proof. intros H12 H23 l o Hl Ho. eauto. Qed.

Lemma kept_above_le lo lo' h h' :
  lo <= lo' -> kept_above lo h h' -> kept_above lo' h h'.
Proof. intros Hlo Hk l o Hl. apply Hk. lia. Qed.

Lemma kept_above_app lo h ext : kept_above lo h (h ++ ext).
Proof. intros l o _ Ho. by apply lookup_app_l_Some. Qed.

Lemma kept_above_insert lo h l o : l < lo -> kept_above lo h (<[l := o]> h).
Proof.
  intros Hl l' o' Hl' Ho'. rewrite list_lookup_insert_ne; [done | lia].
Qed.

(** Reading back a value that is a document gives the document. *)
Lemma repr_reify lo h v j fuel :
  repr lo h v j -> depth j <= fuel -> reify fuel h v = Some j.
Proof.
  revert v fuel.
  induction j as [| | | | xs IH | kvs IH] using json_ind; intros v fuel Hr Hd.
  1-4: inversion Hr; subst; by destruct fuel.
  - apply repr_arr_inv in Hr as (l & vs & -> & Hl & Hh & Hvs).
    simpl in Hd. destruct fuel as [|fuel]; [lia |]. simpl. rewrite Hh.
    apply le_S_n in Hd.
    assert (Hm : mapM (reify fuel h) vs = Some xs).
    { apply mapM_Some. clear Hh. revert IH Hd.
      induction Hvs as [|v x vs xs Hv _ IHvs]; intros IH Hd;
        constructor; inversion IH; subst; simpl in Hd.
      - apply H1; [done | lia].
      - apply IHvs; [done | lia]. }
    by rewrite Hm.
  - apply repr_obj_inv in Hr as (l & d & -> & Hl & Hh & Hdr).
    simpl in Hd. destruct fuel as [|fuel]; [lia |]. simpl. rewrite Hh.
    apply le_S_n in Hd.
    assert (Hm : mapM (fun kv => pair kv.1 <$> reify fuel h kv.2) d
                 = Some kvs).
    { apply mapM_Some. clear Hh. revert IH Hd.
      induction Hdr as [|[k v] [k' x] d kvs [Hk Hv] _ IHd]; intros IH Hd;
        constructor; inversion IH; subst; simpl in *.
      - subst k'. rewrite (H1 v fuel); [done | done | lia].
      - apply IHd; [done | lia]. }
    by rewrite Hm.
Qed.

(** ** The tree builder *)

Lemma call_same c b h v b1 h1 :
  call c b h v = Ok (b1, h1) ->
  containers b1 = containers b /\ key b1 = key b /\ length h1 = length h
  /\ (c <> initial_set -> b1 = b).
Proof.
  unfold call, store_setitem, store_append. destruct c; simpl.
  - intros [= <- <-]. done.
  - destruct (key b) eqn:Hk; [| done].
    destruct (h !! map) as [[]|]; simpl; intros [= <- <-].
    by rewrite length_insert.
  - destruct (h !! array) as [[]|]; simpl; intros [= <- <-].
    by rewrite length_insert.
Qed.

(** A call does not depend on the objects allocated after its container. *)
Lemma call_app c b h v b1 h1 ext :
  call c b h v = Ok (b1, h1) -> call c b (h ++ ext) v = Ok (b1, h1 ++ ext).
Proof.
  unfold call, store_setitem, store_append. destruct c; simpl.
  - by intros [= <- <-].
  - destruct (key b); [| done].
    destruct (h !! map) as [o|] eqn:Hm; [| done].
    rewrite (lookup_app_l_Some _ _ _ _ Hm).
    destruct o; simpl; intros [= <- <-].
    rewrite insert_app_l; [done | by eapply lookup_lt_Some].
  - destruct (h !! array) as [o|] eqn:Ha; [| done].
    rewrite (lookup_app_l_Some _ _ _ _ Ha).
    destruct o; simpl; intros [= <- <-].
    rewrite insert_app_l; [done | by eapply lookup_lt_Some].
Qed.

Lemma callable_call c b h v :
  callable c b h -> exists b1 h1, call c b h v = Ok (b1, h1).
Proof.
  unfold callable, call, store_setitem, store_append. destruct c; simpl.
  - eauto.
  - intros [[k ->] [d ->]]. simpl. eauto.
  - intros [xs ->]. simpl. eauto.
Qed.

(** Assigning corresponding values under a key keeps two dicts
    corresponding. *)
Lemma dict_repr_set lo h d dj k v j :
  dict_repr lo h d dj ->
  repr lo h v j ->
  dict_repr lo h (dict_set d k v) (dict_set dj k j).
Proof.
  intros Hd Hv.
  induction Hd as [|[k1 v1] [k2 j2] d dj [Hk Hkv] Hrest IH]; simpl in *.
  - by repeat constructor.
  - subst k2. destruct (String.eqb k1 k); constructor; auto.
Qed.

(** The elements of an array, fed to a builder with the [append] of the
    array on top. *)
Lemma build_elements js :
  Forall builds js ->
  forall (b : ObjectBuilder) (H : heap) cs l vs,
    containers b = cs ++ [array_append l] ->
    H !! l = Some (OList vs) ->
    exists b' H' vs',
      ObjectBuilder_events b H (concat (map events_of js)) = Ok (b', H')
      /\ containers b' = containers b
      /\ value b' = value b
      /\ take l H' = take l H
      /\ H' !! l = Some (OList (vs ++ vs'))
      /\ Forall2 (repr (S l) H') vs' (map last_wins js)
      /\ kept_above (S l) H H'.
Proof.
  induction 1 as [|j js Hj _ IH]; intros b H cs l vs Hb Hl.
  - exists b, H, []. rewrite app_nil_r. simpl.
    repeat split; auto using kept_above_refl.
  - destruct (Hj b H cs (array_append l) Hb (ex_intro _ vs Hl))
      as (v & b1 & h1 & b2 & news & Hcall & Hrun & Hc2 & Hv2 & Hrepr).
    pose proof (lookup_lt_Some _ _ _ Hl) as Hlt.
    destruct (call_same _ _ _ _ _ _ Hcall) as (_ & _ & Hlen & Hsame).
    rewrite (Hsame ltac:(done)) in Hv2.
    simpl in Hcall. unfold store_append in Hcall. rewrite Hl in Hcall.
    simpl in Hcall. injection Hcall as _ <-.
    destruct (IH b2 (<[l := OList (vs ++ [v])]> H ++ news) cs l (vs ++ [v]))
      as (b' & H' & vs' & Hrun' & Hc' & Hv' & Htake & Hl' & Hreprs & Hkept).
    { congruence. }
    { rewrite lookup_app_l by (rewrite length_insert; lia).
      by rewrite list_lookup_insert_eq. }
    assert (Hkept1 : kept_above (S l) H (<[l := OList (vs ++ [v])]> H ++ news)).
    { eapply kept_above_trans; [| apply kept_above_app].
      apply kept_above_insert. lia. }
    exists b', H', (v :: vs'). simpl.
    rewrite ObjectBuilder_events_app, Hrun. simpl.
    repeat split.
    + exact Hrun'.
    + congruence.
    + congruence.
    + rewrite Htake, take_app_le by (rewrite length_insert; lia).
      by rewrite take_insert_ge.
    + by rewrite <- app_assoc in Hl'.
    + constructor; [| done].
      eapply repr_kept; [exact Hkept |].
      eapply repr_weaken; [| exact Hrepr]. lia.
    + eapply kept_above_trans; eauto.
Qed.

(** The members of an object, fed to a builder with the [setter] of the
    object on top. *)
Lemma build_members kvs :
  Forall (fun kv => builds kv.2) kvs ->
  forall (b : ObjectBuilder) (H : heap) cs l d dj,
    containers b = cs ++ [setter l] ->
    H !! l = Some (ODict d) ->
    dict_repr (S l) H d dj ->
    exists b' H' d',
      ObjectBuilder_events b H
        (concat (map (fun kv => map_key kv.1 :: events_of kv.2) kvs))
      = Ok (b', H')
      /\ containers b' = containers b
      /\ value b' = value b
      /\ take l H' = take l H
      /\ H' !! l = Some (ODict d')
      /\ dict_repr (S l) H' d'
           (fold_left (fun d kv => dict_set d kv.1 kv.2)
              (map (fun kv => (kv.1, last_wins kv.2)) kvs) dj)
      /\ kept_above (S l) H H'.
Proof.
  induction 1 as [|[k j] kvs Hj _ IH]; intros b H cs l d dj Hb Hl Hd.
  - exists b, H, d. simpl. repeat split; auto using kept_above_refl.
  - simpl in Hj.
    set (bk := {| value := value b; key := Some k;
                  containers := containers b |}).
    destruct (Hj bk H cs (setter l) Hb) as
      (v & b1 & h1 & b2 & news & Hcall & Hrun & Hc2 & Hv2 & Hrepr).
    { split; [by eexists | eauto]. }
    pose proof (lookup_lt_Some _ _ _ Hl) as Hlt.
    destruct (call_same _ _ _ _ _ _ Hcall) as (_ & _ & Hlen & Hsame).
    rewrite (Hsame ltac:(done)) in Hv2.
    simpl in Hcall. unfold store_setitem in Hcall. rewrite Hl in Hcall.
    simpl in Hcall. injection Hcall as _ <-.
    set (H1 := <[l := ODict (dict_set d k v)]> H ++ news) in *.
    assert (Hkept1 : kept_above (S l) H H1).
    { eapply kept_above_trans; [| apply kept_above_app].
      apply kept_above_insert. lia. }
    destruct (IH b2 H1 cs l (dict_set d k v) (dict_set dj k (last_wins j)))
      as (b' & H' & d' & Hrun' & Hc' & Hv' & Htake & Hl' & Hreprs & Hkept).
    { by rewrite Hc2. }
    { unfold H1. rewrite lookup_app_l by (rewrite length_insert; lia).
      by rewrite list_lookup_insert_eq. }
    { apply dict_repr_set.
      - eapply dict_repr_kept; [exact Hkept1 | exact Hd].
      - eapply repr_weaken; [| exact Hrepr]. lia. }
    exists b', H', d'. simpl.
    rewrite ObjectBuilder_events_app. fold bk. rewrite Hrun. simpl.
    repeat split.
    + exact Hrun'.
    + by rewrite Hc', Hc2.
    + by rewrite Hv', Hv2.
    + rewrite Htake. unfold H1.
      rewrite take_app_le by (rewrite length_insert; lia).
      by rewrite take_insert_ge.
    + exact Hl'.
    + exact Hreprs.
    + eapply kept_above_trans; eauto.
Qed.

(** Every document is built as [builds] says. *)
Lemma builds_all j : builds j.
Proof.
  induction j as [| bo | n | s | xs IH | kvs IH] using json_ind;
    intros b h cs top Hb Hcallable.
  1-4: match goal with
       | |- context [events_of ?j] =>
           let v := eval cbn in
             (match events_of j with [ev] => event_value ev | _ => PNone end)
           in
           destruct (callable_call top b h v Hcallable) as (b1 & h1 & Hcall);
           exists v, b1, h1, b1, []
       end;
       rewrite app_nil_r; (split; [exact Hcall |]); simpl;
       rewrite Hb, py_last_snoc; simpl; rewrite Hcall; simpl; repeat split;
       [destruct (call_same _ _ _ _ _ _ Hcall) as (Hc & _); congruence
       | constructor].
  - destruct (callable_call top b h (PRef (length h)) Hcallable)
      as (b1 & h1 & Hcall).
    destruct (call_same _ _ _ _ _ _ Hcall) as (Hc1 & _ & Hlen & _).
    destruct (build_elements xs IH (push_container b1 (array_append (length h)))
                (h1 ++ [OList []]) (cs ++ [top]) (length h) [])
      as (b' & H' & vs & Hrun & Hc' & Hv' & Htake & Hl' & Hreprs & Hkept).
    { simpl. unfold py_append. by rewrite Hc1, Hb. }
    { rewrite <- Hlen. by rewrite list_lookup_middle. }
    exists (PRef (length h)), b1, h1,
      {| value := value b'; key := key b'; containers := cs ++ [top] |},
      (drop (length h) H').
    split; [exact Hcall |]. split; [| split; [| split]].
    + simpl. rewrite Hb, py_last_snoc. simpl.
      rewrite (call_app _ _ _ _ _ _ [OList []] Hcall). simpl.
      rewrite ObjectBuilder_events_app, Hrun. simpl.
      rewrite Hc'. simpl. unfold py_append. rewrite Hc1, Hb, py_pop_snoc.
      simpl. do 3 f_equal.
      rewrite <- (take_drop (length h) H') at 1. f_equal.
      rewrite Htake, take_app_le by lia. by rewrite <- Hlen, firstn_all.
    + by simpl.
    + by simpl.
    + assert (HH' : h1 ++ drop (length h) H' = H').
      { rewrite <- (take_drop (length h) H') at 2. f_equal.
        rewrite Htake, take_app_le by lia. by rewrite <- Hlen, firstn_all. }
      rewrite HH'. simpl. apply repr_arr with vs; [done | done |].
      eapply Forall2_impl; [exact Hreprs |].
      intros v j Hr. eapply repr_weaken; [| exact Hr]. lia.
  - destruct (callable_call top b h (PRef (length h)) Hcallable)
      as (b1 & h1 & Hcall).
    destruct (call_same _ _ _ _ _ _ Hcall) as (Hc1 & _ & Hlen & _).
    destruct (build_members kvs IH (push_container b1 (setter (length h)))
                (h1 ++ [ODict []]) (cs ++ [top]) (length h) [] [])
      as (b' & H' & d & Hrun & Hc' & Hv' & Htake & Hl' & Hreprs & Hkept).
    { simpl. unfold py_append. by rewrite Hc1, Hb. }
    { rewrite <- Hlen. by rewrite list_lookup_middle. }
    { constructor. }
    exists (PRef (length h)), b1, h1,
      {| value := value b'; key := key b'; containers := cs ++ [top] |},
      (drop (length h) H').
    split; [exact Hcall |]. split; [| split; [| split]].
    + simpl. rewrite Hb, py_last_snoc. simpl.
      rewrite (call_app _ _ _ _ _ _ [ODict []] Hcall). simpl.
      rewrite ObjectBuilder_events_app, Hrun. simpl.
      rewrite Hc'. simpl. unfold py_append. rewrite Hc1, Hb, py_pop_snoc.
      simpl. do 3 f_equal.
      rewrite <- (take_drop (length h) H') at 1. f_equal.
      rewrite Htake, take_app_le by lia. by rewrite <- Hlen, firstn_all.
    + by simpl.
    + by simpl.
    + assert (HH' : h1 ++ drop (length h) H' = H').
      { rewrite <- (take_drop (length h) H') at 2. f_equal.
        rewrite Htake, take_app_le by lia. by rewrite <- Hlen, firstn_all. }
      rewrite HH'. simpl. apply repr_obj with d; [done | done |].
      eapply dict_repr_weaken; [| exact Hreprs]. lia.
Qed.

(** ** Dicts *)

Section DictFacts.
Context {V : Type}.
Implicit Types (d : list (string * V)) (k : string) (v : V).

Lemma dict_get_None d k : dict_get d k = None <-> k ∉ map fst d.
Proof.
  induction d as [|[k' v'] d IH]; simpl.
  - split; [intros _; apply not_elem_of_nil | done].
  - destruct (String.eqb_spec k' k) as [-> | Hne].
    + split; [done |]. intros Hk. exfalso. apply Hk. left.
    + rewrite IH, not_elem_of_cons. split; [by split | by intros [_ ?]].
Qed.

Lemma dict_set_fresh d k v :
  dict_get d k = None -> dict_set d k v = d ++ [(k, v)].
Proof.
  induction d as [|[k' v'] d IH]; simpl; [done |].
  destruct (String.eqb k' k); [done |]. intros Hd. by rewrite IH.
Qed.

Lemma dict_get_set d k v k' :
  dict_get (dict_set d k v) k'
  = if String.eqb k k' then Some v else dict_get d k'.
Proof.
  induction d as [|[k1 v1] d IH]; simpl.
  - done.
  - destruct (String.eqb_spec k1 k) as [-> | Hne]; simpl.
    + by destruct (String.eqb k k').
    + destruct (String.eqb_spec k1 k') as [-> | Hne'].
      * by rewrite (proj2 (String.eqb_neq k k')).
      * apply IH.
Qed.

Lemma dict_get_app d1 d2 k :
  dict_get (d1 ++ d2) k
  = match dict_get d1 k with Some v => Some v | None => dict_get d2 k end.
Proof.
  induction d1 as [|[k1 v1] d1 IH]; simpl; [done |].
  by destruct (String.eqb k1 k).
Qed.

Lemma dict_set_keys d k v :
  map fst (dict_set d k v)
  = match dict_get d k with
    | Some _ => map fst d
    | None => map fst d ++ [k]
    end.
Proof.
  induction d as [|[k1 v1] d IH]; simpl; [done |].
  destruct (String.eqb_spec k1 k) as [-> | Hne]; simpl; [done |].
  rewrite IH. by destruct (dict_get d k).
Qed.

Lemma dict_set_NoDup d k v :
  NoDup (map fst d) -> NoDup (map fst (dict_set d k v)).
Proof.
  intros Hd. rewrite dict_set_keys.
  destruct (dict_get d k) eqn:Hget; [done |].
  apply NoDup_app. split; [done |]. split; [| apply NoDup_singleton].
  intros x Hx ->%list_elem_of_singleton. by apply dict_get_None in Hget.
Qed.

(** Assigning pairs in order: keys stay unique, and a key ends with the
    value of its last occurrence. *)
Lemma dict_fold_NoDup (kvs : list (string * V)) d :
  NoDup (map fst d) ->
  NoDup (map fst (fold_left (fun d kv => dict_set d kv.1 kv.2) kvs d)).
Proof.
  revert d. induction kvs as [|[k v] kvs IH]; intros d Hd; simpl; [done |].
  apply IH. by apply dict_set_NoDup.
Qed.

Lemma dict_fold_get (kvs : list (string * V)) d k :
  dict_get (fold_left (fun d kv => dict_set d kv.1 kv.2) kvs d) k
  = match dict_get (rev kvs) k with
    | Some v => Some v
    | None => dict_get d k
    end.
Proof.
  revert d. induction kvs as [|[k1 v1] kvs IH]; intros d; simpl; [done |].
  rewrite IH, dict_get_app, dict_get_set. simpl.
  destruct (dict_get (rev kvs) k); [done |].
  rewrite String.eqb_sym. by destruct (String.eqb k k1).
Qed.

(** Without repeated keys, assigning the pairs in order lists them. *)
Lemma dict_fold_unique (kvs : list (string * V)) d :
  NoDup (map fst (d ++ kvs)) ->
  fold_left (fun d kv => dict_set d kv.1 kv.2) kvs d = d ++ kvs.
Proof.
  revert d. induction kvs as [|[k v] kvs IH]; intros d Hd; simpl.
  - by rewrite app_nil_r.
  - assert (Hfresh : dict_get d k = None).
    { apply dict_get_None. rewrite map_app in Hd.
      apply NoDup_app in Hd as (_ & Hd & _). intros Hk.
      apply (Hd k Hk). simpl. left. }
    rewrite dict_set_fresh by done. rewrite IH.
    + by rewrite <- app_assoc.
    + by rewrite <- app_assoc.
Qed.
End DictFacts.

Lemma dict_get_map_values {V W} (f : V -> W) (d : list (string * V)) k :
  dict_get (map (fun kv => (kv.1, f kv.2)) d) k = f <$> dict_get d k.
Proof.
  induction d as [|[k1 v1] d IH]; simpl; [done |].
  by destruct (String.eqb k1 k).
Qed.

Lemma dict_repr_keys lo h d dj : dict_repr lo h d dj -> map fst d = map fst dj.
Proof.
  induction 1 as [|kv kj d dj [Hk _] _ IH]; simpl; congruence.
Qed.

Lemma dict_repr_get lo h d dj k :
  dict_repr lo h d dj ->
  match dict_get dj k with
  | Some j => exists v, dict_get d k = Some v /\ repr lo h v j
  | None => dict_get d k = None
  end.
Proof.
  induction 1 as [|[k1 v1] [k2 j2] d dj [Hk Hv] _ IH]; simpl in *; [done |].
  subst k2. destruct (String.eqb k1 k); eauto.
Qed.

Lemma unique_keys_last_wins j : unique_keys j = true -> last_wins j = j.
Proof.
  induction j as [| | | | xs IH | kvs IH] using json_ind; simpl; try done.
  - intros Hu. f_equal.
    induction IH as [|x xs Hx _ IHxs]; simpl in *; [done |].
    apply andb_prop in Hu as [Hu1 Hu2]. by rewrite Hx, IHxs.
  - intros [Hnd Hu]%andb_prop. apply bool_decide_eq_true in Hnd.
    assert (Hmap : map (fun kv => (kv.1, last_wins kv.2)) kvs = kvs).
    { clear Hnd. induction IH as [|[k x] kvs Hx _ IHkvs]; simpl in *; [done |].
      apply andb_prop in Hu as [Hu1 Hu2]. by rewrite Hx, IHkvs. }
    rewrite Hmap. unfold dict_of. by rewrite dict_fold_unique.
Qed.

(** C1. For every document without repeated keys, feeding the events that
    encode it, in order, to a fresh builder (in any store) raises nothing and
    leaves the builder with its stack of closures as at the start and with a
    [value] attribute that reads back as the document itself: scalars equal,
    array elements in order, object keys in their order of occurrence. *)
Theorem ObjectBuilder_rebuilds_the_document :
  forall (j : json) (h0 : heap),
    unique_keys j = true ->
    exists b h v,
      ObjectBuilder_events ObjectBuilder_init h0 (events_of j) = Ok (b, h)
      /\ containers b = [initial_set]
      /\ value b = Some v
      /\ reify (depth j) h v = Some j.
Proof.
  intros j h0 Hu.
  destruct (builds_all j ObjectBuilder_init h0 [] initial_set eq_refl I)
    as (v & b1 & h1 & b2 & news & Hcall & Hrun & Hc & Hv & Hrepr).
  simpl in Hcall. injection Hcall as <- <-.
  exists b2, (h0 ++ news), v. repeat split; [done | done | done |].
  rewrite (unique_keys_last_wins j Hu) in Hrepr.
  by eapply repr_reify.
Qed.

Lemma ObjectBuilder_rebuilds_the_document_witness :
  exists b h v,
    ObjectBuilder_events ObjectBuilder_init []
      (events_of (JObj [("a", JArr [JNum 1; JNum 2]); ("b", JNull)]))
    = Ok (b, h)
    /\ containers b = [initial_set]
    /\ value b = Some v
    /\ reify 2 h v = Some (JObj [("a", JArr [JNum 1; JNum 2]); ("b", JNull)]).
Proof.
  apply (ObjectBuilder_rebuilds_the_document
           (JObj [("a", JArr [JNum 1; JNum 2]); ("b", JNull)]) []).
  reflexivity.
Defined.

(** C9. For every object, whatever keys its members repeat, the builder
    ends with a dict whose keys are unique and in which each key has the
    value of its last occurrence (itself built the same way). *)
Theorem ObjectBuilder_last_write_wins :
  forall (kvs : list (string * json)) (h0 : heap),
    exists b h l d,
      ObjectBuilder_events ObjectBuilder_init h0 (events_of (JObj kvs))
      = Ok (b, h)
      /\ value b = Some (PRef l)
      /\ h !! l = Some (ODict d)
      /\ NoDup (map fst d)
      /\ forall k,
           match last_occurrence kvs k with
           | Some j =>
               exists v, dict_get d k = Some v
                 /\ reify (depth (last_wins j)) h v = Some (last_wins j)
           | None => dict_get d k = None
           end.
Proof.
  intros kvs h0.
  destruct (builds_all (JObj kvs) ObjectBuilder_init h0 [] initial_set
              eq_refl I)
    as (v & b1 & h1 & b2 & news & Hcall & Hrun & Hc & Hv & Hrepr).
  simpl in Hcall. injection Hcall as <- <-.
  simpl in Hrepr.
  apply repr_obj_inv in Hrepr as (l & d & -> & Hl & Hh & Hd).
  exists b2, (h0 ++ news), l, d. repeat split; [done | done | done | |].
  - rewrite (dict_repr_keys _ _ _ _ Hd). apply dict_fold_NoDup. constructor.
  - intros k. pose proof (dict_repr_get _ _ _ _ k Hd) as Hget.
    unfold dict_of in Hget. rewrite dict_fold_get in Hget. simpl in Hget.
    rewrite <- map_rev, dict_get_map_values in Hget.
    unfold last_occurrence. destruct (dict_get (rev kvs) k) as [j|]; simpl in *.
    + destruct Hget as (v & Hv1 & Hv2). exists v. split; [done |].
      by eapply repr_reify.
    + done.
Qed.

(** ** The annotator on documents *)

Lemma join_path_Some (p : list string) : join_path (map Some p) = Ok (join p).
Proof. unfold join_path. by rewrite segments_Some. Qed.

Lemma parse_from_members kvs :
  Forall (fun kv => forall p,
            parse_from (map Some p) (events_of kv.2)
            = (annotate p kv.2, map Some p, None)) kvs ->
  forall (p : list string) (seg : segment),
    exists seg',
      parse_from (map Some p ++ [seg])
        (concat (map (fun kv => map_key kv.1 :: events_of kv.2) kvs))
      = (concat (map (fun kv => (join p, map_key kv.1)
                                  :: annotate (p ++ [kv.1]) kv.2) kvs),
         map Some p ++ [seg'], None).
Proof.
  induction 1 as [|[k j] kvs Hj _ IH]; intros p seg; simpl.
  - by exists seg.
  - simpl in Hj. unfold py_init. rewrite removelast_last, join_path_Some,
      py_set_last_snoc. simpl.
    change (map Some p ++ [Some k]) with (map Some p ++ map Some [k]).
    rewrite <- (map_app Some p [k]), parse_from_app, (Hj (p ++ [k])).
    rewrite map_app. simpl.
    destruct (IH p (Some k)) as [seg' ->]. by exists seg'.
Qed.

Lemma parse_from_elements xs :
  Forall (fun j => forall p,
            parse_from (map Some p) (events_of j)
            = (annotate p j, map Some p, None)) xs ->
  forall p : list string,
    parse_from (map Some p) (concat (map events_of xs))
    = (concat (map (annotate p) xs), map Some p, None).
Proof.
  induction 1 as [|j xs Hj _ IH]; intros p; simpl; [done |].
  by rewrite parse_from_app, Hj, IH.
Qed.

(** The annotator on the events of a document at the path [p]. *)
Lemma parse_from_document j :
  forall p : list string,
    parse_from (map Some p) (events_of j) = (annotate p j, map Some p, None).
Proof.
  induction j as [| b | n | s | xs IH | kvs IH] using json_ind; intros p.
  1-4: simpl; by rewrite join_path_Some.
  - simpl. rewrite join_path_Some. simpl. unfold py_append.
    change (map Some p ++ [Some "item"]) with (map Some p ++ map Some ["item"]).
    rewrite <- (map_app Some p ["item"]), parse_from_app,
      (parse_from_elements xs IH).
    simpl. rewrite map_app. simpl. rewrite py_pop_snoc. simpl.
    by rewrite join_path_Some.
  - simpl. rewrite join_path_Some. simpl. unfold py_append.
    rewrite parse_from_app.
    destruct (parse_from_members kvs IH p None) as [seg' ->].
    simpl. rewrite py_pop_snoc. simpl. by rewrite join_path_Some.
Qed.

Lemma parse_document j : parse (events_of j) = (annotate [] j, None).
Proof.
  unfold parse. change (@nil segment) with (map Some (@nil string)).
  by rewrite (parse_from_document j []).
Qed.

Lemma annotate_events p j : map snd (annotate p j) = events_of j.
Proof.
  revert p.
  induction j as [| b | n | s | xs IH | kvs IH] using json_ind; intros p;
    try reflexivity.
  - simpl. f_equal. rewrite map_app. simpl. f_equal.
    rewrite concat_map, map_map.
    f_equal. induction IH as [|x xs Hx _ IHxs]; simpl; [done |].
    by rewrite Hx, IHxs.
  - simpl. f_equal. rewrite map_app. simpl. f_equal.
    rewrite concat_map, map_map.
    f_equal. induction IH as [|[k x] kvs Hx _ IHkvs]; simpl in *; [done |].
    by rewrite Hx, IHkvs.
Qed.

(** ** Dotted paths *)


Lemma string_app_cons x (a b : string) :
  String x a +:+ b = String x (a +:+ b).
Proof. reflexivity. Qed.

Lemma string_app_assoc (a b c : string) : (a +:+ b) +:+ c = a +:+ b +:+ c.
Proof.
  induction a as [|x a IH]; [done |]. by rewrite !string_app_cons, IH.
Qed.

Lemma string_length_app (a b : string) :
  String.length (a +:+ b) = String.length a + String.length b.
Proof.
  induction a as [|c a IH]; [done |].
  rewrite string_app_cons. simpl. by rewrite IH.
Qed.

Lemma join_cons s q : q <> [] -> join (s :: q) = s +:+ "." +:+ join q.
Proof. by destruct q. Qed.

Lemma join_app p q :
  p <> [] -> q <> [] -> join (p ++ q) = join p +:+ "." +:+ join q.
Proof.
  intros Hp Hq. induction p as [|s p IH]; [done |].
  destruct p as [|s' p].
  - simpl. by destruct q.
  - change ((s :: s' :: p) ++ q) with (s :: ((s' :: p) ++ q)).
    rewrite (join_cons s ((s' :: p) ++ q)) by done. rewrite IH by done.
    rewrite (join_cons s (s' :: p)) by done.
    by rewrite !string_app_assoc.
Qed.

(** The dotted path of a place strictly inside another differs from the
    path of that other place, except inside the root under an empty key. *)
Lemma join_below_ne p q :
  q <> [] -> (p <> [] \/ hd "" q <> "" \/ 2 <= length q) ->
  join (p ++ q) <> join p.
Proof.
  intros Hq Hcases. destruct p as [|s p].
  - simpl. destruct q as [|s1 [|s2 q]]; [done | |].
    + destruct Hcases as [? | [Hs | Hlen]]; [done | done | simpl in Hlen; lia].
    + rewrite join_cons by done. intros Heq.
      apply (f_equal String.length) in Heq.
      rewrite !string_length_app in Heq. simpl in Heq. lia.
  - rewrite join_app by done. intros Heq.
    apply (f_equal String.length) in Heq.
    rewrite !string_length_app in Heq. simpl in Heq. lia.
Qed.

Lemma strictly_below_app p s c :
  c = join (p ++ [s]) \/ strictly_below (p ++ [s]) c -> strictly_below p c.
Proof.
  intros [-> | (q & Hq & ->)].
  - by exists [s].
  - exists (s :: q). split; [done |]. by rewrite <- app_assoc.
Qed.

(** The events of a document at [p] carry the dotted path of [p], or that
    of a place strictly inside; an [end_map] with the path of [p] is that of
    the document itself, an object. *)
Lemma annotate_prefixes p j :
  Forall (fun pe => (pe.1 = join p /\ (pe.2 = end_map -> is_object j = true))
                    \/ strictly_below p pe.1) (annotate p j).
Proof.
  revert p.
  induction j as [| b | n | s | xs IH | kvs IH] using json_ind; intros p.
  1-4: constructor; [by left | constructor].
  - simpl. constructor; [by left |].
    apply Forall_app. split; [| constructor; [by left | constructor]].
    apply Forall_concat, Forall_map.
    eapply Forall_impl; [exact IH |]. intros x Hx. simpl.
    eapply Forall_impl; [apply (Hx (p ++ ["item"])) |].
    intros pe Hpe. right. apply (strictly_below_app p "item").
    destruct Hpe as [[? _] | ?]; auto.
  - simpl. constructor; [by left |].
    apply Forall_app. split; [| constructor; [by left | constructor]].
    apply Forall_concat, Forall_map.
    eapply Forall_impl; [exact IH |]. intros [k x] Hx. simpl in *.
    constructor; [by left |].
    eapply Forall_impl; [apply (Hx (p ++ [k])) |].
    intros pe Hpe. right. apply (strictly_below_app p k).
    destruct Hpe as [[? _] | ?]; auto.
Qed.

Lemma strictly_below_ne p c : p <> [] -> strictly_below p c -> c <> join p.
Proof. intros Hp (q & Hq & ->). apply join_below_ne; auto. Qed.

(** Inside an array at [p], no event is the [end_array] of that array. *)
Lemma elements_before_end p xs :
  Forall (fun pe => pe <> (join p, end_array))
    (concat (map (annotate (p ++ ["item"])) xs)).
Proof.
  apply Forall_concat, Forall_map, Forall_forall. intros x _. simpl.
  eapply Forall_impl; [apply annotate_prefixes |].
  intros [c ev] Hpe [= -> ->]. simpl in Hpe.
  destruct Hpe as [[Hc _] | (q & Hq & Hc)].
  - symmetry in Hc. revert Hc. apply join_below_ne; [done |].
    right. left. done.
  - rewrite <- app_assoc in Hc. symmetry in Hc. revert Hc.
    apply join_below_ne; [done |]. right. left. done.
Qed.

(** Inside an object at [p], no event is the [end_map] of that object,
    unless the object is the root and has an object under the empty key. *)
Lemma members_before_end p kvs :
  (p = [] -> empty_key_object (JObj kvs) = false) ->
  Forall (fun pe => pe <> (join p, end_map))
    (concat (map (fun kv => (join p, map_key kv.1)
                              :: annotate (p ++ [kv.1]) kv.2) kvs)).
Proof.
  intros Hroot.
  apply Forall_concat, Forall_map, Forall_forall. intros [k x] Hin. simpl.
  constructor; [done |].
  eapply Forall_impl; [apply annotate_prefixes |].
  intros [c ev] Hpe [= -> ->]. simpl in Hpe.
  destruct Hpe as [[Hc Hobj] | (q & Hq & Hc)].
  - destruct p as [|s p].
    + simpl in Hc. subst k. specialize (Hroot eq_refl). simpl in Hroot.
      apply not_true_iff_false in Hroot. apply Hroot.
      apply existsb_exists. exists ("", x). split.
      * by apply list_elem_of_In.
      * simpl. by apply Hobj.
    + symmetry in Hc. revert Hc. apply join_below_ne; [done |]. by left.
  - destruct p as [|s p].
    + simpl in Hc. destruct q as [|s' q]; [done |].
      simpl in Hc. destruct k; [| done]. by destruct s'.
    + rewrite <- app_assoc in Hc. symmetry in Hc. revert Hc.
      apply join_below_ne; [done |]. by left.
Qed.

(** ** Prefix extraction *)

Lemma yield_first_app {S} vs1 vs2 (r : list pyval * S * option exn) :
  yield_first vs1 (yield_first vs2 r) = yield_first (vs1 ++ vs2) r.
Proof. unfold yield_first. simpl. by rewrite app_assoc. Qed.

Lemma yield_first_nil {S} (r : list pyval * S * option exn) :
  yield_first [] r = r.
Proof. by destruct r as [[ys h] e]. Qed.

Section ItemsFacts.
Variable target : string.
Variable ended : option exn.

(** The inner loop over events that are not the awaited end event is the
    builder fed with these events. *)
Lemma items_build_events pes :
  forall b h end_ev rest b' h',
    Forall (fun pe => pe <> (target, end_ev)) pes ->
    ObjectBuilder_events b h (map snd pes) = Ok (b', h') ->
    items_build target ended b end_ev h (pes ++ rest)
    = items_build target ended b' end_ev h' rest.
Proof.
  induction pes as [|[c ev] pes IH]; intros b h end_ev rest b' h' Hne Hrun.
  - simpl in Hrun. by injection Hrun as <- <-.
  - inversion Hne as [|? ? Hpe Hpes]; subst. simpl in Hrun.
    destruct (ObjectBuilder_event b h ev) as [[b1 h1]|e] eqn:Hev; [| done].
    simpl in Hrun. simpl. rewrite bool_decide_eq_false_2 by done.
    rewrite Hev. by apply IH.
Qed.

(** A container whose start event has the target prefix: the outer loop
    builds it with a fresh builder, up to its end event, and yields it. *)
Lemma items_container sev inner h rest b2 H v :
  is_start sev = true ->
  Forall (fun pe => pe <> (target, end_event sev)) inner ->
  ObjectBuilder_events ObjectBuilder_init h
    (sev :: map snd inner ++ [end_event sev]) = Ok (b2, H) ->
  value b2 = Some v ->
  items_from target ended h
    ((target, sev) :: inner ++ (target, end_event sev) :: rest)
  = yield_first [v] (items_from target ended H rest).
Proof.
  intros Hstart Hinner Hrun Hv. simpl in Hrun.
  destruct (ObjectBuilder_event ObjectBuilder_init h sev)
    as [[bs hs]|e] eqn:Hsev; [| done].
  simpl in Hrun. rewrite ObjectBuilder_events_app in Hrun.
  destruct (ObjectBuilder_events bs hs (map snd inner))
    as [[b' h']|e] eqn:Hin; [| done].
  simpl in Hrun.
  assert (value b' = Some v /\ h' = H) as [Hv' ->].
  { destruct sev; try discriminate Hstart; simpl in Hrun;
      destruct (py_pop (containers b')) as [[cs c]|e]; simpl in Hrun;
      try done; injection Hrun as <- <-; done. }
  simpl. rewrite String.eqb_refl, Hstart, Hsev.
  rewrite (items_build_events inner bs hs (end_event sev) _ b' H Hinner Hin).
  simpl. rewrite bool_decide_eq_true_2 by done. rewrite Hv'.
  by destruct (items_from target ended H rest) as [[ys h''] r].
Qed.

Lemma occurrences_eq p j :
  occurrences target p j =
  if String.eqb (join p) target then [j]
  else
    match j with
    | JArr xs => concat (map (occurrences target (p ++ ["item"])) xs)
    | JObj kvs =>
        concat (map (fun kv => occurrences target (p ++ [kv.1]) kv.2) kvs)
    | _ => []
    end.
Proof. by destruct j. Qed.

(** Values built one after the other. *)
Lemma repr_sequence h news1 news2 vs1 vs2 js1 js2 :
  Forall2 (repr (length h) (h ++ news1)) vs1 js1 ->
  Forall2 (repr (length (h ++ news1)) ((h ++ news1) ++ news2)) vs2 js2 ->
  Forall2 (repr (length h) (h ++ news1 ++ news2)) (vs1 ++ vs2) (js1 ++ js2).
Proof.
  intros H1 H2. rewrite app_assoc. apply Forall2_app.
  - eapply Forall2_impl; [exact H1 |]. intros v j Hr.
    eapply repr_kept; [apply kept_above_app | exact Hr].
  - eapply Forall2_impl; [exact H2 |]. intros v j Hr.
    eapply repr_weaken; [| exact Hr]. rewrite length_app. lia.
Qed.

(** The elements of an array that is not at the target. *)
Lemma extracts_elements xs :
  Forall (extracts target ended) xs ->
  forall (p : list string) (h : heap) (rest : list prefixed),
    p <> [] ->
    exists vs news,
      items_from target ended h (concat (map (annotate p) xs) ++ rest)
      = yield_first vs (items_from target ended (h ++ news) rest)
      /\ Forall2 (repr (length h) (h ++ news)) vs
           (map last_wins (concat (map (occurrences target p) xs))).
Proof.
  induction 1 as [|x xs Hx _ IH]; intros p h rest Hp.
  - exists [], []. simpl. rewrite app_nil_r, yield_first_nil.
    split; [done | constructor].
  - destruct (Hx p h (concat (map (annotate p) xs) ++ rest))
      as (vs1 & news1 & Hrun1 & Hrepr1); [done |].
    destruct (IH p (h ++ news1) rest Hp) as (vs2 & news2 & Hrun2 & Hrepr2).
    exists (vs1 ++ vs2), (news1 ++ news2). split.
    + simpl. rewrite <- app_assoc, Hrun1, Hrun2, yield_first_app.
      by rewrite app_assoc.
    + simpl. rewrite map_app. by apply repr_sequence.
Qed.

(** The members of an object that is not at the target. *)
Lemma extracts_members kvs :
  Forall (fun kv => extracts target ended kv.2) kvs ->
  forall (p : list string) (h : heap) (rest : list prefixed),
    String.eqb (join p) target = false ->
    exists vs news,
      items_from target ended h
        (concat (map (fun kv => (join p, map_key kv.1)
                                  :: annotate (p ++ [kv.1]) kv.2) kvs)
         ++ rest)
      = yield_first vs (items_from target ended (h ++ news) rest)
      /\ Forall2 (repr (length h) (h ++ news)) vs
           (map last_wins
              (concat (map (fun kv => occurrences target (p ++ [kv.1]) kv.2)
                         kvs))).
Proof.
  induction 1 as [|[k x] kvs Hx _ IH]; intros p h rest Hp.
  - exists [], []. simpl. rewrite app_nil_r, yield_first_nil.
    split; [done | constructor].
  - simpl in Hx.
    destruct (Hx (p ++ [k]) h
                (concat (map (fun kv => (join p, map_key kv.1)
                                          :: annotate (p ++ [kv.1]) kv.2) kvs)
                 ++ rest))
      as (vs1 & news1 & Hrun1 & Hrepr1); [by destruct p |].
    destruct (IH p (h ++ news1) rest Hp) as (vs2 & news2 & Hrun2 & Hrepr2).
    exists (vs1 ++ vs2), (news1 ++ news2). split.
    + simpl. rewrite Hp. rewrite <- app_assoc, Hrun1, Hrun2, yield_first_app.
      by rewrite app_assoc.
    + simpl. rewrite map_app. by apply repr_sequence.
Qed.
End ItemsFacts.

Lemma extracts_all target ended j : extracts target ended j.
Proof.
  induction j as [| b | n | s | xs IH | kvs IH] using json_ind;
    intros p h rest Hroot; rewrite occurrences_eq;
    destruct (String.eqb_spec (join p) target) as [Heq | Hne].
  1, 3, 5, 7:
    eexists [_], []; simpl; rewrite Heq, String.eqb_refl, app_nil_r;
    (split; [| by repeat constructor]);
    by destruct (items_from target ended h rest) as [[ys h'] r].
  1, 2, 3, 4:
    exists [], []; simpl; rewrite (proj2 (String.eqb_neq _ _) Hne), app_nil_r;
    (split; [| constructor]); by rewrite yield_first_nil.
  - destruct (builds_all (JArr xs) ObjectBuilder_init h [] initial_set
                eq_refl I)
      as (v & b1 & h1 & b2 & news & Hcall & Hrun & Hc & Hv & Hrepr).
    simpl in Hcall. injection Hcall as <- <-. simpl in Hv. subst target.
    set (inner := concat (map (annotate (p ++ ["item"])) xs)).
    assert (Hev : events_of (JArr xs)
                  = start_array :: map snd inner ++ [end_event start_array]).
    { rewrite <- (annotate_events p (JArr xs)). simpl. by rewrite map_app. }
    rewrite Hev in Hrun.
    exists [v], news. split; [| by repeat constructor].
    simpl. fold inner. rewrite <- app_assoc. simpl.
    apply (items_container (join p) ended start_array inner h rest b2);
      [done | | done | done].
    apply elements_before_end.
  - simpl. rewrite (proj2 (String.eqb_neq _ _) Hne), <- app_assoc.
    destruct (extracts_elements target ended xs IH (p ++ ["item"]) h
                ([(join p, end_array)] ++ rest))
      as (vs & news & Hrun & Hrepr); [by destruct p |].
    exists vs, news. split; [| done].
    rewrite Hrun. simpl. by rewrite (proj2 (String.eqb_neq _ _) Hne).
  - destruct (builds_all (JObj kvs) ObjectBuilder_init h [] initial_set
                eq_refl I)
      as (v & b1 & h1 & b2 & news & Hcall & Hrun & Hc & Hv & Hrepr).
    simpl in Hcall. injection Hcall as <- <-. simpl in Hv. subst target.
    set (inner := concat (map (fun kv => (join p, map_key kv.1)
                                 :: annotate (p ++ [kv.1]) kv.2) kvs)).
    assert (Hev : events_of (JObj kvs)
                  = start_map :: map snd inner ++ [end_event start_map]).
    { rewrite <- (annotate_events p (JObj kvs)). simpl. by rewrite map_app. }
    rewrite Hev in Hrun.
    exists [v], news. split; [| by repeat constructor].
    simpl. fold inner. rewrite <- app_assoc. simpl.
    apply (items_container (join p) ended start_map inner h rest b2);
      [done | | done | done].
    apply members_before_end. intros ->. by apply Hroot.
  - simpl. rewrite (proj2 (String.eqb_neq _ _) Hne), <- app_assoc.
    destruct (extracts_members target ended kvs IH p h
                ([(join p, end_map)] ++ rest))
      as (vs & news & Hrun & Hrepr); [by apply String.eqb_neq |].
    exists vs, news. split; [| done].
    rewrite Hrun. simpl. by rewrite (proj2 (String.eqb_neq _ _) Hne).
Qed.

Lemma unique_keys_occurrences target j :
  forall p, unique_keys j = true ->
            Forall (fun o => unique_keys o = true) (occurrences target p j).
Proof.
  induction j as [| b | n | s | xs IH | kvs IH] using json_ind;
    intros p Hu; rewrite occurrences_eq;
    destruct (String.eqb (join p) target); try by repeat constructor.
  - apply Forall_concat, Forall_map. simpl in Hu.
    induction IH as [|x xs Hx _ IHxs]; constructor; simpl in Hu;
      apply andb_prop in Hu as [Hu1 Hu2]; auto.
  - apply Forall_concat, Forall_map. simpl in Hu.
    apply andb_prop in Hu as [_ Hu].
    induction IH as [|[k x] kvs Hx _ IHkvs]; constructor; simpl in *;
      apply andb_prop in Hu as [Hu1 Hu2]; auto.
Qed.

(** C2, as the code has it.  On StartMap, MapKey "a", StartArray, Number 1,
    Number 2, EndArray, EndMap with the target [a.item], [items] yields 1
    then 2 and nothing else.  For every document and every target, except
    the empty target on a root object that has an object under the empty
    key, [items] over the annotated events of the document raises nothing
    and yields exactly one value for each occurrence of the target in the
    document, in document order: the occurrence as the tree builder builds
    it (the last occurrence of a repeated key winning), hence the occurrence
    itself when no key is repeated. *)
Theorem items_yields_the_occurrences :
  items (parse example_events) "a.item" = ([PNum 1; PNum 2], [], None)
  /\ forall (j : json) (target : string),
       String.eqb target "" && empty_key_object j = false ->
       exists vs h,
         items (parse (events_of j)) target = (vs, h, None)
         /\ Forall2 (fun v o => reify (depth (last_wins o)) h v
                                = Some (last_wins o))
              vs (occurrences target [] j)
         /\ (unique_keys j = true ->
             Forall2 (fun v o => reify (depth o) h v = Some o)
               vs (occurrences target [] j)).
Proof.
  split; [reflexivity |]. intros j target Hroot.
  destruct (extracts_all target None j [] [] []) as (vs & news & Hrun & Hrepr).
  { intros _ ->. by rewrite String.eqb_refl in Hroot. }
  rewrite app_nil_r in Hrun. simpl in Hrun, Hrepr.
  exists vs, news. unfold items. rewrite parse_document. simpl.
  split; [| split].
  - rewrite Hrun. unfold yield_first. simpl. by rewrite app_nil_r.
  - rewrite Forall2_fmap_r in Hrepr.
    eapply Forall2_impl; [exact Hrepr |]. intros v o Hr. simpl in Hr.
    by eapply repr_reify.
  - intros Hu. rewrite Forall2_fmap_r in Hrepr.
    eapply Forall2_change;
      [apply (unique_keys_occurrences target j [] Hu) | exact Hrepr |].
    intros v o Ho Hr. simpl in Hr. rewrite (unique_keys_last_wins o Ho) in Hr.
    by eapply repr_reify.
Qed.

Lemma items_yields_the_occurrences_witness :
  exists vs h,
    items (parse (events_of columns_document)) "data.item" = (vs, h, None)
    /\ Forall2 (fun v o => reify (depth (last_wins o)) h v
                           = Some (last_wins o))
         vs (occurrences "data.item" [] columns_document)
    /\ (unique_keys columns_document = true ->
        Forall2 (fun v o => reify (depth o) h v = Some o)
          vs (occurrences "data.item" [] columns_document)).
Proof.
  apply (proj2 items_yields_the_occurrences columns_document "data.item").
  reflexivity.
Defined.

(** C2, as stated, fails on [{"": {"x": 1}}] with the empty target: the
    only occurrence of the target is the document itself, and [items]
    yields twice, the document and then [None].  The inner loop stops at
    the [end_map] of the inner object, whose dotted path is also empty, and
    the outer loop then yields the value of the last [end_map]. *)
Lemma items_yields_none_after_inner_end_map :
  occurrences "" [] empty_key_document = [empty_key_document]
  /\ items (parse (events_of empty_key_document)) ""
     = ([PRef 0; PNone],
        [ODict [("", PRef 1)]; ODict [("x", PNum 1)]], None).
Proof. split; reflexivity. Qed.

(** ** Assignments into the containers of an [ijsondict] *)

Lemma assign_list h d k v xs :
  h !! d = Some (OList xs) -> assign h d k v = Ok (<[d := OList (xs ++ [v])]> h).
Proof. intros Hd. unfold assign, store_append. by rewrite Hd. Qed.

Lemma assign_dict h d k v dd :
  h !! d = Some (ODict dd) ->
  assign h d k v = Ok (<[d := ODict (dict_set dd k v)]> h).
Proof. intros Hd. unfold assign, store_setitem. by rewrite Hd. Qed.

Lemma assignable_assign h d k v :
  assignable h d -> exists h1, assign h d k v = Ok h1.
Proof.
  intros (o & Hd & Ho). destruct o as [dd | xs |]; [| | done].
  - rewrite (assign_dict _ _ _ _ _ Hd). eauto.
  - rewrite (assign_list _ _ _ _ _ Hd). eauto.
Qed.

(** An assignment changes the cell of its container, to a dict or a list,
    and nothing else. *)
Lemma assign_Ok h d k v h1 :
  assign h d k v = Ok h1 ->
  exists o o', h !! d = Some o /\ o <> OGen /\ o' <> OGen
               /\ h1 = <[d := o']> h.
Proof.
  unfold assign, store_setitem, store_append.
  destruct (h !! d) as [[dd | xs |]|] eqn:Hd; simpl; intros [= <-].
  - by exists (ODict dd), (ODict (dict_set dd k v)).
  - by exists (OList xs), (OList (xs ++ [v])).
Qed.

Lemma assign_length h d k v h1 :
  assign h d k v = Ok h1 -> length h1 = length h.
Proof.
  intros (o & o' & _ & _ & _ & ->)%assign_Ok. by rewrite length_insert.
Qed.

Lemma assign_app h d k v h1 ext :
  assign h d k v = Ok h1 -> assign (h ++ ext) d k v = Ok (h1 ++ ext).
Proof.
  unfold assign, store_setitem, store_append.
  destruct (h !! d) as [o|] eqn:Hd; [| done].
  rewrite (lookup_app_l_Some _ _ _ _ Hd).
  destruct o; simpl; intros [= <-];
    (rewrite insert_app_l; [done | by eapply lookup_lt_Some]).
Qed.

Lemma link_snoc h (ks : list string) k (ds : list loc) d this :
  link h (ks ++ [k]) (ds ++ [d]) this = assign h d k (PRef this).
Proof.
  unfold link. destruct (ks ++ [k]) eqn:Hks; [by destruct ks |].
  rewrite <- Hks, !py_last_snoc. done.
Qed.

(** ** The loop of the generator, event by event *)

Section GeneratorSteps.
Variable self_prefix : list string.
Implicit Types (st : stacks) (ks : list string) (ds : list loc).

Lemma json_generator_from_cons yf st token rest :
  json_generator_from self_prefix yf st (token :: rest) =
  match json_generator_step self_prefix yf st token with
  | (st', yf', Next) => json_generator_from self_prefix yf' st' rest
  | (st', yf', Yield v) =>
      yield_first [v] (json_generator_from self_prefix yf' st' rest)
  | (st', _, Fault e) => ([], st', Some e)
  | (st', _, Break) => ([], st', None)
  end.
Proof.
  simpl. destruct (json_generator_step self_prefix yf st token)
    as [[st' yf'] [| | v | e]]; try done.
  by destruct (json_generator_from self_prefix yf' st' rest) as [[ys f] r].
Qed.

Lemma generator_scalar yf st ev ks k ds d h1 :
  is_scalar ev = true ->
  keys_stack st = ks ++ [k] ->
  data_stack st = ds ++ [d] ->
  assign (store st) d k (event_value ev) = Ok h1 ->
  json_generator_step self_prefix yf st ev
  = (mkStacks (keys_stack st) (data_stack st) h1,
     negb (bool_decide (keys_stack st = self_prefix)),
     if bool_decide (keys_stack st = self_prefix)
     then Yield (event_value ev) else Next).
Proof.
  intros Hev Hk Hd Hassign.
  unfold json_generator_step, json_generator_branch, assign_top.
  destruct ev; try discriminate Hev; simpl;
    rewrite Hk, Hd, !py_last_snoc, <- Hk, <- Hd; simpl in Hassign;
    rewrite Hassign; simpl; by case_bool_decide.
Qed.

Lemma generator_start yf st ev ob ks k ds d h2 :
  classmap ev = Ok ob ->
  keys_stack st = ks ++ [k] ->
  data_stack st = ds ++ [d] ->
  keys_stack st ++ ["item"] <> self_prefix ->
  assign (store st ++ [ob]) d k (PRef (length (store st))) = Ok h2 ->
  json_generator_step self_prefix yf st ev
  = (mkStacks (keys_stack st ++ ["item"])
       (data_stack st ++ [length (store st)]) h2, yf, Next).
Proof.
  intros Hev Hk Hd Hne Hassign.
  unfold json_generator_step, json_generator_branch, link_push.
  assert (is_start ev = true) as -> by (by destruct ev).
  rewrite Hev. simpl. rewrite Hk, Hd, link_snoc, Hassign. simpl.
  unfold py_append. rewrite <- Hk.
  by rewrite bool_decide_eq_false_2, andb_false_r.
Qed.

Lemma generator_end yf st ev ks k ds d :
  is_end ev = true ->
  keys_stack st = ks ++ [k] ->
  data_stack st = ds ++ [d] ->
  json_generator_step self_prefix yf st ev
  = (mkStacks ks ds (store st),
     negb (bool_decide (ks = self_prefix)),
     if bool_decide (ks = self_prefix) then Yield (PRef d) else Next).
Proof.
  intros Hev Hk Hd.
  unfold json_generator_step, json_generator_branch, pop_both.
  assert (is_start ev = false) as -> by (by destruct ev).
  rewrite Hev, Hk, Hd, !py_pop_snoc. simpl. by case_bool_decide.
Qed.

Lemma generator_map_key yf st k' ks k :
  keys_stack st = ks ++ [k] ->
  ks ++ [k'] <> self_prefix ->
  json_generator_step self_prefix yf st (map_key k')
  = (mkStacks (ks ++ [k']) (data_stack st) (store st), yf, Next).
Proof.
  intros Hk Hne.
  unfold json_generator_step, json_generator_branch, set_key. simpl.
  rewrite Hk, py_set_last_snoc. simpl.
  by rewrite bool_decide_eq_false_2, andb_false_r.
Qed.
End GeneratorSteps.

(** ** The loop of [_start_parse], event by event *)

Section StartParseSteps.
Variable self : loc.
Variable self_prefix : list string.
Implicit Types (st : stacks) (ks : list string) (ds : list loc).

Lemma start_parse_from_cons first st token rest :
  start_parse_from self self_prefix first st (token :: rest) =
  match start_parse_step self self_prefix first st token with
  | (st', first', Next) => start_parse_from self self_prefix first' st' rest
  | (st', _, o) => (st', rest, o)
  end.
Proof. reflexivity. Qed.

Lemma start_parse_scalar st ev ks k ds d h1 :
  is_scalar ev = true ->
  keys_stack st = ks ++ [k] ->
  data_stack st = ds ++ [d] ->
  assign (store st) d k (event_value ev) = Ok h1 ->
  start_parse_step self self_prefix false st ev
  = (mkStacks (keys_stack st) (data_stack st) h1, false, Next).
Proof.
  intros Hev Hk Hd Hassign. unfold start_parse_step, assign_top.
  destruct ev; try discriminate Hev; simpl;
    rewrite Hk, Hd, !py_last_snoc, <- Hk, <- Hd; simpl in Hassign;
    by rewrite Hassign.
Qed.

Lemma start_parse_start st ev ob ks k ds d h2 :
  classmap ev = Ok ob ->
  keys_stack st = ks ++ [k] ->
  data_stack st = ds ++ [d] ->
  keys_stack st <> py_init self_prefix ->
  assign (store st ++ [ob]) d k (PRef (length (store st))) = Ok h2 ->
  start_parse_step self self_prefix false st ev
  = (mkStacks (keys_stack st ++ ["item"])
       (data_stack st ++ [length (store st)]) h2, false, Next).
Proof.
  intros Hev Hk Hd Hne Hassign. unfold start_parse_step, link_push.
  assert (is_start ev = true) as -> by (by destruct ev).
  rewrite bool_decide_eq_false_2 by done. rewrite Hev. simpl.
  by rewrite Hk, Hd, link_snoc, Hassign.
Qed.

Lemma start_parse_end first st ev ks k ds d :
  is_end ev = true ->
  keys_stack st = ks ++ [k] ->
  data_stack st = ds ++ [d] ->
  start_parse_step self self_prefix first st ev
  = (mkStacks ks ds (store st), first, Next).
Proof.
  intros Hev Hk Hd. unfold start_parse_step, pop_both.
  assert (is_start ev = false) as -> by (by destruct ev).
  by rewrite Hev, Hk, Hd, !py_pop_snoc.
Qed.

Lemma start_parse_map_key first st k' ks k :
  keys_stack st = ks ++ [k] ->
  start_parse_step self self_prefix first st (map_key k')
  = (mkStacks (ks ++ [k']) (data_stack st) (store st), first, Next).
Proof.
  intros Hk. unfold start_parse_step, set_key. simpl.
  by rewrite Hk, py_set_last_snoc.
Qed.
End StartParseSteps.

(** ** Places inside a place *)

Lemma target_not_below_length (keys target : list string) :
  length target <= length keys -> target_not_below keys target.
Proof.
  intros Hlen q Hq Heq. rewrite <- Heq, length_app in Hlen.
  destruct q; [done | simpl in Hlen; lia].
Qed.

Lemma target_not_below_inside (keys q target : list string) :
  target_not_below keys target -> target_not_below (keys ++ q) target.
Proof.
  intros Hkeys q' Hq'. rewrite <- app_assoc. apply Hkeys. by destruct q.
Qed.

Lemma target_not_below_ne (keys q target : list string) :
  target_not_below keys target -> q <> [] -> keys ++ q <> target.
Proof. intros Hkeys Hq. by apply Hkeys. Qed.

Lemma no_handoff_from_inside (keys q self_prefix : list string) :
  no_handoff_from keys self_prefix -> no_handoff_from (keys ++ q) self_prefix.
Proof. intros Hkeys q'. rewrite <- app_assoc. apply Hkeys. Qed.

Lemma no_handoff_from_ne (keys self_prefix : list string) :
  no_handoff_from keys self_prefix -> keys <> py_init self_prefix.
Proof. intros Hkeys. specialize (Hkeys []). by rewrite app_nil_r in Hkeys. Qed.

(** Assigning corresponding values, pair after pair, keeps two dicts
    corresponding. *)
Lemma dict_update_repr lo h (kvs : list (string * json)) :
  forall vs dd dj,
    dict_repr lo h dd dj ->
    Forall2 (repr lo h) vs (map (fun kv => last_wins kv.2) kvs) ->
    dict_repr lo h (dict_update dd (zip (map fst kvs) vs))
      (dict_update dj (map (fun kv => (kv.1, last_wins kv.2)) kvs)).
Proof.
  induction kvs as [|[k j] kvs IH]; intros vs dd dj Hd Hvs; simpl in *.
  - by inversion Hvs.
  - inversion Hvs as [|v j' vs' js' Hv Hvs']; subst. simpl.
    apply IH; [| done]. by apply dict_repr_set.
Qed.

(** ** The two loops on documents *)

Section Streaming.
Variable self : loc.
Variable self_prefix : list string.
Implicit Types (st : stacks) (ks : list string) (ds : list loc).

(** The elements of a list, fed to either loop with the list on top of the
    data stack: they are appended to it; the generator yields them when the
    keys stack is the target. *)
Lemma streams_elements xs :
  Forall (streams self self_prefix) xs ->
  forall st ks k ds l vs,
    keys_stack st = ks ++ [k] ->
    data_stack st = ds ++ [l] ->
    store st !! l = Some (OList vs) ->
    exists H' vs',
      take l H' = take l (store st)
      /\ H' !! l = Some (OList (vs ++ vs'))
      /\ Forall2 (repr (S l) H') vs' (map last_wins xs)
      /\ kept_above (S l) (store st) H'
      /\ (target_not_below (keys_stack st) self_prefix ->
          forall yf rest, exists yf',
            json_generator_from self_prefix yf st
              (concat (map events_of xs) ++ rest)
            = yield_first
                (if bool_decide (keys_stack st = self_prefix)
                 then vs' else [])
                (json_generator_from self_prefix yf'
                   (mkStacks (keys_stack st) (data_stack st) H') rest))
      /\ (no_handoff_from (keys_stack st) self_prefix ->
          forall rest,
            start_parse_from self self_prefix false st
              (concat (map events_of xs) ++ rest)
            = start_parse_from self self_prefix false
                (mkStacks (keys_stack st) (data_stack st) H') rest).
Proof.
  induction 1 as [|x xs Hx _ IH]; intros st ks k ds l vs Hk Hd Hl.
  - exists (store st), []. simpl. rewrite app_nil_r.
    destruct st as [keys data h]; simpl in *.
    repeat split; auto using kept_above_refl.
    intros _ yf rest. exists yf. case_bool_decide; by rewrite yield_first_nil.
  - destruct (Hx st ks k ds l Hk Hd)
      as (v & h1 & news & Hassign & Hrepr & Hgen & Hdesc).
    { by exists (OList vs). }
    pose proof (lookup_lt_Some _ _ _ Hl) as Hlt.
    rewrite (assign_list _ _ _ _ _ Hl) in Hassign. injection Hassign as <-.
    set (H1 := <[l := OList (vs ++ [v])]> (store st) ++ news) in *.
    set (st1 := mkStacks (keys_stack st) (data_stack st) H1) in *.
    destruct (IH st1 ks k ds l (vs ++ [v]))
      as (H' & vs' & Htake & Hl' & Hreprs & Hkept & Hgen' & Hdesc');
      [done | done | |].
    { simpl. unfold H1. rewrite lookup_app_l by (rewrite length_insert; lia).
      by rewrite list_lookup_insert_eq. }
    assert (Hkept1 : kept_above (S l) (store st) H1).
    { eapply kept_above_trans; [| apply kept_above_app].
      apply kept_above_insert. lia. }
    exists H', (v :: vs'). simpl in *.
    repeat split.
    + rewrite Htake. unfold H1.
      rewrite take_app_le by (rewrite length_insert; lia).
      by rewrite take_insert_ge.
    + by rewrite <- app_assoc in Hl'.
    + constructor; [| done].
      eapply repr_kept; [exact Hkept |].
      eapply repr_weaken; [| exact Hrepr]. lia.
    + eapply kept_above_trans; eauto.
    + intros Hnb yf rest.
      destruct (Hgen' Hnb (negb (bool_decide (keys_stack st = self_prefix)))
                  rest) as [yf' Hrun'].
      exists yf'.
      rewrite <- app_assoc, (Hgen Hnb), Hrun', yield_first_app.
      by case_bool_decide.
    + intros Hnh rest. by rewrite <- app_assoc, (Hdesc Hnh), (Hdesc' Hnh).
Qed.

(** The members of a dict, fed to either loop with the dict on top of the
    data stack: they are assigned to it under their keys; the generator
    yields nothing when the target is not strictly inside the dict. *)
Lemma streams_members kvs :
  Forall (fun kv => streams self self_prefix kv.2) kvs ->
  forall st ks k ds l dd,
    keys_stack st = ks ++ [k] ->
    data_stack st = ds ++ [l] ->
    store st !! l = Some (ODict dd) ->
    exists k' H' vs',
      take l H' = take l (store st)
      /\ H' !! l = Some (ODict (dict_update dd (zip (map fst kvs) vs')))
      /\ Forall2 (repr (S l) H') vs' (map (fun kv => last_wins kv.2) kvs)
      /\ kept_above (S l) (store st) H'
      /\ (Forall (fun kv => ks ++ [kv.1] <> self_prefix
                            /\ target_not_below (ks ++ [kv.1]) self_prefix)
            kvs ->
          forall yf rest, exists yf',
            json_generator_from self_prefix yf st
              (concat (map (fun kv => map_key kv.1 :: events_of kv.2) kvs)
               ++ rest)
            = json_generator_from self_prefix yf'
                (mkStacks (ks ++ [k']) (data_stack st) H') rest)
      /\ (Forall (fun kv => no_handoff_from (ks ++ [kv.1]) self_prefix) kvs ->
          forall rest,
            start_parse_from self self_prefix false st
              (concat (map (fun kv => map_key kv.1 :: events_of kv.2) kvs)
               ++ rest)
            = start_parse_from self self_prefix false
                (mkStacks (ks ++ [k']) (data_stack st) H') rest).
Proof.
  induction 1 as [|[k1 x] kvs Hx _ IH]; intros st ks k ds l dd Hk Hd Hl.
  - exists k, (store st), []. simpl.
    destruct st as [keys data h]; simpl in *. subst keys.
    repeat split; auto using kept_above_refl.
    intros _ yf rest. by exists yf.
  - simpl in Hx.
    set (st0 := mkStacks (ks ++ [k1]) (data_stack st) (store st)).
    destruct (Hx st0 ks k1 ds l eq_refl Hd)
      as (v & h1 & news & Hassign & Hrepr & Hgen & Hdesc).
    { by exists (ODict dd). }
    pose proof (lookup_lt_Some _ _ _ Hl) as Hlt.
    simpl in Hassign, Hrepr, Hgen, Hdesc.
    rewrite (assign_dict _ _ _ _ _ Hl) in Hassign. injection Hassign as <-.
    set (H1 := <[l := ODict (dict_set dd k1 v)]> (store st) ++ news) in *.
    assert (Hkept1 : kept_above (S l) (store st) H1).
    { eapply kept_above_trans; [| apply kept_above_app].
      apply kept_above_insert. lia. }
    destruct (IH (mkStacks (ks ++ [k1]) (data_stack st) H1)
                ks k1 ds l (dict_set dd k1 v))
      as (k' & H' & vs' & Htake & Hl' & Hreprs & Hkept & Hgen' & Hdesc');
      [done | done | |].
    { simpl. unfold H1. rewrite lookup_app_l by (rewrite length_insert; lia).
      by rewrite list_lookup_insert_eq. }
    simpl in Htake, Hkept, Hgen', Hdesc'.
    assert (Hevs : forall rest,
      concat (map (fun kv => map_key kv.1 :: events_of kv.2) ((k1, x) :: kvs))
        ++ rest
      = map_key k1
          :: events_of x
          ++ (concat (map (fun kv => map_key kv.1 :: events_of kv.2) kvs)
              ++ rest)).
    { intros rest. simpl. by rewrite <- app_assoc. }
    exists k', H', (v :: vs'). repeat split.
    + rewrite Htake. unfold H1.
      rewrite take_app_le by (rewrite length_insert; lia).
      by rewrite take_insert_ge.
    + exact Hl'.
    + constructor; [| done].
      eapply repr_kept; [exact Hkept |].
      eapply repr_weaken; [| exact Hrepr]. lia.
    + eapply kept_above_trans; eauto.
    + intros Hnb yf rest.
      inversion Hnb as [|? ? [Hne Hnb1] Hnbs]; subst. simpl in Hne, Hnb1.
      destruct (Hgen' Hnbs true rest) as [yf' Hrun'].
      exists yf'.
      rewrite Hevs, json_generator_from_cons,
        (generator_map_key _ yf st k1 ks k Hk Hne).
      fold st0. rewrite (Hgen Hnb1).
      rewrite bool_decide_eq_false_2, yield_first_nil by done.
      simpl negb. exact Hrun'.
    + intros Hnh rest.
      inversion Hnh as [|? ? Hnh1 Hnhs]; subst. simpl in Hnh1.
      rewrite Hevs, start_parse_from_cons,
        (start_parse_map_key _ _ false st k1 ks k Hk).
      fold st0. rewrite (Hdesc Hnh1). by apply Hdesc'.
Qed.

Lemma take_drop_from h1 (H : heap) l :
  length h1 = l -> take l H = h1 -> h1 ++ drop l H = H.
Proof. intros _ <-. apply take_drop. Qed.

(** Every document goes through the two loops as [streams] says. *)
Lemma streams_all j : streams self self_prefix j.
Proof.
  induction j as [| b | n | s | xs IH | kvs IH] using json_ind;
    intros st ks k ds d Hk Hd Hassignable.
  1-4: match goal with
       | |- context [events_of ?j] =>
           let ev := eval cbn in (hd null (events_of j)) in
           destruct (assignable_assign _ _ k (event_value ev) Hassignable)
             as [h1 Hassign];
           exists (event_value ev), h1, [];
           rewrite app_nil_r; (split; [exact Hassign |]);
           (split; [constructor |]); split;
           [ intros _ yf rest;
             change (events_of j ++ rest) with (ev :: rest);
             rewrite json_generator_from_cons,
               (generator_scalar _ yf st ev ks k ds d h1 eq_refl Hk Hd Hassign);
             case_bool_decide; simpl; by rewrite ?yield_first_nil
           | intros _ rest;
             change (events_of j ++ rest) with (ev :: rest);
             by rewrite start_parse_from_cons,
               (start_parse_scalar _ _ st ev ks k ds d h1 eq_refl Hk Hd Hassign)
           ]
       end.
  - set (l := length (store st)).
    destruct (assignable_assign _ _ k (PRef l) Hassignable) as [h1 Hassign].
    pose proof (assign_length _ _ _ _ _ Hassign) as Hlen1.
    pose proof (assign_app _ _ _ _ _ [OList []] Hassign) as Hassign'.
    set (st1 := mkStacks (keys_stack st ++ ["item"]) (data_stack st ++ [l])
                  (h1 ++ [OList []])).
    destruct (streams_elements xs IH st1 (keys_stack st) "item"
                (data_stack st) l [])
      as (H' & vs & Htake & Hl' & Hreprs & Hkept & Hgen & Hdesc);
      [done | done | |].
    { simpl. unfold l. rewrite <- Hlen1. by rewrite list_lookup_middle. }
    simpl in Htake, Hl', Hkept, Hgen, Hdesc.
    assert (HH' : h1 ++ drop l H' = H').
    { apply take_drop_from; [done |].
      rewrite Htake, take_app_le by (unfold l; lia).
      unfold l. by rewrite <- Hlen1, firstn_all. }
    assert (Hevs : forall rest,
      events_of (JArr xs) ++ rest
      = start_array :: concat (map events_of xs) ++ end_array :: rest).
    { intros rest. simpl. by rewrite <- app_assoc. }
    exists (PRef l), h1, (drop l H'). rewrite HH'.
    split; [exact Hassign |]. split; [| split].
    + simpl. apply repr_arr with vs; [done | done |].
      eapply Forall2_impl; [exact Hreprs |].
      intros v j Hr. eapply repr_weaken; [| exact Hr]. lia.
    + intros Hnb yf rest.
      assert (Hne : keys_stack st ++ ["item"] <> self_prefix) by (by apply Hnb).
      destruct (Hgen (target_not_below_inside _ ["item"] _ Hnb) yf
                  (end_array :: rest)) as [yf' Hrun].
      rewrite bool_decide_eq_false_2, yield_first_nil in Hrun by done.
      rewrite Hevs, json_generator_from_cons,
        (generator_start _ yf st start_array (OList []) ks k ds d
           (h1 ++ [OList []]) eq_refl Hk Hd Hne Hassign').
      fold l st1. rewrite Hrun, json_generator_from_cons.
      rewrite (generator_end _ yf'
                 (mkStacks (keys_stack st ++ ["item"]) (data_stack st ++ [l])
                    H') end_array
                 (keys_stack st) "item" (data_stack st) l
                 eq_refl eq_refl eq_refl).
      simpl. destruct (bool_decide (keys_stack st = self_prefix)); simpl;
        by rewrite ?yield_first_nil.
    + intros Hnh rest.
      rewrite Hevs, start_parse_from_cons,
        (start_parse_start _ _ st start_array (OList []) ks k ds d
           (h1 ++ [OList []]) eq_refl Hk Hd (no_handoff_from_ne _ _ Hnh)
           Hassign').
      fold l st1. rewrite (Hdesc (no_handoff_from_inside _ ["item"] _ Hnh)).
      rewrite start_parse_from_cons.
      by rewrite (start_parse_end _ _ false
                    (mkStacks (keys_stack st ++ ["item"])
                       (data_stack st ++ [l]) H') end_array
                    (keys_stack st) "item" (data_stack st) l
                    eq_refl eq_refl eq_refl).
  - set (l := length (store st)).
    destruct (assignable_assign _ _ k (PRef l) Hassignable) as [h1 Hassign].
    pose proof (assign_length _ _ _ _ _ Hassign) as Hlen1.
    pose proof (assign_app _ _ _ _ _ [ODict []] Hassign) as Hassign'.
    set (st1 := mkStacks (keys_stack st ++ ["item"]) (data_stack st ++ [l])
                  (h1 ++ [ODict []])).
    destruct (streams_members kvs IH st1 (keys_stack st) "item"
                (data_stack st) l [])
      as (k' & H' & vs & Htake & Hl' & Hreprs & Hkept & Hgen & Hdesc);
      [done | done | |].
    { simpl. unfold l. rewrite <- Hlen1. by rewrite list_lookup_middle. }
    simpl in Htake, Hl', Hkept, Hgen, Hdesc.
    assert (HH' : h1 ++ drop l H' = H').
    { apply take_drop_from; [done |].
      rewrite Htake, take_app_le by (unfold l; lia).
      unfold l. by rewrite <- Hlen1, firstn_all. }
    assert (Hevs : forall rest,
      events_of (JObj kvs) ++ rest
      = start_map
          :: concat (map (fun kv => map_key kv.1 :: events_of kv.2) kvs)
          ++ end_map :: rest).
    { intros rest. simpl. by rewrite <- app_assoc. }
    exists (PRef l), h1, (drop l H'). rewrite HH'.
    split; [exact Hassign |]. split; [| split].
    + simpl. apply repr_obj with (dict_update [] (zip (map fst kvs) vs));
        [done | done |].
      apply (dict_update_repr l H' kvs vs [] []); [constructor |].
      eapply Forall2_impl; [exact Hreprs |].
      intros v j Hr. eapply repr_weaken; [| exact Hr]. lia.
    + intros Hnb yf rest.
      assert (Hne : keys_stack st ++ ["item"] <> self_prefix) by (by apply Hnb).
      destruct (Hgen ltac:(apply Forall_forall; intros kv _; split;
                             [by apply Hnb
                             | by apply target_not_below_inside])
                  yf (end_map :: rest)) as [yf' Hrun].
      rewrite Hevs, json_generator_from_cons,
        (generator_start _ yf st start_map (ODict []) ks k ds d
           (h1 ++ [ODict []]) eq_refl Hk Hd Hne Hassign').
      fold l st1. rewrite Hrun, json_generator_from_cons.
      rewrite (generator_end _ yf'
                 (mkStacks (keys_stack st ++ [k']) (data_stack st ++ [l]) H')
                 end_map (keys_stack st) k' (data_stack st) l
                 eq_refl eq_refl eq_refl).
      simpl. destruct (bool_decide (keys_stack st = self_prefix)); simpl;
        by rewrite ?yield_first_nil.
    + intros Hnh rest.
      rewrite Hevs, start_parse_from_cons,
        (start_parse_start _ _ st start_map (ODict []) ks k ds d
           (h1 ++ [ODict []]) eq_refl Hk Hd (no_handoff_from_ne _ _ Hnh)
           Hassign').
      fold l st1.
      rewrite Hdesc
        by (apply Forall_forall; intros kv _;
            by apply no_handoff_from_inside).
      rewrite start_parse_from_cons.
      by rewrite (start_parse_end _ _ false
                    (mkStacks (keys_stack st ++ [k']) (data_stack st ++ [l])
                       H') end_map
                    (keys_stack st) k' (data_stack st) l
                    eq_refl eq_refl eq_refl).
Qed.
End Streaming.

(** C5, as the code has it.  After the handover the keys stack is the
    target whenever the target ends with the segment [item].  When the
    generator is resumed with the keys stack equal to the target, it puts a
    new empty list (the placeholder) on top of the data stack, in place of
    the generator object; the complete values that then follow one after
    the other (scalar or composite: the items of the streamed array), before
    any other event, are each yielded once and are also appended to the
    placeholder, which therefore holds exactly these items, in order, and
    grows by one entry for each of them; the objects that existed before
    (the parent container and the generator object among them) do not
    change; and whatever events come after these items, the generator goes
    on from that state. *)
Theorem streamed_items_accumulate_in_placeholder :
  (forall (self : loc) (self_prefix : list string) (first : bool)
          (st : stacks) (token : event) (st' : stacks) (first' : bool),
     start_parse_step self self_prefix first st token = (st', first', Break) ->
     last self_prefix = Some "item" ->
     keys_stack st' = self_prefix)
  /\ (forall (self_prefix : list string) (items : list json) (st : stacks)
             (ks : list string) (k : string) (ds : list loc) (g : loc),
        keys_stack st = self_prefix ->
        keys_stack st = ks ++ [k] ->
        data_stack st = ds ++ [g] ->
        exists vs st',
          json_generator self_prefix st (concat (map events_of items))
          = (vs, st', None)
          /\ (forall rest : list event, exists yield_flag,
                json_generator self_prefix st
                  (concat (map events_of items) ++ rest)
                = yield_first vs
                    (json_generator_from self_prefix yield_flag st' rest))
          /\ keys_stack st' = self_prefix
          /\ data_stack st' = ds ++ [length (store st)]
          /\ store st' !! length (store st) = Some (OList vs)
          /\ length vs = length items
          /\ Forall2 (fun v j => reify (depth (last_wins j)) (store st') v
                                 = Some (last_wins j)) vs items
          /\ take (length (store st)) (store st') = store st).
Proof.
  split.
  { intros self self_prefix first st token st' first' Hstep Hlast.
    apply last_Some in Hlast as [P' ->].
    revert Hstep. unfold start_parse_step, alloc.
    destruct (is_start token).
    - case_bool_decide as Hkeys.
      + rewrite py_init_snoc in Hkeys.
        destruct (link_push st (store st ++ [OGen]) (length (store st)))
          as [st1 o1] eqn:Hl.
        unfold link_push in Hl.
        destruct (link (store st ++ [OGen]) (keys_stack st) (data_stack st)
                    (length (store st))) as [h'|e];
          injection Hl as <- <-; [| discriminate].
        intros [= <- _]. simpl. unfold py_append. by rewrite Hkeys.
      + destruct first.
        * destruct (link_push st (store st) self) as [st1 o1] eqn:Hl.
          apply link_push_outcome in Hl.
          intros [= <- _ ->]. by destruct Hl.
        * destruct (classmap token) as [ob|e]; [| discriminate].
          destruct (link_push st (store st ++ [ob]) (length (store st)))
            as [st1 o1] eqn:Hl.
          apply link_push_outcome in Hl.
          intros [= <- _ ->]. by destruct Hl.
    - destruct (is_end token).
      + destruct (pop_both st) as [[st1 top] o1] eqn:Hp.
        apply pop_both_outcome in Hp.
        intros [= <- _ ->]. destruct Hp as [[? _] | [? _]]; discriminate.
      + destruct token.
        5: { destruct (set_key st k) as [st1 o1] eqn:Hs.
             apply set_key_outcome in Hs.
             intros [= <- _ ->]. by destruct Hs. }
        all: match goal with
             | |- context [assign_top ?s ?v] =>
                 let Ha := fresh in
                 destruct (assign_top s v) as [st1 o1] eqn:Ha;
                 apply assign_top_outcome in Ha;
                 intros [= <- _ ->]; by destruct Ha
             end. }
  intros self_prefix items st ks k ds g HP Hk Hd.
  set (l := length (store st)).
  set (st1 := mkStacks (keys_stack st) (ds ++ [l]) (store st ++ [OList []])).
  assert (Henter : json_generator_enter st = (st1, Next)).
  { unfold json_generator_enter. simpl. by rewrite Hd, py_set_last_snoc. }
  destruct (streams_elements 0 self_prefix items
              ltac:(apply Forall_forall; intros; apply streams_all)
              st1 ks k ds l [])
    as (H' & vs & Htake & Hl' & Hreprs & Hkept & Hgen & _);
    [done | done | by apply list_lookup_middle |].
  assert (Hnb : target_not_below (keys_stack st1) self_prefix).
  { apply target_not_below_length. simpl. by rewrite HP. }
  specialize (Hgen Hnb false).
  simpl in Hgen, Htake, Hl', Hkept.
  rewrite bool_decide_eq_true_2 in Hgen by done.
  exists vs, (mkStacks (keys_stack st) (ds ++ [l]) H').
  unfold json_generator. rewrite Henter. simpl.
  repeat split.
  - destruct (Hgen []) as [yf' Hrun]. rewrite app_nil_r in Hrun.
    rewrite Hrun. unfold yield_first. simpl. by rewrite app_nil_r.
  - intros rest. destruct (Hgen rest) as [yf' Hrun]. by exists yf'.
  - done.
  - done.
  - apply Forall2_length in Hreprs. by rewrite length_map in Hreprs.
  - rewrite Forall2_fmap_r in Hreprs.
    eapply Forall2_impl; [exact Hreprs |]. intros v j Hr. simpl in Hr.
    by eapply repr_reify.
  - rewrite Htake, take_app_le by (unfold l; lia). by apply firstn_all.
Qed.

Lemma streamed_items_accumulate_in_placeholder_witness :
  keys_stack (mkStacks ["data"; "item"] [0; 1] [ODict [("data", PRef 1)]; OGen])
  = ["data"; "item"]
  /\ exists vs st',
    json_generator ["data"; "item"]
      (mkStacks ["data"; "item"] [0; 1] [ODict [("data", PRef 1)]; OGen])
      (concat (map events_of [JNum 1; JArr [JStr "x"]]))
    = (vs, st', None)
    /\ (forall rest : list event, exists yield_flag,
          json_generator ["data"; "item"]
            (mkStacks ["data"; "item"] [0; 1]
               [ODict [("data", PRef 1)]; OGen])
            (concat (map events_of [JNum 1; JArr [JStr "x"]]) ++ rest)
          = yield_first vs
              (json_generator_from ["data"; "item"] yield_flag st' rest))
    /\ keys_stack st' = ["data"; "item"]
    /\ data_stack st' = [0] ++ [2]
    /\ store st' !! 2 = Some (OList vs)
    /\ length vs = 2
    /\ Forall2 (fun v j => reify (depth (last_wins j)) (store st') v
                           = Some (last_wins j)) vs [JNum 1; JArr [JStr "x"]]
    /\ take 2 (store st') = [ODict [("data", PRef 1)]; OGen].
Proof.
  split.
  - apply (proj1 streamed_items_accumulate_in_placeholder 0
             ["data"; "item"] false
             (mkStacks ["data"] [0] [ODict []]) start_array _ false);
      reflexivity.
  - apply (proj2 streamed_items_accumulate_in_placeholder ["data"; "item"]
             [JNum 1; JArr [JStr "x"]]
             (mkStacks ["data"; "item"] [0; 1]
                [ODict [("data", PRef 1)]; OGen])
             ["data"] "item" [0] 1); reflexivity.
Defined.

(** C5, as stated, fails on [{"c": ["x"], "data": [1, 2, 3], "z": 9}] with
    the target [data.item]: once the generator has yielded the three items,
    the placeholder on top of the data stack (the object 3) holds the three
    of them, while the dict still holds the generator object (the object 2)
    under "data". *)
Lemma placeholder_holds_the_streamed_items :
  let '(st, rest, _) := ijsondict (events_of columns_document) "data.item" in
  json_generator ["data"; "item"] st (take 3 rest)
  = ([PNum 1; PNum 2; PNum 3],
     mkStacks ["data"; "item"] [0; 3]
       [ODict [("c", PRef 1); ("data", PRef 2)]; OList [PStr "x"]; OGen;
        OList [PNum 1; PNum 2; PNum 3]],
     None).
Proof. reflexivity. Qed.

(** Both conditions matter.  On [{"r": [{"d": [1]}, {"d": [2]}]}] with the
    target [r.item.d.item], the value 2 arrives after other events: it is
    yielded, but it goes into a plain list (the object 6), not into the
    placeholder (the object 4).  On [{"a": {"x": 7, "y": 8, "b": 1}}] with
    the target [a.b], the generator is resumed with the keys stack [a.item],
    which is not the target: the placeholder (the object 2) takes the three
    values of the object for the single value at the target. *)
Example values_outside_the_streamed_array :
  ijsondict_drained (events_of rows_document) "r.item.d.item"
  = ([PNum 1; PNone; PNum 2],
     mkStacks [] []
       [ODict [("r", PRef 1)]; OList [PRef 2; PRef 5];
        ODict [("d", PRef 3)]; OGen; OList [PNum 1];
        ODict [("d", PRef 6)]; OList [PNum 2]],
     None)
  /\ ijsondict_drained
       (events_of (JObj [("a", JObj [("x", JNum 7); ("y", JNum 8);
                                     ("b", JNum 1)])])) "a.b"
     = ([PStr "b"; PNum 1],
        mkStacks [] []
          [ODict [("a", PRef 1)]; OGen; OList [PNum 7; PNum 8; PNum 1]],
        None).
Proof. split; reflexivity. Qed.

(** ** The entry of the parent container *)

Lemma entry_app h ext d k i w :
  entry h d k i = Some w -> entry (h ++ ext) d k i = Some w.
Proof.
  unfold entry. destruct (h !! d) as [o|] eqn:Hd; [| done].
  by rewrite (lookup_app_l_Some _ _ _ _ Hd).
Qed.

(** An assignment keeps an entry, unless it is made under the key of this
    entry in the dict of this entry. *)
Lemma assign_entry h d' k' v h1 d k i w :
  assign h d' k' v = Ok h1 ->
  entry h d k i = Some w ->
  (d' = d -> k' = k -> is_dict_at h d = false) ->
  entry h1 d k i = Some w.
Proof.
  unfold assign, store_setitem, store_append, entry, is_dict_at.
  intros Hassign Hentry Hother.
  destruct (decide (d' = d)) as [-> | Hne].
  - destruct (h !! d) as [[dd | xs |]|] eqn:Hd; simpl in Hassign;
      try discriminate; injection Hassign as <-;
      rewrite list_lookup_insert_eq by (by eapply lookup_lt_Some).
    + rewrite dict_get_set. destruct (String.eqb_spec k' k) as [-> | _];
        [by specialize (Hother eq_refl eq_refl) | done].
    + by apply lookup_app_l_Some.
  - destruct (h !! d') as [[dd | xs |]|]; simpl in Hassign;
      try discriminate; injection Hassign as <-;
      by rewrite list_lookup_insert_ne.
Qed.

(** An assignment never changes a generator object. *)
Lemma assign_generator h d' k' v h1 g :
  assign h d' k' v = Ok h1 -> h !! g = Some OGen -> h1 !! g = Some OGen.
Proof.
  intros (o & o' & Hd & Ho & _ & ->)%assign_Ok Hg.
  rewrite list_lookup_insert_ne; [done |]. intros ->. congruence.
Qed.

Lemma json_generator_branch_store yf st token st' v yf' o :
  json_generator_branch yf st token = (st', v, yf', o) ->
  store_step st token (store st').
Proof.
  unfold json_generator_branch, store_step.
  destruct (is_start token) eqn:Hstart.
  - destruct (classmap token) as [ob|e]; [| intros [= <- _ _ _]; by left].
    simpl. unfold link_push, link.
    destruct (keys_stack st) as [|k0 keys] eqn:Hkeys.
    { intros [= <- _ _ _]. right. left. by eexists. }
    unfold py_last.
    destruct (last (k0 :: keys)) as [k'|] eqn:Hk'; simpl;
      [| intros [= <- _ _ _]; right; left; by eexists].
    destruct (last (data_stack st)) as [d'|] eqn:Hd'; simpl;
      [| intros [= <- _ _ _]; right; left; by eexists].
    destruct (assign _ d' k' _) as [h'|e] eqn:Hassign;
      intros [= <- _ _ _]; simpl; right; [right | left; by eexists].
    by eexists [ob], d', k', _.
  - destruct (is_end token) eqn:Hend.
    + destruct (pop_both st) as [[st1 top] o1] eqn:Hpop.
      assert (store st1 = store st) as Hst.
      { unfold pop_both in Hpop.
        destruct (py_pop (keys_stack st)) as [[ks k0]|e];
          [destruct (py_pop (data_stack st)) as [[ds d0]|e] |];
          by injection Hpop as <- _ _. }
      destruct top, o1; intros [= <- _ _ _]; by left.
    + destruct token; try discriminate.
      5: { destruct (set_key st k) as [st1 o1] eqn:Hset.
           apply set_key_spec in Hset as (_ & _ & Hst).
           intros [= <- _ _ _]. by left. }
      all: unfold assign_top, py_last;
        destruct (last (keys_stack st)) as [k'|] eqn:Hk'; simpl;
        [| intros [= <- _ _ _]; by left];
        destruct (last (data_stack st)) as [d'|] eqn:Hd'; simpl;
        [| intros [= <- _ _ _]; by left];
        (destruct (assign (store st) d' k' _) as [h'|e] eqn:Hassign;
         intros [= <- _ _ _]; simpl; [| by left]);
        right; right; eexists [], d', k', _; by rewrite app_nil_r.
Qed.

Lemma json_generator_step_store self_prefix yf st token st' yf' o :
  json_generator_step self_prefix yf st token = (st', yf', o) ->
  store_step st token (store st').
Proof.
  unfold json_generator_step.
  destruct (json_generator_branch yf st token)
    as [[[st1 v] yf1] o1] eqn:Hbranch.
  apply json_generator_branch_store in Hbranch.
  destruct o1; [destruct (_ && _) | | |]; by intros [= <- _ _].
Qed.

(** An iteration of the generator keeps an entry that the event does not
    reassign, and keeps every generator object. *)
Lemma store_step_entry st token h' d k i w :
  store_step st token h' ->
  reassigns d k st token = false ->
  entry (store st) d k i = Some w ->
  entry h' d k i = Some w.
Proof.
  intros [-> | [[ob ->] | (ext & d' & k' & v & Hev & Hd' & Hk' & Hassign)]]
    Hre Hentry; [done | by apply entry_app |].
  eapply assign_entry; [exact Hassign | by apply entry_app |].
  intros -> ->. unfold reassigns in Hre.
  rewrite Hev, !bool_decide_eq_true_2 in Hre by done. simpl in Hre.
  unfold is_dict_at in *. unfold entry in Hentry.
  destruct (store st !! d) as [o|] eqn:Hd; [| done].
  by rewrite (lookup_app_l_Some _ _ _ _ Hd).
Qed.

Lemma store_step_generator st token h' g :
  store_step st token h' ->
  store st !! g = Some OGen ->
  h' !! g = Some OGen.
Proof.
  intros [-> | [[ob ->] | (ext & d' & k' & v & _ & _ & _ & Hassign)]] Hg;
    [done | by apply lookup_app_l_Some |].
  eapply assign_generator; [exact Hassign | by apply lookup_app_l_Some].
Qed.

Lemma json_generator_from_entry self_prefix parser :
  forall yf st ys st' r d k i g,
    json_generator_from self_prefix yf st parser = (ys, st', r) ->
    never_reassigned self_prefix d k yf st parser = true ->
    entry (store st) d k i = Some (PRef g) ->
    store st !! g = Some OGen ->
    entry (store st') d k i = Some (PRef g) /\ store st' !! g = Some OGen.
Proof.
  induction parser as [|token rest IH];
    intros yf st ys st' r d k i g Hrun Hnever Hentry Hg; simpl in *.
  - by injection Hrun as _ <- _.
  - apply andb_prop in Hnever as [Hre Hnever].
    apply negb_true_iff in Hre.
    destruct (json_generator_step self_prefix yf st token)
      as [[st1 yf1] o] eqn:Hstep.
    pose proof (json_generator_step_store _ _ _ _ _ _ _ Hstep) as Hstore.
    pose proof (store_step_entry _ _ _ _ _ _ _ Hstore Hre Hentry) as Hentry1.
    pose proof (store_step_generator _ _ _ _ Hstore Hg) as Hg1.
    destruct o as [| | v | e].
    + eapply IH; eauto.
    + by injection Hrun as _ <- _.
    + destruct (json_generator_from self_prefix yf1 st1 rest)
        as [[ys1 st2] r1] eqn:Hrest.
      injection Hrun as _ <- _. eapply IH; eauto.
    + by injection Hrun as _ <- _.
Qed.

(** A list of the store stays a list, however the loop runs, and only
    grows at its end. *)
Lemma store_step_list st token h' d xs :
  store_step st token h' ->
  store st !! d = Some (OList xs) ->
  exists xs', h' !! d = Some (OList (xs ++ xs')).
Proof.
  intros [-> | [[ob ->] | (ext & d' & k' & v & _ & _ & _ & Hassign)]] Hd.
  - exists []. by rewrite app_nil_r.
  - exists []. rewrite app_nil_r. by apply lookup_app_l_Some.
  - pose proof (lookup_app_l_Some _ ext _ _ Hd) as Hd'.
    destruct (decide (d' = d)) as [-> | Hne].
    + rewrite (assign_list _ _ _ _ _ Hd') in Hassign. injection Hassign as <-.
      exists [v]. apply list_lookup_insert_eq. by eapply lookup_lt_Some.
    + apply assign_Ok in Hassign as (o & o' & _ & _ & _ & ->).
      exists []. rewrite app_nil_r. by rewrite list_lookup_insert_ne.
Qed.

Lemma json_generator_from_list self_prefix parser :
  forall yf st ys st' r d xs g,
    json_generator_from self_prefix yf st parser = (ys, st', r) ->
    store st !! d = Some (OList xs) ->
    store st !! g = Some OGen ->
    (exists xs', store st' !! d = Some (OList (xs ++ xs')))
    /\ store st' !! g = Some OGen.
Proof.
  induction parser as [|token rest IH];
    intros yf st ys st' r d xs g Hrun Hd Hg; simpl in *.
  - injection Hrun as _ <- _. split; [| done].
    exists []. by rewrite app_nil_r.
  - destruct (json_generator_step self_prefix yf st token)
      as [[st1 yf1] o] eqn:Hstep.
    pose proof (json_generator_step_store _ _ _ _ _ _ _ Hstep) as Hstore.
    destruct (store_step_list _ _ _ _ _ Hstore Hd) as [xs1 Hd1].
    pose proof (store_step_generator _ _ _ _ Hstore Hg) as Hg1.
    assert (Hgrow : forall ys2 st2 r2,
              json_generator_from self_prefix yf1 st1 rest = (ys2, st2, r2) ->
              (exists xs', store st2 !! d = Some (OList (xs ++ xs')))
              /\ store st2 !! g = Some OGen).
    { intros ys2 st2 r2 Hrest.
      destruct (IH _ _ _ _ _ _ _ _ Hrest Hd1 Hg1) as [[xs2 Hd2] Hg2].
      split; [| done]. exists (xs1 ++ xs2). by rewrite app_assoc. }
    destruct o as [| | v | e].
    + eauto.
    + injection Hrun as _ <- _. eauto.
    + destruct (json_generator_from self_prefix yf1 st1 rest)
        as [[ys1 st2] r1] eqn:Hrest.
      injection Hrun as _ <- _. eauto.
    + injection Hrun as _ <- _. eauto.
Qed.

(** ** A whole pass over an object that holds the target array *)

Lemma lookup_of_take n (h1 h2 : heap) l :
  take n h2 = take n h1 -> l < n -> h2 !! l = h1 !! l.
Proof.
  intros Htake Hl.
  by rewrite <- (lookup_take_lt h2 n l), Htake, lookup_take_lt.
Qed.

Lemma key_absent_ne k kvs kv :
  key_absent k kvs = true -> In kv kvs -> kv.1 <> k.
Proof.
  unfold key_absent. rewrite forallb_forall. intros Habs Hin.
  specialize (Habs kv Hin). apply negb_true_iff in Habs.
  by apply String.eqb_neq.
Qed.

Lemma dict_get_zip_absent k (kvs : list (string * json)) (vs : list pyval) :
  key_absent k kvs = true -> dict_get (rev (zip (map fst kvs) vs)) k = None.
Proof.
  revert vs. induction kvs as [|[k1 j] kvs IH]; intros vs Habs; [done |].
  destruct vs as [|v vs]; [done |]. simpl in *.
  apply andb_prop in Habs as [Hk1 Habs]. apply negb_true_iff in Hk1.
  rewrite dict_get_app, (IH vs Habs). simpl. by rewrite Hk1.
Qed.

Lemma root_object_pass before k items after :
  key_absent k before = true ->
  key_absent k after = true ->
  exists vs vsb vsa g h,
    ijsondict_list_drained
      (events_of (JObj (before ++ (k, JArr items) :: after))) [k; "item"]
    = (vs, mkStacks [] [] h, None)
    /\ h !! 0 = Some (ODict (dict_update []
                               (zip (map fst before) vsb
                                ++ (k, PRef g) :: zip (map fst after) vsa)))
    /\ h !! g = Some OGen
    /\ Forall2 (repr 1 h) vs (map last_wins items)
    /\ Forall2 (repr 1 h) vsb (map (fun kv => last_wins kv.2) before)
    /\ Forall2 (repr 1 h) vsa (map (fun kv => last_wins kv.2) after).
Proof.
  intros Hkb Hka. set (P := [k; "item"]).
  assert (Hall : forall xs, Forall (streams 0 P) xs)
    by (intros xs; apply Forall_forall; intros; apply streams_all).
  assert (Hallm : forall kvs : list (string * json),
             Forall (fun kv => streams 0 P kv.2) kvs)
    by (intros kvs; apply Forall_forall; intros; apply streams_all).
  (* the members before the target, in [_start_parse] *)
  set (st1 := mkStacks ["item"] [0] [ODict []]).
  destruct (streams_members 0 P before (Hallm before) st1 [] "item" [] 0 []
              eq_refl eq_refl eq_refl)
    as (kb & Hb & vsb & _ & Hlb & Hreprb & Hkeptb & _ & Hdescb).
  simpl in Hlb, Hkeptb, Hdescb.
  assert (Hnhb : Forall (fun kv => no_handoff_from ([] ++ [kv.1]) P) before).
  { apply Forall_forall. intros kv Hin q [= Hk _].
    apply list_elem_of_In in Hin. by apply (key_absent_ne k before kv). }
  specialize (Hdescb Hnhb).
  pose proof (lookup_lt_Some _ _ _ Hlb) as Hlenb.
  set (g := length Hb) in *.
  set (ddb := dict_update [] (zip (map fst before) vsb)) in *.
  set (H3 := <[0 := ODict (dict_set ddb k (PRef g))]> (Hb ++ [OGen])).
  set (st3 := mkStacks [k; "item"] [0; g] H3).
  set (tail := concat (map events_of items)
               ++ end_array :: members_events after ++ [end_map]).
  assert (Hevs :
    events_of (JObj (before ++ (k, JArr items) :: after))
    = start_map
        :: concat (map (fun kv => map_key kv.1 :: events_of kv.2) before)
        ++ map_key k :: start_array :: tail).
  { unfold tail, members_events. simpl. rewrite map_app, concat_app. simpl.
    f_equal. rewrite <- app_assoc. f_equal. simpl. do 2 f_equal.
    by rewrite <- !app_assoc. }
  assert (Hphase1 :
    ijsondict_list (events_of (JObj (before ++ (k, JArr items) :: after))) P
    = (st3, tail, Break)).
  { unfold ijsondict_list. rewrite Hevs, start_parse_from_cons.
    assert (start_parse_step 0 P true ijsondict_init start_map
            = (st1, false, Next)) as ->.
    { reflexivity. }
    rewrite Hdescb, start_parse_from_cons,
      (start_parse_map_key 0 P false (mkStacks [kb] [0] Hb) k [] kb eq_refl).
    rewrite start_parse_from_cons.
    match goal with
    | |- context [start_parse_step 0 P false ?s start_array] =>
        assert (start_parse_step 0 P false s start_array
                = (st3, false, Break)) as ->; [| done]
    end.
    unfold start_parse_step, link_push. simpl.
    rewrite bool_decide_eq_true_2 by done.
    rewrite (assign_dict _ _ _ _ ddb) by (by apply lookup_app_l_Some).
    done. }
  (* the items, in the generator *)
  unfold ijsondict_list_drained. rewrite Hphase1. unfold json_generator.
  set (pl := length H3).
  set (st4 := mkStacks [k; "item"] [0; pl] (H3 ++ [OList []])).
  assert (Henter : json_generator_enter st3 = (st4, Next)).
  { reflexivity. }
  rewrite Henter.
  destruct (streams_elements 0 P items (Hall items) st4 [k] "item" [0] pl []
              eq_refl eq_refl (list_lookup_middle _ _ _ _ eq_refl))
    as (H4 & vs & Htake4 & Hl4 & Hrepr4 & Hkept4 & Hgen4 & _).
  simpl in Htake4, Hkept4.
  destruct (Hgen4 (target_not_below_length _ _ (le_n _)) false
              (end_array :: members_events after ++ [end_map]))
    as [yf4 Hrun4].
  rewrite bool_decide_eq_true_2 in Hrun4 by done.
  unfold tail. rewrite Hrun4.
  rewrite json_generator_from_cons.
  match goal with
  | |- context [json_generator_step P yf4 ?s end_array] =>
      rewrite (generator_end P yf4 s end_array [k] "item" [0] pl
                 eq_refl eq_refl eq_refl)
  end.
  rewrite (bool_decide_eq_false_2 ([k] = P)) by done. simpl negb.
  (* the members after the target, in the generator *)
  assert (Hlen3 : length H3 = S g).
  { unfold H3. rewrite length_insert, length_app. simpl. lia. }
  assert (Hl0 : H4 !! 0 = Some (ODict (dict_set ddb k (PRef g)))).
  { rewrite (lookup_of_take pl _ H4 0 Htake4) by (unfold pl; lia).
    rewrite lookup_app_l by lia. unfold H3.
    apply list_lookup_insert_eq. rewrite length_app. simpl. lia. }
  destruct (streams_members 0 P after (Hallm after)
              (mkStacks [k] [0] H4) [] k [] 0 _ eq_refl eq_refl Hl0)
    as (ka & H6 & vsa & _ & Hl6 & Hrepr6 & Hkept6 & Hgen6 & _).
  simpl in Hl6, Hkept6.
  assert (Hnba : Forall (fun kv => [] ++ [kv.1] <> P
                                   /\ target_not_below ([] ++ [kv.1]) P)
                   after).
  { apply Forall_forall. intros kv Hin. split; [done |].
    intros q _ [= Hk _].
    apply list_elem_of_In in Hin. by apply (key_absent_ne k after kv). }
  destruct (Hgen6 Hnba true [end_map]) as [yf6 Hrun6].
  unfold members_events. cbn [keys_stack data_stack store]. rewrite Hrun6.
  rewrite json_generator_from_cons.
  match goal with
  | |- context [json_generator_step P yf6 ?s end_map] =>
      rewrite (generator_end P yf6 s end_map [] ka [] 0
                 eq_refl eq_refl eq_refl)
  end.
  rewrite (bool_decide_eq_false_2 ([] = P)) by done. simpl.
  (* the store at the end *)
  assert (Hkept46 : kept_above 1 H4 H6) by done.
  assert (HkeptH : kept_above 1 Hb H4).
  { intros l o Hl Ho. pose proof (lookup_lt_Some _ _ _ Ho) as Hlt.
    rewrite (lookup_of_take pl _ H4 l Htake4) by (unfold pl; lia).
    rewrite lookup_app_l by lia. unfold H3.
    rewrite list_lookup_insert_ne by lia. by apply lookup_app_l_Some. }
  exists vs, vsb, vsa, g, H6. repeat split.
  - unfold yield_first. simpl. by rewrite app_nil_r.
  - rewrite Hl6. do 2 f_equal. unfold dict_update, ddb, dict_update.
    rewrite fold_left_app. simpl. done.
  - apply Hkept46; [lia |].
    rewrite (lookup_of_take pl _ H4 g Htake4) by (unfold pl; lia).
    rewrite lookup_app_l by lia. unfold H3.
    rewrite list_lookup_insert_ne by lia. by apply list_lookup_middle.
  - eapply Forall2_impl; [exact Hrepr4 |]. intros v j Hr.
    eapply repr_kept; [exact Hkept46 |].
    eapply repr_weaken; [| exact Hr]. lia.
  - eapply Forall2_impl; [exact Hreprb |]. intros v j Hr.
    eapply repr_kept; [| exact Hr].
    eapply kept_above_trans; eauto.
  - exact Hrepr6.
Qed.

(** C10, as the code has it.  When a start event arrives in [_start_parse]
    with the keys stack equal to the target without its last segment, and
    that stack is not empty, the generator object itself is allocated and
    stored in the container on top of the data stack (under the pending key
    of a dict, appended to a list), and the loop is left.  Resuming the
    generator only allocates the placeholder list.  From then on the
    generator object never changes; the entry of a parent list stays that
    generator object, and the entry of a parent dict stays that generator
    object as long as no later start or scalar event is assigned under the
    same key of the same dict.  So, for a root object in which the key [k]
    occurs once, with an array as its value, and the target [k.item]: the
    drained generator yields the items of the array, nothing is raised, and
    at the end the dict holds the generator object under [k] and, under the
    other keys, the values of the other members, assigned in order. *)
Theorem generator_object_stays_in_parent :
  (forall self self_prefix first st token ks k ds d,
     is_start token = true ->
     keys_stack st = py_init self_prefix ->
     keys_stack st = ks ++ [k] ->
     data_stack st = ds ++ [d] ->
     assignable (store st) d ->
     exists st',
       start_parse_step self self_prefix first st token = (st', first, Break)
       /\ keys_stack st' = keys_stack st ++ ["item"]
       /\ data_stack st' = data_stack st ++ [length (store st)]
       /\ store st' !! length (store st) = Some OGen
       /\ entry (store st') d k (next_index (store st) d)
          = Some (PRef (length (store st))))
  /\ (forall st st' o,
        json_generator_enter st = (st', o) ->
        store st' = store st ++ [OList []])
  /\ (forall self_prefix parser yf st ys st' r d k i g,
        json_generator_from self_prefix yf st parser = (ys, st', r) ->
        never_reassigned self_prefix d k yf st parser = true ->
        entry (store st) d k i = Some (PRef g) ->
        store st !! g = Some OGen ->
        entry (store st') d k i = Some (PRef g)
        /\ store st' !! g = Some OGen)
  /\ (forall self_prefix parser yf st ys st' r d k i g,
        json_generator_from self_prefix yf st parser = (ys, st', r) ->
        is_dict_at (store st) d = false ->
        entry (store st) d k i = Some (PRef g) ->
        store st !! g = Some OGen ->
        entry (store st') d k i = Some (PRef g)
        /\ store st' !! g = Some OGen)
  /\ (forall before k items after,
        key_absent k before = true ->
        key_absent k after = true ->
        exists vs vsb vsa g h,
          ijsondict_list_drained
            (events_of (JObj (before ++ (k, JArr items) :: after)))
            [k; "item"]
          = (vs, mkStacks [] [] h, None)
          /\ h !! 0
             = Some (ODict (dict_update []
                              (zip (map fst before) vsb
                               ++ (k, PRef g) :: zip (map fst after) vsa)))
          /\ entry h 0 k 0 = Some (PRef g)
          /\ h !! g = Some OGen
          /\ Forall2 (reads_as h) vs items
          /\ Forall2 (reads_as h) vsb (map snd before)
          /\ Forall2 (reads_as h) vsa (map snd after)).
Proof.
  split; [| split; [| split; [| split]]].
  - intros self self_prefix first st token ks k ds d Hstart HP Hk Hd Hassignable.
    set (g := length (store st)).
    destruct (assignable_assign _ _ k (PRef g) Hassignable) as [h1 Hassign].
    pose proof (assign_length _ _ _ _ _ Hassign) as Hlen.
    pose proof (assign_app _ _ _ _ _ [OGen] Hassign) as Hassign'.
    exists (mkStacks (keys_stack st ++ ["item"]) (data_stack st ++ [g])
              (h1 ++ [OGen])).
    unfold start_parse_step, link_push.
    rewrite Hstart, bool_decide_eq_true_2 by done. simpl.
    rewrite Hk, Hd, link_snoc. fold g. rewrite Hassign'. simpl.
    repeat split.
    + unfold g. rewrite <- Hlen. by apply list_lookup_middle.
    + destruct Hassignable as (o & Ho & Hgen).
      unfold entry, next_index. rewrite Ho.
      destruct o as [dd | xs |]; [| | done].
      * rewrite (assign_dict _ _ _ _ _ Ho) in Hassign. injection Hassign as <-.
        rewrite lookup_app_l by (rewrite length_insert; by eapply lookup_lt_Some).
        rewrite list_lookup_insert_eq by (by eapply lookup_lt_Some).
        by rewrite dict_get_set, String.eqb_refl.
      * rewrite (assign_list _ _ _ _ _ Ho) in Hassign. injection Hassign as <-.
        rewrite lookup_app_l by (rewrite length_insert; by eapply lookup_lt_Some).
        rewrite list_lookup_insert_eq by (by eapply lookup_lt_Some).
        by apply list_lookup_middle.
  - intros st st' o. unfold json_generator_enter. simpl.
    destruct (py_set_last _ _); by intros [= <- _].
  - intros self_prefix parser. apply json_generator_from_entry.
  - intros self_prefix parser yf st ys st' r d k i g Hrun Hkind Hentry Hg.
    unfold entry, is_dict_at in *.
    destruct (store st !! d) as [[dd | xs |]|] eqn:Hd; try done.
    destruct (json_generator_from_list _ _ _ _ _ _ _ _ _ _ Hrun Hd Hg)
      as [[xs' ->] Hg'].
    split; [| done]. by apply lookup_app_l_Some.
  - intros before k items after Hkb Hka.
    destruct (root_object_pass before k items after Hkb Hka)
      as (vs & vsb & vsa & g & h & Hrun & Hdict & Hgen & Hvs & Hvsb & Hvsa).
    exists vs, vsb, vsa, g, h. repeat split; try done.
    + unfold entry. rewrite Hdict. unfold dict_update.
      rewrite dict_fold_get, rev_app_distr. simpl.
      rewrite <- app_assoc, dict_get_app, (dict_get_zip_absent _ _ _ Hka).
      simpl. by rewrite String.eqb_refl.
    + rewrite Forall2_fmap_r in Hvs.
      eapply Forall2_impl; [exact Hvs |]. intros v j Hr. simpl in Hr.
      unfold reads_as. by eapply repr_reify.
    + rewrite Forall2_fmap_r in Hvsb. apply Forall2_fmap_r.
      eapply Forall2_impl; [exact Hvsb |]. intros v kv Hr. simpl in *.
      unfold reads_as. by eapply repr_reify.
    + rewrite Forall2_fmap_r in Hvsa. apply Forall2_fmap_r.
      eapply Forall2_impl; [exact Hvsa |]. intros v kv Hr. simpl in *.
      unfold reads_as. by eapply repr_reify.
Qed.

Lemma generator_object_stays_in_parent_witness :
  entry [ODict [("c", PRef 1); ("data", PRef 2); ("z", PNum 9)];
         OList [PStr "x"]; OGen; OList [PNum 1; PNum 2; PNum 3]]
    0 "data" 0 = Some (PRef 2)
  /\ [ODict [("c", PRef 1); ("data", PRef 2); ("z", PNum 9)];
      OList [PStr "x"]; OGen; OList [PNum 1; PNum 2; PNum 3]] !! 2
     = Some OGen.
Proof.
  apply (proj1 (proj2 (proj2 generator_object_stays_in_parent))
           ["data"; "item"]
           [number 1; number 2; number 3; end_array; map_key "z"; number 9;
            end_map]
           false
           (mkStacks ["data"; "item"] [0; 3]
              [ODict [("c", PRef 1); ("data", PRef 2)]; OList [PStr "x"];
               OGen; OList []])
           [PNum 1; PNum 2; PNum 3]
           (mkStacks [] []
              [ODict [("c", PRef 1); ("data", PRef 2); ("z", PNum 9)];
               OList [PStr "x"]; OGen; OList [PNum 1; PNum 2; PNum 3]])
           None 0 "data" 0 2); reflexivity.
Defined.

(** C10, as stated, fails on [[[1, 2], [3]]] with the target [item.item]:
    [_start_parse] stores the generator object (the object 1) under "item"
    in the dict itself, which stands for the root array; in the generator,
    the start of the second inner array is assigned under the same key, and
    after the stream is exhausted that entry is the list [[3]] (the object
    3), built from the streamed items. *)
Lemma generator_object_replaced_under_root_array :
  ijsondict (events_of nested_arrays_document) "item.item"
  = (mkStacks ["item"; "item"] [0; 1] [ODict [("item", PRef 1)]; OGen],
     [number 1; number 2; end_array; start_array; number 3; end_array;
      end_array], Break)
  /\ ijsondict_drained (events_of nested_arrays_document) "item.item"
     = ([PNum 1; PNum 2; PNone; PNum 3],
        mkStacks [] []
          [ODict [("item", PRef 3)]; OGen; OList [PNum 1; PNum 2];
           OList [PNum 3]], None).
Proof. split; reflexivity. Qed.


(** * Further properties *)

(** ** The path annotator, on any sequence of events *)

Lemma parse_step_event path ev path' pe :
  parse_step path ev = Ok (path', pe) -> pe.2 = ev.
Proof.
  unfold parse_step.
  destruct ev; simpl;
    repeat match goal with
    | |- context [join_path ?p] => destruct (join_path p); simpl
    | |- context [py_pop ?p] => destruct (py_pop p) as [[? ?]|]; simpl
    | |- context [py_set_last ?p ?x] => destruct (py_set_last p x); simpl
    end; intros; by simplify_eq.
Qed.

Lemma parse_from_events path evs :
  map snd (parse_from path evs).1.1
  = take (length (parse_from path evs).1.1) evs
  /\ (length (parse_from path evs).1.1 = length evs
      <-> (parse_from path evs).2 = None).
Proof.
  revert path. induction evs as [|ev evs IH]; intros path; simpl; [done |].
  destruct (parse_step path ev) as [[path' pe]|e] eqn:Hstep; simpl; [| done].
  specialize (IH path').
  destruct (parse_from path' evs) as [[out final] ended]; simpl in *.
  destruct IH as [IH1 IH2].
  rewrite (parse_step_event _ _ _ _ Hstep), IH1 at 1.
  split; [done |]. rewrite <- IH2. split; lia.
Qed.

(** X1. The annotator yields the events it reads, in order and with their
    kinds and values unchanged, one for each event up to the one at which it
    raises: it yields as many events as it was given exactly when it ends
    without an exception. *)
Theorem parse_yields_the_events_read :
  forall evs : list event,
    map snd (parse evs).1 = take (length (parse evs).1) evs
    /\ (length (parse evs).1 = length evs <-> (parse evs).2 = None).
Proof.
  intros evs. unfold parse.
  pose proof (parse_from_events [] evs) as H.
  by destruct (parse_from [] evs) as [[out final] ended].
Qed.

(** X2. The events of a document that sits at a path of known segments are
    yielded with the dotted paths of the places they belong to (those of a
    container and of its keys with the path of the container, those of the
    elements of an array with [item] added, those of the value of a key with
    the key added), nothing is raised, and the annotator goes on with the
    events that follow with the path it had before the document. *)
Theorem parse_annotates_a_document_in_context :
  forall (j : json) (p : list string) (rest : list event),
    parse_from (map Some p) (events_of j ++ rest)
    = let '(out, final, ended) := parse_from (map Some p) rest in
      (annotate p j ++ out, final, ended).
Proof.
  intros j p rest. by rewrite parse_from_app, parse_from_document.
Qed.

(** X3. A scalar or a start event directly after a StartMap (no MapKey in
    between) makes the annotator raise [TypeError], the pending segment of
    the map being [None]: it has yielded the events up to the StartMap and
    yields nothing more. *)
Theorem parse_value_without_key_raises :
  forall (before after : list event) (ev : event) (out : list prefixed),
    (is_scalar ev || is_start ev) = true ->
    parse (before ++ [start_map]) = (out, None) ->
    parse (before ++ start_map :: ev :: after) = (out, Some TypeError).
Proof.
  intros before after ev out Hev. unfold parse.
  change (before ++ start_map :: ev :: after)
    with (before ++ [start_map] ++ ev :: after).
  rewrite app_assoc, (parse_from_app [] (before ++ [start_map])).
  rewrite (parse_from_app [] before).
  destruct (parse_from [] before) as [[out1 path1] [e|]]; [done |].
  simpl. destruct (join_path path1) as [pre|e] eqn:Hpre; simpl; [| done].
  intros [= <-].
  assert (Hj : join_path (py_append path1 None) = Raise TypeError).
  { unfold join_path, py_append in *. rewrite segments_app.
    by destruct (segments path1). }
  destruct ev; try discriminate Hev; simpl; rewrite Hj; simpl;
    by rewrite app_nil_r.
Qed.

Lemma parse_value_without_key_raises_witness :
  parse ([start_array] ++ start_map :: number 1 :: [end_map; end_array])
  = ([("", start_array); ("item", start_map)], Some TypeError).
Proof.
  apply (parse_value_without_key_raises [start_array] [end_map; end_array]
           (number 1)); reflexivity.
Defined.

Lemma parse_step_depth path ev path' pe :
  parse_step path ev = Ok (path', pe) ->
  length path' + (if is_end ev then 1 else 0)
  = length path + (if is_start ev then 1 else 0).
Proof.
  unfold parse_step, py_append.
  destruct ev; simpl;
    repeat match goal with
    | |- context [join_path ?p] => destruct (join_path p); simpl
    | |- context [py_pop ?p] =>
        let H := fresh in
        destruct (py_pop p) as [[? ?]|] eqn:H; simpl;
        [apply py_pop_Ok in H |]
    | |- context [py_set_last ?p ?x] =>
        let H := fresh in
        destruct (py_set_last p x) eqn:H; simpl;
        [apply py_set_last_Ok in H as (? & ? & -> & ->) |]
    end; intros; simplify_eq; rewrite ?length_app; simpl; lia.
Qed.

(** X4. The path stack counts the open containers: when the annotator goes
    through a sequence of events without raising, the length of its path
    stack has grown by the number of the start events and shrunk by the
    number of the end events. *)
Theorem parse_path_counts_open_containers :
  forall (path : list segment) (evs : list event) (out : list prefixed)
         (final : list segment),
    parse_from path evs = (out, final, None) ->
    length final + count_events is_end evs
    = length path + count_events is_start evs.
Proof.
  intros path evs. revert path.
  induction evs as [|ev evs IH]; intros path out final; simpl.
  - intros [= <- <-]. unfold count_events. simpl. lia.
  - destruct (parse_step path ev) as [[path' pe]|e] eqn:Hstep; [| done].
    destruct (parse_from path' evs) as [[out' final'] ended] eqn:Hrest.
    intros [= <- <- ->].
    apply parse_step_depth in Hstep. specialize (IH _ _ _ Hrest).
    unfold count_events in *. simpl.
    destruct (is_end ev), (is_start ev); simpl; lia.
Qed.

Lemma parse_path_counts_open_containers_witness :
  length [Some "a"; Some "item"]
  + count_events is_end [start_map; map_key "a"; start_array; number 1]
  = length (@nil segment)
    + count_events is_start [start_map; map_key "a"; start_array; number 1].
Proof.
  apply (parse_path_counts_open_containers []
           [start_map; map_key "a"; start_array; number 1]
           [("", start_map); ("", map_key "a"); ("a", start_array);
            ("a.item", number 1)]).
  reflexivity.
Defined.

(** ** The tree builder, on any sequence of events *)

Lemma call_frame lo c b h v b1 h1 :
  closure_above lo c ->
  call c b h v = Ok (b1, h1) ->
  take lo h1 = take lo h.
Proof.
  unfold call, store_setitem, store_append. destruct c; simpl; intros Hlo.
  - by intros [= <- <-].
  - destruct (key b); [| done].
    destruct (h !! map) as [[]|]; simpl; intros [= <- <-].
    by apply take_insert_ge.
  - destruct (h !! array) as [[]|]; simpl; intros [= <- <-].
    by apply take_insert_ge.
Qed.

Lemma ObjectBuilder_event_frame lo b h ev b' h' :
  Forall (closure_above lo) (containers b) ->
  lo <= length h ->
  ObjectBuilder_event b h ev = Ok (b', h') ->
  take lo h' = take lo h
  /\ Forall (closure_above lo) (containers b')
  /\ lo <= length h'.
Proof.
  intros Hcs Hlo. unfold ObjectBuilder_event, alloc.
  assert (Htop : forall top, py_last (containers b) = Ok top ->
                             closure_above lo top).
  { unfold py_last. intros top.
    destruct (last (containers b)) as [c|] eqn:Hlast; [| done].
    intros [= <-]. apply last_Some in Hlast as [cs Hlast].
    rewrite Hlast in Hcs.
    apply Forall_app in Hcs as [_ Hc]. by inversion Hc. }
  destruct ev; simpl;
    try (intros [= <- <-]; done);
    try (destruct (py_last (containers b)) as [top|] eqn:Hlast; simpl;
         [| done]; specialize (Htop top eq_refl)).
  1-4: intros Hcall; pose proof (call_same _ _ _ _ _ _ Hcall)
         as (Hc & _ & Hlen & _);
       apply (call_frame lo) in Hcall; [| done];
       rewrite Hc, Hlen; done.
  - destruct (call top b (h ++ [ODict []]) (PRef (length h)))
      as [[b1 h1]|] eqn:Hcall; simpl; [| done].
    intros [= <- <-].
    pose proof (call_same _ _ _ _ _ _ Hcall) as (Hc & _ & Hlen & _).
    apply (call_frame lo) in Hcall; [| done].
    rewrite Hcall, take_app_le by done. rewrite Hlen, length_app. simpl.
    unfold py_append. rewrite Hc. repeat split; [| lia].
    apply Forall_app. split; [done |]. by repeat constructor.
  - destruct (py_pop (containers b)) as [[cs c]|] eqn:Hpop; simpl; [| done].
    intros [= <- <-]. simpl. apply py_pop_Ok in Hpop. rewrite Hpop in Hcs.
    by apply Forall_app in Hcs as [Hcs _].
  - destruct (call top b (h ++ [OList []]) (PRef (length h)))
      as [[b1 h1]|] eqn:Hcall; simpl; [| done].
    intros [= <- <-].
    pose proof (call_same _ _ _ _ _ _ Hcall) as (Hc & _ & Hlen & _).
    apply (call_frame lo) in Hcall; [| done].
    rewrite Hcall, take_app_le by done. rewrite Hlen, length_app. simpl.
    unfold py_append. rewrite Hc. repeat split; [| lia].
    apply Forall_app. split; [done |]. by repeat constructor.
  - destruct (py_pop (containers b)) as [[cs c]|] eqn:Hpop; simpl; [| done].
    intros [= <- <-]. simpl. apply py_pop_Ok in Hpop. rewrite Hpop in Hcs.
    by apply Forall_app in Hcs as [Hcs _].
Qed.

Lemma ObjectBuilder_events_frame lo evs :
  forall b h b' h',
    Forall (closure_above lo) (containers b) ->
    lo <= length h ->
    ObjectBuilder_events b h evs = Ok (b', h') ->
    take lo h' = take lo h
    /\ Forall (closure_above lo) (containers b')
    /\ lo <= length h'.
Proof.
  induction evs as [|ev evs IH]; intros b h b' h' Hcs Hlo; simpl.
  - by intros [= <- <-].
  - destruct (ObjectBuilder_event b h ev) as [[b1 h1]|] eqn:Hev; simpl;
      [| done].
    apply (ObjectBuilder_event_frame lo) in Hev as (Ht & Hcs1 & Hlo1);
      [| done | done].
    intros Hrun. apply IH in Hrun as (Ht' & ? & ?); [| done | done].
    by rewrite Ht', Ht.
Qed.

(** X5. A fresh builder never touches an object that existed before it was
    created: whatever events it is fed, well-formed or not, when it has
    taken them without raising the store is the store it started in,
    unchanged, followed by the objects allocated since. *)
Theorem ObjectBuilder_leaves_older_objects_alone :
  forall (evs : list event) (h0 h : heap) (b : ObjectBuilder),
    ObjectBuilder_events ObjectBuilder_init h0 evs = Ok (b, h) ->
    take (length h0) h = h0.
Proof.
  intros evs h0 h b Hrun.
  apply (ObjectBuilder_events_frame (length h0)) in Hrun as (Ht & _ & _).
  - by rewrite Ht, firstn_all.
  - simpl. by repeat constructor.
  - done.
Qed.

Lemma ObjectBuilder_leaves_older_objects_alone_witness :
  take (length [OList [PNum 7]])
    [OList [PNum 7]; OList [PRef 2]; ODict [("a", PNum 1)]]
  = [OList [PNum 7]].
Proof.
  apply (ObjectBuilder_leaves_older_objects_alone
           [start_array; start_map; map_key "a"; number 1; end_array]
           [OList [PNum 7]] _
           {| value := Some (PRef 1); key := Some "a";
              containers := [initial_set; array_append 1] |}).
  reflexivity.
Defined.

Lemma builds_sequence js :
  forall (b : ObjectBuilder) (h : heap),
    containers b = [initial_set] ->
    exists b' news,
      ObjectBuilder_events b h (concat (map events_of js))
      = Ok (b', h ++ news)
      /\ containers b' = [initial_set]
      /\ match last js with
         | Some j =>
             exists v, value b' = Some v
                       /\ repr (length h) (h ++ news) v (last_wins j)
         | None => value b' = value b /\ news = []
         end.
Proof.
  induction js as [|j js IH]; intros b h Hb.
  - exists b, []. simpl. by rewrite app_nil_r.
  - destruct (builds_all j b h [] initial_set Hb I)
      as (v & b1 & h1 & b2 & news1 & Hcall & Hrun & Hc & Hv & Hrepr).
    simpl in Hcall. injection Hcall as <- <-. simpl in Hv.
    rewrite Hb in Hc.
    destruct (IH b2 (h ++ news1) Hc) as (b' & news2 & Hrun' & Hc' & Hlast).
    exists b', (news1 ++ news2). simpl.
    rewrite ObjectBuilder_events_app, Hrun. simpl.
    rewrite Hrun', app_assoc. repeat split; [done |].
    destruct js as [|j' js]; simpl in *.
    + destruct Hlast as [-> ->]. exists v. by rewrite !app_nil_r.
    + destruct (last (j' :: js)) as [jl|] eqn:Hl.
      * destruct Hlast as (v' & Hv' & Hr'). exists v'. split; [done |].
        eapply repr_weaken; [| exact Hr']. rewrite length_app. lia.
      * by apply last_None in Hl.
Qed.

(** X6. A builder is not used up by a value: fed the events of several
    documents one after the other, a fresh builder raises nothing and ends
    with its stack of closures as at the start and with a [value] attribute
    that reads back as the last document (each top-level value replaces the
    one before). *)
Theorem ObjectBuilder_keeps_the_last_document :
  forall (js : list json) (j : json) (h0 : heap),
    last js = Some j ->
    exists b h v,
      ObjectBuilder_events ObjectBuilder_init h0 (concat (map events_of js))
      = Ok (b, h)
      /\ containers b = [initial_set]
      /\ value b = Some v
      /\ reads_as h v j.
Proof.
  intros js j h0 Hlast.
  destruct (builds_sequence js ObjectBuilder_init h0 eq_refl)
    as (b & news & Hrun & Hc & Hv).
  rewrite Hlast in Hv. destruct Hv as (v & Hv & Hrepr).
  exists b, (h0 ++ news), v. repeat split; [done | done | done |].
  by eapply repr_reify.
Qed.

Lemma ObjectBuilder_keeps_the_last_document_witness :
  exists b h v,
    ObjectBuilder_events ObjectBuilder_init []
      (concat (map events_of [JArr [JNum 1]; JObj [("a", JNull)]]))
    = Ok (b, h)
    /\ containers b = [initial_set]
    /\ value b = Some v
    /\ reads_as h v (JObj [("a", JNull)]).
Proof.
  apply (ObjectBuilder_keeps_the_last_document
           [JArr [JNum 1]; JObj [("a", JNull)]] (JObj [("a", JNull)]) []).
  reflexivity.
Defined.

(** X7. An end event that closes nothing is taken silently: after a
    complete document it removes the closure that sets [value], and the
    builder raises [IndexError] at the next event that is not a MapKey (a
    scalar, a start or another end event), the stack of closures being
    empty. *)
Theorem ObjectBuilder_unmatched_end_breaks_the_builder :
  forall (j : json) (h0 : heap) (e ev : event) (rest : list event),
    is_end e = true ->
    (forall k, ev <> map_key k) ->
    (exists b h,
       ObjectBuilder_events ObjectBuilder_init h0 (events_of j ++ [e])
       = Ok (b, h) /\ containers b = [])
    /\ ObjectBuilder_events ObjectBuilder_init h0
         (events_of j ++ e :: ev :: rest)
       = Raise IndexError.
Proof.
  intros j h0 e ev rest He Hev.
  destruct (builds_all j ObjectBuilder_init h0 [] initial_set eq_refl I)
    as (v & b1 & h1 & b2 & news & Hcall & Hrun & Hc & Hv & Hrepr).
  simpl in Hc. split.
  - exists {| value := value b2; key := key b2; containers := [] |},
      (h1 ++ news).
    rewrite ObjectBuilder_events_app, Hrun. simpl.
    destruct e; try discriminate He; simpl; by rewrite Hc.
  - rewrite ObjectBuilder_events_app, Hrun. simpl.
    assert (He' : ObjectBuilder_event b2 (h1 ++ news) e
                  = Ok ({| value := value b2; key := key b2;
                           containers := [] |}, h1 ++ news)).
    { destruct e; try discriminate He; simpl; by rewrite Hc. }
    rewrite He'. simpl.
    destruct ev; simpl; try done. by destruct (Hev k).
Qed.

Lemma ObjectBuilder_unmatched_end_breaks_the_builder_witness :
  (exists b h,
     ObjectBuilder_events ObjectBuilder_init []
       (events_of (JArr [JNum 1]) ++ [end_map]) = Ok (b, h)
     /\ containers b = [])
  /\ ObjectBuilder_events ObjectBuilder_init []
       (events_of (JArr [JNum 1]) ++ end_map :: number 2 :: [null])
     = Raise IndexError.
Proof.
  apply (ObjectBuilder_unmatched_end_breaks_the_builder
           (JArr [JNum 1]) [] end_map (number 2) [null]); [reflexivity |].
  intros k. discriminate.
Defined.

(** X8. A value for a map with no key: when no MapKey event has been fed
    to the builder yet and the closure on top is the setter of a map, a
    scalar or a start event raises [AttributeError] (the [setter] reads
    [self.key], which does not exist yet), the events after it are not
    taken; this is what happens to a fresh builder just after a StartMap. *)
Theorem ObjectBuilder_value_without_key_raises :
  forall (b : ObjectBuilder) (h : heap) (cs : list container) (m : loc)
         (ev : event) (rest : list event),
    key b = None ->
    containers b = cs ++ [setter m] ->
    (is_scalar ev || is_start ev) = true ->
    ObjectBuilder_events b h (ev :: rest) = Raise AttributeError.
Proof.
  intros b h cs m ev rest Hk Hc Hev.
  destruct ev; try discriminate Hev; simpl;
    by rewrite Hc, py_last_snoc; simpl; rewrite Hk.
Qed.

Lemma ObjectBuilder_value_without_key_raises_witness :
  ObjectBuilder_events ObjectBuilder_init [] [start_map; number 1; end_map]
  = Raise AttributeError.
Proof.
  change (ObjectBuilder_events
            {| value := Some (PRef 0); key := None;
               containers := [initial_set] ++ [setter 0] |}
            [ODict []] (number 1 :: [end_map])
          = Raise AttributeError).
  apply (ObjectBuilder_value_without_key_raises _ _ [initial_set] 0);
    reflexivity.
Defined.

(** ** Prefix extraction, on any sequence of prefixed events *)

(** X9. When no start event carries the target prefix, [items] builds
    nothing: it yields the values of the events that carry the target
    prefix, in order (the key for a MapKey event, [None] for an end event),
    allocates no object, and ends as its source ends. *)
Theorem items_without_containers_is_a_filter :
  forall (prefix : string) (ended : option exn) (pes : list prefixed),
    Forall (fun pe => pe.1 = prefix -> is_start pe.2 = false) pes ->
    items (pes, ended) prefix
    = (map (fun pe => event_value pe.2) (at_prefix prefix pes), [], ended).
Proof.
  intros prefix ended pes. unfold items, at_prefix. simpl.
  generalize (@nil obj) as h.
  induction pes as [|[current ev] pes IH]; intros h Hall; [done |].
  inversion Hall as [|? ? Hpe Hrest]; subst. simpl in Hpe.
  simpl. rewrite filter_cons. simpl.
  destruct (String.eqb_spec current prefix) as [-> | Hne].
  - rewrite (Hpe eq_refl), (IH h Hrest).
    by rewrite decide_True.
  - rewrite (IH h Hrest). by rewrite decide_False.
Qed.

Lemma items_without_containers_is_a_filter_witness :
  items ([("", start_map); ("", map_key "a"); ("a", number 1);
          ("", map_key "b"); ("b", null); ("", map_key "a"); ("a", number 2);
          ("", end_map)], Some ValueError) "a"
  = ([PNum 1; PNum 2], [], Some ValueError).
Proof.
  apply (items_without_containers_is_a_filter "a" (Some ValueError)
           [("", start_map); ("", map_key "a"); ("a", number 1);
            ("", map_key "b"); ("b", null); ("", map_key "a");
            ("a", number 2); ("", end_map)]).
  repeat constructor; simpl; intros; done.
Defined.

Lemma at_prefix_cons_le prefix pe pes :
  length (at_prefix prefix pes) <= length (at_prefix prefix (pe :: pes)).
Proof.
  unfold at_prefix. rewrite filter_cons. case_decide; simpl; lia.
Qed.

Lemma items_loops_bounds prefix ended pes :
  (forall h,
     length (items_from prefix ended h pes).1.1
     <= length (at_prefix prefix pes)
     /\ ((items_from prefix ended h pes).2 = ended
         \/ exists e, (items_from prefix ended h pes).2 = Some e
                      /\ is_lookup_error e))
  /\ (forall builder end_ev h,
        length (items_build prefix ended builder end_ev h pes).1.1
        <= length (at_prefix prefix pes)
        /\ ((items_build prefix ended builder end_ev h pes).2 = ended
            \/ exists e,
                 (items_build prefix ended builder end_ev h pes).2 = Some e
                 /\ is_lookup_error e)).
Proof.
  induction pes as [|[current ev] pes [IHfrom IHbuild]].
  - split; intros; simpl; auto with lia.
  - pose proof (at_prefix_cons_le prefix (current, ev) pes) as Hle.
    split.
    + intros h. simpl.
      destruct (String.eqb_spec current prefix) as [-> | Hne].
      * destruct (is_start ev).
        -- destruct (ObjectBuilder_event ObjectBuilder_init h ev)
             as [[b h1]|e] eqn:Hev.
           ++ destruct (IHbuild b (end_event ev) h1) as [Hlen Hend].
              split; [lia | done].
           ++ simpl. split; [lia |]. right. exists e. split; [done |].
              eapply ObjectBuilder_event_raises, Hev.
        -- destruct (IHfrom h) as [Hlen Hend].
           destruct (items_from prefix ended h pes) as [[ys h'] r].
           simpl in *. split; [| done].
           unfold at_prefix in *. rewrite filter_cons, decide_True by done.
           simpl. lia.
      * destruct (IHfrom h) as [Hlen Hend]. split; [lia | done].
    + intros builder end_ev h. simpl.
      case_bool_decide as Heq.
      * injection Heq as -> ->.
        destruct (value builder) as [v|].
        -- destruct (IHfrom h) as [Hlen Hend].
           destruct (items_from prefix ended h pes) as [[ys h'] r].
           simpl in *. split; [| done].
           unfold at_prefix in *. rewrite filter_cons, decide_True by done.
           simpl. lia.
        -- simpl. split; [lia |]. right. exists AttributeError.
           split; [done |]. red. auto.
      * destruct (ObjectBuilder_event builder h ev) as [[b' h']|e] eqn:Hev.
        -- destruct (IHbuild b' end_ev h') as [Hlen Hend].
           split; [lia | done].
        -- simpl. split; [lia |]. right. exists e. split; [done |].
           eapply ObjectBuilder_event_raises, Hev.
Qed.

(** X10. Whatever its source yields, [items] yields at most one value for
    each event that carries the target prefix, and it ends the way its
    source ends (exhausted, or by the exception the source raised) unless
    one of its builders raised, which can only be an [IndexError], a
    [TypeError] or an [AttributeError]. *)
Theorem items_yields_and_raises_within_bounds :
  forall (prefix : string) (ended : option exn) (pes : list prefixed),
    length (items (pes, ended) prefix).1.1 <= length (at_prefix prefix pes)
    /\ ((items (pes, ended) prefix).2 = ended
        \/ exists e, (items (pes, ended) prefix).2 = Some e
                     /\ is_lookup_error e).
Proof.
  intros prefix ended pes. unfold items. simpl.
  apply (items_loops_bounds prefix ended pes).
Qed.

(** ** Dotted prefixes: [split] and [join] *)

Lemma join_String c x r : join (String c x :: r) = String c (join (x :: r)).
Proof. destruct r; [done |]. simpl. by rewrite string_app_cons. Qed.

Lemma split_dots_not_nil s : split_dots s <> [].
Proof.
  destruct s as [|c s]; simpl; [done |].
  destruct (Ascii.eqb c "."); [done |]. by destruct (split_dots s).
Qed.

(** X11. Splitting a dotted prefix as [ijsondict] does and joining the
    segments as [parse] does gives the string back, whatever the string
    (empty, with leading, trailing or doubled dots); the split always has at
    least one segment, so the target of an [ijsondict] given a string is
    never the empty list. *)
Theorem join_of_split_dots :
  forall s : string, join (split_dots s) = s /\ split_dots s <> [].
Proof.
  intros s. split; [| apply split_dots_not_nil].
  induction s as [|c s IH]; simpl; [done |].
  destruct (Ascii.eqb_spec c "."%char) as [-> | Hne].
  - pose proof (split_dots_not_nil s) as Hs.
    destruct (split_dots s) as [|x r] eqn:Hsplit; [done |].
    change (join ("" :: x :: r)) with ("" +:+ "." +:+ join (x :: r)).
    rewrite IH. reflexivity.
  - destruct (split_dots s) as [|x r] eqn:Hsplit.
    + by destruct (split_dots_not_nil s).
    + by rewrite join_String, IH.
Qed.

Lemma split_dots_dot_free s : dot_free s = true -> split_dots s = [s].
Proof.
  induction s as [|c s IH]; simpl; [done |].
  destruct (Ascii.eqb c "."); simpl; [done |].
  intros Hs. by rewrite (IH Hs).
Qed.

Lemma split_dots_segment s t :
  dot_free s = true -> split_dots (s +:+ "." +:+ t) = s :: split_dots t.
Proof.
  induction s as [|c s IH]; [done |].
  rewrite string_app_cons. simpl.
  destruct (Ascii.eqb c "."); simpl; [done |].
  intros Hs. by rewrite (IH Hs).
Qed.

(** X12. A path whose segments hold no dot (and that has at least one
    segment) is recovered from its dotted prefix: splitting, as [ijsondict]
    does, the prefix that [parse] makes by joining the segments gives the
    segments back. *)
Theorem split_dots_of_join :
  forall l : list string,
    l <> [] ->
    forallb dot_free l = true ->
    split_dots (join l) = l.
Proof.
  induction l as [|s l IH]; [done |]. intros _ Hl.
  simpl in Hl. apply andb_prop in Hl as [Hs Hl].
  destruct l as [|s' l].
  - by apply split_dots_dot_free.
  - rewrite join_cons by done. rewrite (split_dots_segment _ _ Hs).
    by rewrite IH.
Qed.

Lemma split_dots_of_join_witness :
  split_dots (join ["data"; "item"; ""]) = ["data"; "item"; ""].
Proof.
  apply (split_dots_of_join ["data"; "item"; ""]); [done | reflexivity].
Defined.

(** ** The generator of an [ijsondict], on any sequence of events *)

Lemma json_generator_branch_flag yf st ev st1 v yf1 o :
  json_generator_branch yf st ev = (st1, v, yf1, o) ->
  yf1 = true -> yf = true \/ completes ev = true.
Proof.
  destruct (completes ev) eqn:Hc; [auto |].
  unfold json_generator_branch.
  destruct ev; try discriminate Hc; simpl.
  - destruct (set_key st k). intros [= <- <- <- <-]. auto.
  - destruct (link_push st (store st ++ [ODict []]) (length (store st))).
    intros [= <- <- <- <-]. auto.
  - destruct (link_push st (store st ++ [OList []]) (length (store st))).
    intros [= <- <- <- <-]. auto.
Qed.

Lemma json_generator_step_flag P yf st ev st' yf' o :
  json_generator_step P yf st ev = (st', yf', o) ->
  (if yf' then 1 else 0) + (match o with Yield _ => 1 | _ => 0 end)
  <= (if yf then 1 else 0) + (if completes ev then 1 else 0).
Proof.
  unfold json_generator_step.
  destruct (json_generator_branch yf st ev) as [[[st1 v1] yf1] o1] eqn:Hb.
  pose proof (json_generator_branch_flag _ _ _ _ _ _ _ Hb) as Hflag.
  apply json_generator_branch_outcome in Hb as [-> | Hf].
  - destruct (yf1 && bool_decide (keys_stack st1 = P)) eqn:Hy;
      intros [= <- <- <-].
    + apply andb_prop in Hy as [-> _].
      destruct (Hflag eq_refl) as [-> | ->]; simpl; lia.
    + destruct yf1; [| simpl; lia].
      destruct (Hflag eq_refl) as [-> | ->]; simpl; lia.
  - destruct o1; try discriminate Hf. intros [= <- <- <-].
    destruct yf1; [| simpl; lia].
    destruct (Hflag eq_refl) as [-> | ->]; simpl; lia.
Qed.

Lemma json_generator_from_bound P evs :
  forall yf st,
    length (json_generator_from P yf st evs).1.1
    <= count_events completes evs + (if yf then 1 else 0).
Proof.
  unfold count_events.
  induction evs as [|ev evs IH]; intros yf st; [simpl; lia |].
  rewrite json_generator_from_cons.
  destruct (json_generator_step P yf st ev) as [[st' yf'] o] eqn:Hstep.
  apply json_generator_step_flag in Hstep. specialize (IH yf' st').
  simpl List.filter.
  destruct o; simpl in *; destruct (completes ev), yf, yf'; simpl in *;
    try rewrite length_app; simpl; lia.
Qed.

(** X13. The generator yields at most once for each scalar or end event it
    pulls: [yield_flag] is set by those events only and cleared by each
    yield, so that the number of values yielded never exceeds the number of
    values completed (plus one when the loop is entered with the flag
    set). *)
Theorem generator_yields_at_most_once_per_completion :
  (forall (self_prefix : list string) (st : stacks) (parser : list event),
     length (json_generator self_prefix st parser).1.1
     <= count_events completes parser)
  /\ (forall (self_prefix : list string) (yield_flag : bool) (st : stacks)
             (parser : list event),
        length (json_generator_from self_prefix yield_flag st parser).1.1
        <= count_events completes parser + (if yield_flag then 1 else 0)).
Proof.
  split; [| intros; apply json_generator_from_bound].
  intros P st evs. unfold json_generator.
  destruct (json_generator_enter st) as [st' o].
  destruct o; try (simpl; lia).
  pose proof (json_generator_from_bound P evs false st') as H.
  change (if false then 1 else 0) with 0 in H. lia.
Qed.

(** ** Generator objects *)

Lemma generators_app h o :
  generators (h ++ [o]) = generators h + (if is_generator o then 1 else 0).
Proof.
  unfold generators. rewrite List.filter_app, length_app. simpl.
  by destruct (is_generator o).
Qed.

Lemma generators_insert h l o o' :
  h !! l = Some o ->
  is_generator o = is_generator o' ->
  generators (<[l := o']> h) = generators h.
Proof.
  unfold generators. revert l.
  induction h as [|x h IH]; intros [|l] Hl Heq; simplify_eq/=.
  - rewrite Heq. by destruct (is_generator o').
  - destruct (is_generator x); simpl; by rewrite (IH l Hl Heq).
Qed.

Lemma assign_generators h d k v h1 :
  assign h d k v = Ok h1 -> generators h1 = generators h.
Proof.
  unfold assign, store_setitem, store_append.
  destruct (h !! d) as [[dd | xs |]|] eqn:Hd; simpl; intros [= <-];
    by eapply generators_insert.
Qed.

Lemma link_push_generators st h this st' o :
  link_push st h this = (st', o) -> generators (store st') = generators h.
Proof.
  unfold link_push, link.
  destruct (keys_stack st) as [|k0 ks] eqn:Hk.
  - by intros [= <- <-].
  - destruct (py_last (k0 :: ks)) as [k|]; simpl;
      [| by intros [= <- <-]].
    destruct (py_last (data_stack st)) as [d|]; simpl;
      [| by intros [= <- <-]].
    destruct (assign h d k (PRef this)) as [h'|] eqn:Ha;
      intros [= <- <-]; simpl; [| done].
    by eapply assign_generators.
Qed.

Lemma pop_both_store st st' top o :
  pop_both st = (st', top, o) -> store st' = store st.
Proof.
  unfold pop_both.
  destruct (py_pop (keys_stack st)) as [[ks k]|]; [| by intros [= <-]].
  destruct (py_pop (data_stack st)) as [[ds d]|]; by intros [= <-].
Qed.

Lemma set_key_store st k st' o :
  set_key st k = (st', o) -> store st' = store st.
Proof.
  unfold set_key. destruct (py_set_last (keys_stack st) k);
    by intros [= <-].
Qed.

Lemma assign_top_generators st v st' o :
  assign_top st v = (st', o) -> generators (store st') = generators (store st).
Proof.
  unfold assign_top.
  destruct (py_last (keys_stack st)) as [k|]; [| by intros [= <-]].
  destruct (py_last (data_stack st)) as [d|]; [| by intros [= <-]].
  destruct (assign (store st) d k v) as [h|] eqn:Ha; intros [= <- <-];
    simpl; [| done].
  by eapply assign_generators.
Qed.

Lemma start_parse_step_generators self P first st token st' first' o :
  start_parse_step self P first st token = (st', first', o) ->
  generators (store st')
  <= generators (store st) + (match o with Next => 0 | _ => 1 end).
Proof.
  unfold start_parse_step, alloc.
  destruct (is_start token) eqn:Hs.
  - case_bool_decide.
    + destruct (link_push st (store st ++ [OGen]) (length (store st)))
        as [st1 o1] eqn:Hl.
      apply link_push_generators in Hl. rewrite generators_app in Hl.
      destruct o1; intros [= <- <- <-]; simpl in *; lia.
    + destruct first.
      * destruct (link_push st (store st) self) as [st1 o1] eqn:Hl.
        apply link_push_generators in Hl. intros [= <- <- <-]. lia.
      * destruct token; try discriminate Hs; simpl;
          match goal with
          | |- context [link_push ?s ?h ?t] =>
              destruct (link_push s h t) as [st1 o1] eqn:Hl
          end;
          apply link_push_generators in Hl; rewrite generators_app in Hl;
          intros [= <- <- <-]; simpl in *; lia.
  - destruct (is_end token).
    + destruct (pop_both st) as [[st1 top] o1] eqn:Hp.
      apply pop_both_store in Hp. intros [= <- <- <-]. rewrite Hp. lia.
    + destruct token; try discriminate Hs;
        try (destruct (assign_top st _) as [st1 o1] eqn:Ha;
             apply assign_top_generators in Ha; intros [= <- <- <-]; lia).
      destruct (set_key st k) as [st1 o1] eqn:Hk.
      apply set_key_store in Hk. intros [= <- <- <-]. rewrite Hk. lia.
Qed.

Lemma start_parse_from_generators self P evs :
  forall first st st' rest o,
    start_parse_from self P first st evs = (st', rest, o) ->
    generators (store st')
    <= generators (store st) + (match o with Next => 0 | _ => 1 end).
Proof.
  induction evs as [|ev evs IH]; intros first st st' rest o.
  - intros [= <- <- <-]. simpl. lia.
  - rewrite start_parse_from_cons.
    destruct (start_parse_step self P first st ev) as [[st1 first1] o1]
      eqn:Hstep.
    apply start_parse_step_generators in Hstep.
    destruct o1; try (intros [= <- <- <-]; exact Hstep).
    intros Hrun. apply IH in Hrun. lia.
Qed.

Lemma json_generator_step_generators P yf st token st' yf' o :
  json_generator_step P yf st token = (st', yf', o) ->
  generators (store st') = generators (store st).
Proof.
  unfold json_generator_step.
  destruct (json_generator_branch yf st token) as [[[st1 v1] yf1] o1]
    eqn:Hb.
  assert (Hg : generators (store st1) = generators (store st)).
  { revert Hb. unfold json_generator_branch, alloc.
    destruct (is_start token) eqn:Hs.
    - destruct token; try discriminate Hs; simpl;
        match goal with
        | |- context [link_push ?s ?h ?t] =>
            destruct (link_push s h t) as [st2 o2] eqn:Hl
        end;
        apply link_push_generators in Hl; rewrite generators_app in Hl;
        intros [= <- <- <- <-]; simpl in *; lia.
    - destruct (is_end token).
      + destruct (pop_both st) as [[st2 top] o2] eqn:Hp.
        apply pop_both_store in Hp.
        destruct top as [t|]; [destruct o2 |]; intros [= <- <- <- <-];
          by rewrite Hp.
      + destruct token; try discriminate Hs;
          try (destruct (assign_top st _) as [st2 o2] eqn:Ha;
               apply assign_top_generators in Ha;
               destruct o2; intros [= <- <- <- <-]; done).
        destruct (set_key st k) as [st2 o2] eqn:Hk.
        apply set_key_store in Hk. intros [= <- <- <- <-]. by rewrite Hk. }
  destruct o1; try (intros [= <- <- <-]; exact Hg).
  destruct (yf1 && bool_decide (keys_stack st1 = P));
    intros [= <- <- <-]; exact Hg.
Qed.

Lemma json_generator_from_generators P evs :
  forall yf st,
    generators (store (json_generator_from P yf st evs).1.2)
    = generators (store st).
Proof.
  induction evs as [|ev evs IH]; intros yf st; [done |].
  rewrite json_generator_from_cons.
  destruct (json_generator_step P yf st ev) as [[st' yf'] o] eqn:Hstep.
  apply json_generator_step_generators in Hstep.
  destruct o; simpl; rewrite ?IH; done.
Qed.

Lemma json_generator_generators P st evs :
  generators (store (json_generator P st evs).1.2) = generators (store st).
Proof.
  unfold json_generator, json_generator_enter, alloc.
  destruct (py_set_last (data_stack st) (length (store st))) as [ds|];
    simpl; [| by rewrite generators_app; simpl; lia].
  rewrite json_generator_from_generators. simpl.
  rewrite generators_app. simpl. lia.
Qed.

(** X14. Only the first place at the target is streamed: a pass creates
    at most one generator object.  [_start_parse] creates one when it hands
    over, and stops; the generator itself creates only dicts and lists, so
    that a later container at the same path is built as a plain list or dict
    and the number of generator objects of the store does not change. *)
Theorem pass_creates_at_most_one_generator :
  (forall (parser : list event) (prefix : list string),
     generators (store (ijsondict_list_drained parser prefix).1.2) <= 1)
  /\ (forall (self_prefix : list string) (st : stacks)
             (parser : list event),
        generators (store (json_generator self_prefix st parser).1.2)
        = generators (store st)).
Proof.
  split; [| intros; apply json_generator_generators].
  intros evs P. unfold ijsondict_list_drained, ijsondict_list.
  destruct (start_parse_from 0 P true ijsondict_init evs)
    as [[st rest] o] eqn:Hrun.
  apply start_parse_from_generators in Hrun.
  change (generators (store ijsondict_init)) with 0 in Hrun.
  destruct o; simpl; rewrite ?json_generator_generators; simpl in Hrun; lia.
Qed.

(** ** Whole passes of an [ijsondict] *)

Lemma all_stream self P (xs : list json) : Forall (streams self P) xs.
Proof. apply Forall_forall. intros. apply streams_all. Qed.

Lemma all_members_stream self P (kvs : list (string * json)) :
  Forall (fun kv => streams self P kv.2) kvs.
Proof. apply Forall_forall. intros. apply streams_all. Qed.

(** X15. When the first segment of a target of two segments or more is not
    a key of the root object, [_start_parse] never hands over: it pulls
    every event, raises nothing, creates no generator object, ends with
    both stacks empty, and the dict itself reads back as the whole document
    (the last occurrence of a repeated key winning). *)
Theorem ijsondict_without_its_target_is_the_document :
  forall (kvs : list (string * json)) (p1 p2 : string) (P : list string),
    key_absent p1 kvs = true ->
    exists h,
      ijsondict_list (events_of (JObj kvs)) (p1 :: p2 :: P)
      = (mkStacks [] [] h, [], Next)
      /\ reads_as h (PRef 0) (JObj kvs)
      /\ generators h = 0.
Proof.
  intros kvs p1 p2 P0 Habs. set (P := p1 :: p2 :: P0).
  set (st1 := mkStacks ["item"] [0] [ODict []]).
  destruct (streams_members 0 P kvs (all_members_stream 0 P kvs) st1 []
              "item" [] 0 [] eq_refl eq_refl eq_refl)
    as (k' & H' & vs & _ & Hl & Hrepr & _ & _ & Hdesc).
  assert (Hnh : Forall (fun kv => no_handoff_from ([] ++ [kv.1]) P) kvs).
  { apply Forall_forall. intros kv Hin q. simpl. intros [= Hk _].
    apply list_elem_of_In in Hin. by apply (key_absent_ne p1 kvs kv). }
  specialize (Hdesc Hnh [end_map]).
  assert (Hrun : ijsondict_list (events_of (JObj kvs)) P
                 = (mkStacks [] [] H', [], Next)).
  { unfold ijsondict_list. simpl events_of. rewrite start_parse_from_cons.
    assert (start_parse_step 0 P true ijsondict_init start_map
            = (st1, false, Next)) as -> by reflexivity.
    rewrite Hdesc, start_parse_from_cons.
    match goal with
    | |- context [start_parse_step 0 P false ?s end_map] =>
        by rewrite (start_parse_end 0 P false s end_map [] k' [] 0
                      eq_refl eq_refl eq_refl)
    end. }
  exists H'. split; [exact Hrun | split].
  - apply (repr_reify 0); [| done]. simpl last_wins.
    eapply repr_obj; [lia | exact Hl |].
    apply (dict_update_repr 0 H' kvs vs [] []); [constructor |].
    eapply Forall2_impl; [exact Hrepr |]. intros v j Hr.
    eapply repr_weaken; [| exact Hr]. lia.
  - apply start_parse_from_generators in Hrun. simpl in Hrun.
    unfold generators in *. simpl in Hrun. lia.
Qed.

Lemma ijsondict_without_its_target_is_the_document_witness :
  exists h,
    ijsondict_list
      (events_of (JObj [("columns", JArr [JStr "n"]); ("rows", JNum 2)]))
      ("data" :: "item" :: [])
    = (mkStacks [] [] h, [], Next)
    /\ reads_as h (PRef 0)
         (JObj [("columns", JArr [JStr "n"]); ("rows", JNum 2)])
    /\ generators h = 0.
Proof.
  apply (ijsondict_without_its_target_is_the_document
           [("columns", JArr [JStr "n"]); ("rows", JNum 2)] "data" "item" []).
  reflexivity.
Defined.

(** X16. With the target [item], a root array is streamed whole: the
    handover happens at its StartArray, the drained generator yields every
    element once, in order, each reading back as the element, nothing is
    raised, the stacks end empty, and the dict itself stays empty: the
    generator object exists in the store but, the keys stack being empty at
    the handover, it is assigned into no entry of the dict. *)
Theorem ijsondict_streams_a_root_array :
  forall xs : list json,
    exists vs h,
      ijsondict_drained (events_of (JArr xs)) "item"
      = (vs, mkStacks [] [] h, None)
      /\ Forall2 (reads_as h) vs xs
      /\ h !! 0 = Some (ODict [])
      /\ h !! 1 = Some OGen.
Proof.
  intros xs. set (P := ["item"]).
  set (st4 := mkStacks ["item"] [2] [ODict []; OGen; OList []]).
  destruct (streams_elements 0 P xs (all_stream 0 P xs) st4 [] "item" [] 2 []
              eq_refl eq_refl eq_refl)
    as (H4 & vs & Htake & Hl4 & Hrepr & Hkept & Hgen & _).
  destruct (Hgen (target_not_below_length _ _ (le_n _)) false [end_array])
    as [yf Hrun].
  rewrite bool_decide_eq_true_2 in Hrun by done.
  exists vs, H4. split; [| split; [| split]].
  - unfold ijsondict_drained.
    change (split_dots "item") with P.
    unfold ijsondict_list_drained, ijsondict_list. simpl events_of.
    rewrite start_parse_from_cons.
    assert (start_parse_step 0 P true ijsondict_init start_array
            = (mkStacks ["item"] [1] [ODict []; OGen], true, Break))
      as -> by reflexivity.
    unfold json_generator.
    assert (json_generator_enter (mkStacks ["item"] [1] [ODict []; OGen])
            = (st4, Next)) as -> by reflexivity.
    rewrite Hrun, json_generator_from_cons.
    match goal with
    | |- context [json_generator_step P yf ?s end_array] =>
        rewrite (generator_end P yf s end_array [] "item" [] 2
                   eq_refl eq_refl eq_refl)
    end.
    rewrite (bool_decide_eq_false_2 ([] = P)) by done.
    unfold yield_first. simpl. by rewrite app_nil_r.
  - rewrite Forall2_fmap_r in Hrepr.
    eapply Forall2_impl; [exact Hrepr |]. intros v j Hr. simpl in Hr.
    by eapply repr_reify.
  - by rewrite (lookup_of_take 2 _ H4 0 Htake) by lia.
  - by rewrite (lookup_of_take 2 _ H4 1 Htake) by lia.
Qed.

Lemma root_array_elements P xs :
  no_handoff_from ["item"] P ->
  forall st dd,
    keys_stack st = ["item"] ->
    data_stack st = [0] ->
    store st !! 0 = Some (ODict dd) ->
    (dd = [] \/ exists w, dd = [("item", w)]) ->
    exists H' dd',
      (forall rest,
         start_parse_from 0 P false st (concat (map events_of xs) ++ rest)
         = start_parse_from 0 P false (mkStacks ["item"] [0] H') rest)
      /\ H' !! 0 = Some (ODict dd')
      /\ match last xs with
         | Some x =>
             exists v, dd' = [("item", v)] /\ repr 1 H' v (last_wins x)
         | None => dd' = dd /\ H' = store st
         end.
Proof.
  intros Hnh. induction xs as [|x xs IH]; intros st dd Hk Hd Hl Hdd.
  - exists (store st), dd. repeat split; [| done].
    intros rest. destruct st; simpl in *. by subst.
  - destruct (streams_all 0 P x st [] "item" [] 0 Hk Hd)
      as (v & h1 & news & Hassign & Hrepr & _ & Hdesc).
    { by exists (ODict dd). }
    rewrite Hk, Hd in Hdesc. specialize (Hdesc Hnh).
    rewrite (assign_dict _ _ _ _ dd Hl) in Hassign. injection Hassign as <-.
    pose proof (lookup_lt_Some _ _ _ Hl) as Hlen.
    set (h1 := <[0 := ODict (dict_set dd "item" v)]> (store st)) in *.
    assert (Hl1 : (h1 ++ news) !! 0
                  = Some (ODict (dict_set dd "item" v))).
    { apply lookup_app_l_Some. by apply list_lookup_insert_eq. }
    assert (Hdd1 : dict_set dd "item" v = [("item", v)]).
    { by destruct Hdd as [-> | [w ->]]. }
    destruct (IH (mkStacks ["item"] [0] (h1 ++ news))
                (dict_set dd "item" v) eq_refl eq_refl Hl1)
      as (H' & dd' & Hrun & Hl' & Hlast).
    { right. eauto. }
    exists H', dd'. split; [| split; [done |]].
    + intros rest. simpl. by rewrite <- app_assoc, Hdesc, Hrun.
    + destruct xs as [|x' xs].
      * simpl in *. destruct Hlast as [-> ->]. exists v. split; [done |].
        eapply repr_weaken; [| exact Hrepr]. lia.
      * change (last (x :: x' :: xs)) with (last (x' :: xs)).
        destruct (last (x' :: xs)) eqn:Hl2; [exact Hlast |].
        by apply last_None in Hl2.
Qed.

(** X17. A root array goes into the dict itself under the key [item]:
    when the target (of two segments or more) does not start with [item],
    [_start_parse] pulls every event of a non-empty root array and raises
    nothing, and the dict ends with the single key [item], whose value reads
    back as the last element of the array (the elements are assigned to
    [self["item"]] one after the other). *)
Theorem ijsondict_keeps_the_last_element_of_a_root_array :
  forall (xs : list json) (x : json) (p1 p2 : string) (P : list string),
    p1 <> "item" ->
    last xs = Some x ->
    exists h v,
      ijsondict_list (events_of (JArr xs)) (p1 :: p2 :: P)
      = (mkStacks [] [] h, [], Next)
      /\ h !! 0 = Some (ODict [("item", v)])
      /\ reads_as h v x.
Proof.
  intros xs x p1 p2 P0 Hp1 Hlast. set (P := p1 :: p2 :: P0).
  assert (Hnh : no_handoff_from ["item"] P).
  { intros q. simpl. intros [= Hk _]. by destruct Hp1. }
  destruct (root_array_elements P xs Hnh (mkStacks ["item"] [0] [ODict []])
              [] eq_refl eq_refl eq_refl (or_introl eq_refl))
    as (H' & dd' & Hrun & Hl' & Hx).
  rewrite Hlast in Hx. destruct Hx as (v & -> & Hrepr).
  exists H', v. split; [| split; [done |]].
  - unfold ijsondict_list. simpl events_of. rewrite start_parse_from_cons.
    assert (start_parse_step 0 P true ijsondict_init start_array
            = (mkStacks ["item"] [0] [ODict []], false, Next))
      as -> by reflexivity.
    rewrite Hrun, start_parse_from_cons.
    match goal with
    | |- context [start_parse_step 0 P false ?s end_array] =>
        by rewrite (start_parse_end 0 P false s end_array [] "item" [] 0
                      eq_refl eq_refl eq_refl)
    end.
  - by eapply repr_reify.
Qed.

Lemma ijsondict_keeps_the_last_element_of_a_root_array_witness :
  exists h v,
    ijsondict_list (events_of (JArr [JNum 1; JArr [JNum 2]; JNum 3]))
      ("data" :: "item" :: [])
    = (mkStacks [] [] h, [], Next)
    /\ h !! 0 = Some (ODict [("item", v)])
    /\ reads_as h v (JNum 3).
Proof.
  apply (ijsondict_keeps_the_last_element_of_a_root_array
           [JNum 1; JArr [JNum 2]; JNum 3] (JNum 3) "data" "item" []);
    [discriminate | reflexivity].
Defined.

(** ** The value of a builder before the end of the document *)

(** X18. The object being built is available before it is complete: once
    a fresh builder has taken a StartArray and the events of some elements
    (or a StartMap and the events of some members), and before any end
    event, its [value] attribute already reads back as the array of those
    elements (as the object of those members). *)
Theorem ObjectBuilder_value_before_the_end :
  (forall (xs : list json) (h0 : heap),
     exists b h v,
       ObjectBuilder_events ObjectBuilder_init h0
         (start_array :: concat (map events_of xs)) = Ok (b, h)
       /\ value b = Some v
       /\ reads_as h v (JArr xs))
  /\ (forall (kvs : list (string * json)) (h0 : heap),
        exists b h v,
          ObjectBuilder_events ObjectBuilder_init h0
            (start_map :: members_events kvs) = Ok (b, h)
          /\ value b = Some v
          /\ reads_as h v (JObj kvs)).
Proof.
  split.
  - intros xs h0. set (l := length h0).
    set (b1 := {| value := Some (PRef l); key := None;
                  containers := [initial_set; array_append l] |}).
    destruct (build_elements xs
                ltac:(apply Forall_forall; intros; apply builds_all)
                b1 (h0 ++ [OList []]) [initial_set] l [] eq_refl
                (list_lookup_middle _ _ _ _ eq_refl))
      as (b' & H' & vs & Hrun & _ & Hv & _ & Hl & Hrepr & _).
    exists b', H', (PRef l). split; [| split; [done |]].
    + change (start_array :: concat (map events_of xs))
        with ([start_array] ++ concat (map events_of xs)).
      rewrite ObjectBuilder_events_app. exact Hrun.
    + apply (repr_reify 0); [| done]. simpl last_wins.
      eapply repr_arr; [lia | exact Hl |]. simpl.
      eapply Forall2_impl; [exact Hrepr |]. intros v j Hr.
      eapply repr_weaken; [| exact Hr]. lia.
  - intros kvs h0. set (l := length h0).
    set (b1 := {| value := Some (PRef l); key := None;
                  containers := [initial_set; setter l] |}).
    destruct (build_members kvs
                ltac:(apply Forall_forall; intros; apply builds_all)
                b1 (h0 ++ [ODict []]) [initial_set] l [] [] eq_refl
                (list_lookup_middle _ _ _ _ eq_refl)
                ltac:(constructor))
      as (b' & H' & d' & Hrun & _ & Hv & _ & Hl & Hrepr & _).
    exists b', H', (PRef l). split; [| split; [done |]].
    + change (start_map :: members_events kvs)
        with ([start_map] ++ members_events kvs).
      rewrite ObjectBuilder_events_app. exact Hrun.
    + apply (repr_reify 0); [| done]. simpl last_wins.
      eapply repr_obj; [lia | exact Hl |].
      eapply Forall2_impl; [exact Hrepr |]. intros kv kj [Hk Hr].
      split; [done |]. eapply repr_weaken; [| exact Hr]. lia.
Qed.

(** ** What [items] leaves alone *)

Lemma items_loops_frame prefix ended pes :
  (forall h,
     take (length h) (items_from prefix ended h pes).1.2 = h)
  /\ (forall builder end_ev h lo,
        lo <= length h ->
        Forall (closure_above lo) (containers builder) ->
        take lo (items_build prefix ended builder end_ev h pes).1.2
        = take lo h).
Proof.
  induction pes as [|[current ev] pes [IHfrom IHbuild]].
  - split; intros; simpl; [by rewrite firstn_all | done].
  - split.
    + intros h. simpl.
      destruct (String.eqb current prefix).
      * destruct (is_start ev).
        -- destruct (ObjectBuilder_event ObjectBuilder_init h ev)
             as [[b h1]|e] eqn:Hev; [| by simpl; rewrite firstn_all].
           apply (ObjectBuilder_event_frame (length h)) in Hev
             as (Ht & Hcs & Hlo); [| by repeat constructor | done].
           rewrite (IHbuild b (end_event ev) h1 (length h) Hlo Hcs), Ht.
           by rewrite firstn_all.
        -- specialize (IHfrom h).
           by destruct (items_from prefix ended h pes) as [[ys h'] r].
      * apply IHfrom.
    + intros builder end_ev h lo Hlo Hcs. simpl.
      case_bool_decide as Heq.
      * destruct (value builder) as [v|]; [| done].
        specialize (IHfrom h).
        destruct (items_from prefix ended h pes) as [[ys h'] r].
        simpl in *.
        transitivity (take lo (take (length h) h')); [| by rewrite IHfrom].
        rewrite take_take. f_equal. lia.
      * destruct (ObjectBuilder_event builder h ev) as [[b' h']|e] eqn:Hev;
          [| done].
        apply (ObjectBuilder_event_frame lo) in Hev
          as (Ht & Hcs' & Hlo'); [| done | done].
        by rewrite (IHbuild b' end_ev h' lo Hlo' Hcs'), Ht.
Qed.

(** X19. A value yielded by [items] is not touched afterwards.  When the
    outer loop of [items] comes to the events of a document that sits at the
    path [p], it yields the occurrences of the target in that document
    first, and whatever prefixed events follow (well-formed or not), these
    values still read back as those occurrences in the store the run ends
    with, in which the objects that existed at the start are unchanged. *)
Theorem items_leaves_yielded_values_alone :
  forall (target : string) (ended : option exn) (j : json)
         (p : list string) (h : heap) (rest : list prefixed),
    (p = [] -> target = "" -> empty_key_object j = false) ->
    exists vs later,
      (items_from target ended h (annotate p j ++ rest)).1.1 = vs ++ later
      /\ Forall2
           (reads_as (items_from target ended h (annotate p j ++ rest)).1.2)
           vs (occurrences target p j)
      /\ take (length h)
           (items_from target ended h (annotate p j ++ rest)).1.2 = h.
Proof.
  intros target ended j p h rest Hroot.
  destruct (extracts_all target ended j p h rest Hroot)
    as (vs & news & Hrun & Hrepr).
  pose proof (proj1 (items_loops_frame target ended rest) (h ++ news))
    as Hframe.
  rewrite Hrun. unfold yield_first. simpl.
  set (final := (items_from target ended (h ++ news) rest).1.2) in *.
  exists vs, (items_from target ended (h ++ news) rest).1.1.
  split; [done | split].
  - rewrite Forall2_fmap_r in Hrepr.
    eapply Forall2_impl; [exact Hrepr |]. intros v o Hr. simpl in Hr.
    apply (repr_reify (length h)); [| done].
    eapply repr_kept; [| exact Hr].
    intros l ob _ Hl. pose proof (lookup_lt_Some _ _ _ Hl) as Hlt.
    by rewrite <- (lookup_take_lt final (length (h ++ news)) l Hlt), Hframe.
  - transitivity (take (length h) (take (length (h ++ news)) final)).
    + rewrite take_take. f_equal. rewrite length_app. lia.
    + by rewrite Hframe, take_app_length.
Qed.

Lemma items_leaves_yielded_values_alone_witness :
  exists vs later,
    (items_from "item" None []
       (annotate ["item"] (JArr [JNum 1])
        ++ [("item", start_map); ("item", number 2)])).1.1 = vs ++ later
    /\ Forall2
         (reads_as
            (items_from "item" None []
               (annotate ["item"] (JArr [JNum 1])
                ++ [("item", start_map); ("item", number 2)])).1.2)
         vs (occurrences "item" ["item"] (JArr [JNum 1]))
    /\ take (length (@nil obj))
         (items_from "item" None []
            (annotate ["item"] (JArr [JNum 1])
             ++ [("item", start_map); ("item", number 2)])).1.2 = [].
Proof.
  apply (items_leaves_yielded_values_alone "item" None (JArr [JNum 1])
           ["item"] [] [("item", start_map); ("item", number 2)]).
  discriminate.
Defined.

(** ** Events outside any container *)

(** X20. A MapKey event that arrives while the path stack is empty makes
    the annotator raise [IndexError] (the assignment [path[-1] = value]):
    it has yielded the events before it and yields nothing for it or after
    it. *)
Theorem parse_map_key_on_empty_stack_raises :
  forall (before after : list event) (k : string) (out : list prefixed),
    parse_from [] before = (out, [], None) ->
    parse (before ++ map_key k :: after) = (out, Some IndexError).
Proof.
  intros before after k out Hbefore.
  unfold parse. rewrite parse_from_app, Hbefore. simpl.
  by rewrite app_nil_r.
Qed.

Lemma parse_map_key_on_empty_stack_raises_witness :
  parse ([start_array; end_array] ++ map_key "a" :: [null])
  = ([("", start_array); ("", end_array)], Some IndexError).
Proof.
  apply (parse_map_key_on_empty_stack_raises [start_array; end_array] [null]
           "a"); reflexivity.
Defined.

(** X21. An [ijsondict] needs a container at the root: when the first
    event is not a start event (a bare scalar, a MapKey or an end event),
    [_start_parse] raises [IndexError] at once, both stacks being empty; the
    dict stays empty and the events after the first are not pulled. *)
Theorem ijsondict_on_a_bare_event_raises :
  forall (ev : event) (rest : list event) (prefix : list string),
    is_start ev = false ->
    ijsondict_list (ev :: rest) prefix
    = (ijsondict_init, rest, Fault IndexError).
Proof.
  intros ev rest P Hev. unfold ijsondict_list.
  rewrite start_parse_from_cons.
  by destruct ev; try discriminate Hev.
Qed.

Lemma ijsondict_on_a_bare_event_raises_witness :
  ijsondict_list (number 5 :: [null]) ["data"; "item"]
  = (ijsondict_init, [null], Fault IndexError).
Proof.
  apply (ijsondict_on_a_bare_event_raises (number 5) [null]
           ["data"; "item"]).
  reflexivity.
Defined.

(** ** A container cut short *)

Lemma annotate_container p j :
  is_container j = true ->
  (p = [] -> empty_key_object j = false) ->
  exists sev inner,
    is_start sev = true
    /\ annotate p j = (join p, sev) :: inner ++ [(join p, end_event sev)]
    /\ Forall (fun pe => pe <> (join p, end_event sev)) inner.
Proof.
  intros Hc Hroot. destruct j as [| | | | xs | kvs]; try discriminate Hc.
  - exists start_array, (concat (map (annotate (p ++ ["item"])) xs)).
    repeat split. apply elements_before_end.
  - exists start_map,
      (concat (map (fun kv => (join p, map_key kv.1)
                                :: annotate (p ++ [kv.1]) kv.2) kvs)).
    repeat split. by apply members_before_end.
Qed.

(** X22. [items] yields a container at the target only when its end event
    arrives: if its source stops anywhere before the end of an array or an
    object that sits at the target, [items] yields nothing for it and raises
    nothing of its own, ending the way the source ends (for an exhausted
    source, silently). *)
Theorem items_yields_nothing_for_a_container_cut_short :
  forall (target : string) (ended : option exn) (j : json)
         (p : list string) (h : heap) (n : nat),
    is_container j = true ->
    join p = target ->
    (p = [] -> empty_key_object j = false) ->
    n < length (annotate p j) ->
    exists h',
      items_from target ended h (take n (annotate p j)) = ([], h', ended).
Proof.
  intros target ended j p h n Hc Hp Hroot Hn.
  destruct (annotate_container p j Hc Hroot)
    as (sev & inner & Hsev & Hpes & Hinner).
  pose proof (annotate_events p j) as Hevs.
  destruct (builds_all j ObjectBuilder_init h [] initial_set eq_refl I)
    as (v & b1 & h1 & b2 & news & _ & Hrun & _).
  rewrite <- Hevs, Hpes in Hrun. rewrite Hpes in Hn. rewrite Hpes, Hp in *.
  clear Hpes Hevs. simpl in Hn. rewrite length_app in Hn. simpl in Hn.
  destruct n as [|m]; [by exists h |].
  assert (Hm : m <= length inner) by lia.
  simpl. rewrite take_app_le by done.
  rewrite String.eqb_refl, Hsev.
  simpl in Hrun.
  destruct (ObjectBuilder_event ObjectBuilder_init h sev)
    as [[bs hs]|e] eqn:Hstart; [| done].
  simpl in Hrun.
  rewrite <- (take_drop m inner), map_app, map_app, <- app_assoc in Hrun.
  rewrite ObjectBuilder_events_app in Hrun.
  destruct (ObjectBuilder_events bs hs (map snd (take m inner)))
    as [[b' h']|e] eqn:Hin; [| done].
  exists h'.
  rewrite <- (app_nil_r (take m inner)).
  rewrite (items_build_events target ended (take m inner) bs hs
             (end_event sev) [] b' h'); [done | | done].
  by apply Forall_take.
Qed.

Lemma items_yields_nothing_for_a_container_cut_short_witness :
  exists h',
    items_from "a" (Some IncompleteJSONError) []
      (take 3 (annotate ["a"] (JArr [JNum 1; JNum 2; JNum 3])))
    = ([], h', Some IncompleteJSONError).
Proof.
  apply (items_yields_nothing_for_a_container_cut_short "a"
           (Some IncompleteJSONError) (JArr [JNum 1; JNum 2; JNum 3]) ["a"]
           [] 3); [reflexivity | reflexivity | discriminate | simpl; lia].
Defined.
